(** * meshoptimizer 1.0: [meshoptimizer.hpp]

    The header declares the mesh optimizers and analyzers and defines three
    inline quantization helpers, [quantizeUnorm], [quantizeSnorm] and
    [quantizeHalf].  The helpers are embedded over IEEE-754 binary32, with
    the Standard Library's [SpecFloat] at precision 24 and maximal exponent
    128: every [float] operation is evaluated in binary32 and rounded to
    nearest with ties to even, one operation at a time (no fused
    multiply-add, no excess precision).  A [float] object is its 32-bit
    pattern, as the union in [quantizeHalf] reads it. *)

From Stdlib Require Import ZArith Lia Bool List Permutation.
From Stdlib Require Import QArith Qround Qpower Lqa.
From Stdlib Require Import Qabs.
From Stdlib Require Import Floats.SpecFloat.
Import ListNotations.
Local Open Scope Z_scope.

(** ** Partial C++ expressions

    Signed overflow, a shift count outside the width and a float-to-int
    conversion whose result is not representable have undefined behaviour
    in C++; the embedding returns [None] there. *)

Definition bind {A B : Type} (x : option A) (f : A -> option B) : option B :=
  match x with
  | Some a => f a
  | None => None
  end.

Notation "x <- c1 ;; c2" := (bind c1 (fun x => c2))
  (at level 61, c1 at next level, right associativity).

Module Int32.

Definition min_signed : Z := - 2 ^ 31.
Definition max_signed : Z := 2 ^ 31 - 1.

Definition fits (n : Z) : bool := (min_signed <=? n) && (n <=? max_signed).

Definition checked (n : Z) : option Z := if fits n then Some n else None.

(** [a << b] on [int]: defined for a non-negative [a], a count in
    [0, 32) and a representable result. *)
Definition shl (a b : Z) : option Z :=
  if (0 <=? a) && (0 <=? b) && (b <? 32) then checked (Z.shiftl a b) else None.

Definition sub (a b : Z) : option Z := checked (a - b).

Definition add (a b : Z) : option Z := checked (a + b).

End Int32.

(** ** binary32: object representation and values *)

Module Float32.

Definition prec : Z := 24.
Definition emax : Z := 128.

Definition float32 : Type := Z.

Definition wf (ui : float32) : Prop := 0 <= ui < 2 ^ 32.

Definition sign_bit (ui : float32) : bool := Z.testbit ui 31.
Definition biased_exp (ui : float32) : Z := Z.land (Z.shiftr ui 23) 0xff.
Definition fraction (ui : float32) : Z := Z.land ui 0x7fffff.

Definition is_nan (ui : float32) : bool :=
  (biased_exp ui =? 255) && negb (fraction ui =? 0).

Definition is_finite (ui : float32) : bool := negb (biased_exp ui =? 255).

(** The value a bit pattern denotes. *)
Definition decode (ui : float32) : spec_float :=
  let s := sign_bit ui in
  let e := biased_exp ui in
  let m := fraction ui in
  if e =? 255 then
    if m =? 0 then S754_infinity s else S754_nan
  else if e =? 0 then
    match m with
    | Zpos p => S754_finite s p (-149)
    | _ => S754_zero s
    end
  else
    match m + 2 ^ 23 with
    | Zpos p => S754_finite s p (e - 150)
    | _ => S754_nan
    end.

(** The bit pattern of a value; a NaN is written as the positive quiet
    NaN [0x7fc00000]. *)
Definition encode (x : spec_float) : float32 :=
  let sgn (s : bool) := if s then 0x80000000 else 0 in
  match x with
  | S754_zero s => sgn s
  | S754_infinity s => Z.lor (sgn s) 0x7f800000
  | S754_nan => 0x7fc00000
  | S754_finite s m e =>
      if Zpos m <? 2 ^ 23 then Z.lor (sgn s) (Zpos m)
      else Z.lor (sgn s) (Z.lor (Z.shiftl (e + 150) 23) (Zpos m - 2 ^ 23))
  end.

(** The binary32 value nearest to an integer, ties to even. *)
Definition of_Z (n : Z) : spec_float := binary_normalize prec emax n 0 false.

(** [float(n)] for an [int] n. *)
Definition of_int (n : Z) : spec_float := of_Z n.

(** [int(x)]: truncation toward zero, undefined when the truncated value
    is not representable, and for infinities and NaN. *)
Definition to_int (x : spec_float) : option Z :=
  match x with
  | S754_zero _ => Some 0
  | S754_finite s m e =>
      let t := if 0 <=? e then Zpos m * 2 ^ e else Zpos m / 2 ^ (- e) in
      Int32.checked (if s then - t else t)
  | _ => None
  end.

Definition mul : spec_float -> spec_float -> spec_float := SFmul prec emax.
Definition add : spec_float -> spec_float -> spec_float := SFadd prec emax.
Definition div : spec_float -> spec_float -> spec_float := SFdiv prec emax.

(** The C++ comparisons; each is false when an operand is NaN. *)
Definition le (x y : spec_float) : bool := SFleb x y.
Definition ge (x y : spec_float) : bool := SFleb y x.
Definition lt (x y : spec_float) : bool := SFltb x y.

(** The literals [0.5f] and [-0.5f]. *)
Definition half : spec_float := binary_normalize prec emax 1 (-1) false.
Definition neg_half : spec_float := binary_normalize prec emax (-1) (-1) false.

(** [2^k] as a binary32 value, for the thresholds of [quantizeHalf]. *)
Definition pow2 (k : Z) : spec_float := binary_normalize prec emax 1 k false.

(** The rational a value denotes; zero for infinities and NaN. *)
Definition F2Q (x : spec_float) : Q :=
  match x with
  | S754_finite s m e => (inject_Z (if s then Zneg m else Zpos m) * 2 ^ e)%Q
  | _ => 0%Q
  end.

(** The literals of the specification's test vectors. *)
Definition lit_zero : float32 := encode (of_Z 0).
Definition lit_one : float32 := encode (of_Z 1).
Definition lit_half : float32 := encode half.
Definition lit_minus_one : float32 := encode (of_Z (-1)).
Definition lit_minus_two : float32 := encode (of_Z (-2)).
Definition lit_65504 : float32 := encode (of_Z 65504).
Definition lit_1em10 : float32 := encode (div (of_Z 1) (of_Z (10 ^ 10))).
Definition lit_1e20 : float32 := encode (of_Z (10 ^ 20)).
Definition lit_nan : float32 := encode S754_nan.
Definition neg_zero : float32 := 0x80000000.

End Float32.

(** ** The floating-point environment

    A [float] operation is evaluated in the rounding direction of the
    floating-point environment of the thread ([<cfenv>], [fesetround]).
    The operations below are those of [SpecFloat] with the rounding
    direction as a parameter; at [FE_TONEAREST] they are [SpecFloat]'s. *)

Module Fenv.
Import Float32.

Inductive rounding : Type :=
| FE_TONEAREST
| FE_DOWNWARD
| FE_UPWARD
| FE_TOWARDZERO.

(** The mantissa chosen for a value whose truncated mantissa is [m], at the
    location [l] between [m] and [m + 1]. *)
Definition round_in (r : rounding) (sx : bool) (m : Z) (l : location) : Z :=
  match r with
  | FE_TONEAREST => round_nearest_even m l
  | FE_TOWARDZERO => m
  | FE_UPWARD =>
      match l with
      | loc_Exact => m
      | loc_Inexact _ => if sx then m else m + 1
      end
  | FE_DOWNWARD =>
      match l with
      | loc_Exact => m
      | loc_Inexact _ => if sx then m + 1 else m
      end
  end.

(** The largest finite value, and the result of an overflow. *)
Definition largest (sx : bool) : spec_float :=
  S754_finite sx (2 ^ 24 - 1) (emax - prec).

Definition overflow (r : rounding) (sx : bool) : spec_float :=
  match r with
  | FE_TONEAREST => S754_infinity sx
  | FE_TOWARDZERO => largest sx
  | FE_UPWARD => if sx then largest sx else S754_infinity sx
  | FE_DOWNWARD => if sx then S754_infinity sx else largest sx
  end.

Definition binary_round_aux (r : rounding) (sx : bool) (mx ex : Z) (lx : location)
    : spec_float :=
  let '(mrs', e') := shr_fexp prec emax mx ex lx in
  let '(mrs'', e'') :=
    shr_fexp prec emax (round_in r sx (shr_m mrs') (loc_of_shr_record mrs')) e' loc_Exact in
  match shr_m mrs'' with
  | Z0 => S754_zero sx
  | Zpos m => if e'' <=? emax - prec then S754_finite sx m e'' else overflow r sx
  | Zneg _ => S754_nan
  end.

Definition binary_round (r : rounding) (sx : bool) (mx : positive) (ex : Z) : spec_float :=
  let '(mz, ez) := shl_align mx ex (fexp prec emax (Zpos (digits2_pos mx) + ex)) in
  binary_round_aux r sx (Zpos mz) ez loc_Exact.

Definition binary_normalize (r : rounding) (m e : Z) (szero : bool) : spec_float :=
  match m with
  | Z0 => S754_zero szero
  | Zpos m => binary_round r false m e
  | Zneg m => binary_round r true m e
  end.

(** The sign of an exact zero sum. *)
Definition zero_sign (r : rounding) : bool :=
  match r with
  | FE_DOWNWARD => true
  | _ => false
  end.

(** [x * y] *)
Definition mul (r : rounding) (x y : spec_float) : spec_float :=
  match x, y with
  | S754_nan, _ | _, S754_nan => S754_nan
  | S754_infinity sx, S754_infinity sy => S754_infinity (xorb sx sy)
  | S754_infinity sx, S754_finite sy _ _ => S754_infinity (xorb sx sy)
  | S754_finite sx _ _, S754_infinity sy => S754_infinity (xorb sx sy)
  | S754_infinity _, S754_zero _ => S754_nan
  | S754_zero _, S754_infinity _ => S754_nan
  | S754_finite sx _ _, S754_zero sy => S754_zero (xorb sx sy)
  | S754_zero sx, S754_finite sy _ _ => S754_zero (xorb sx sy)
  | S754_zero sx, S754_zero sy => S754_zero (xorb sx sy)
  | S754_finite sx mx ex, S754_finite sy my ey =>
      binary_round_aux r (xorb sx sy) (Zpos (mx * my)) (ex + ey) loc_Exact
  end.

(** [x + y] *)
Definition add (r : rounding) (x y : spec_float) : spec_float :=
  match x, y with
  | S754_nan, _ | _, S754_nan => S754_nan
  | S754_infinity sx, S754_infinity sy => if Bool.eqb sx sy then x else S754_nan
  | S754_infinity _, _ => x
  | _, S754_infinity _ => y
  | S754_zero sx, S754_zero sy => if Bool.eqb sx sy then x else S754_zero (zero_sign r)
  | S754_zero _, _ => y
  | _, S754_zero _ => x
  | S754_finite sx mx ex, S754_finite sy my ey =>
      let ez := Z.min ex ey in
      binary_normalize r
        (cond_Zopp sx (Zpos (fst (shl_align mx ex ez)))
         + cond_Zopp sy (Zpos (fst (shl_align my ey ez))))
        ez (zero_sign r)
  end.

(** [float(n)] for an [int] n. *)
Definition of_int (r : rounding) (n : Z) : spec_float := binary_normalize r n 0 false.

End Fenv.

(** ** The quantization helpers *)

Module Quantize.
Import Float32.

(** [inline int quantizeUnorm(float v, int bits)] *)
Definition quantizeUnorm (v : float32) (bits : Z) : option Z :=
  n <- Int32.shl 1 bits ;;
  n1 <- Int32.sub n 1 ;;
  let scale := of_int n1 in
  let v := decode v in
  let v := if ge v (of_int 0) then v else of_int 0 in
  let v := if le v (of_int 1) then v else of_int 1 in
  to_int (add (mul v scale) half).

(** [inline int quantizeSnorm(float v, int bits)] *)
Definition quantizeSnorm (v : float32) (bits : Z) : option Z :=
  b1 <- Int32.sub bits 1 ;;
  n <- Int32.shl 1 b1 ;;
  n1 <- Int32.sub n 1 ;;
  let scale := of_int n1 in
  let v := decode v in
  let round := if ge v (of_int 0) then half else neg_half in
  let v := if ge v (of_int (-1)) then v else of_int (-1) in
  let v := if le v (of_int 1) then v else of_int 1 in
  to_int (add (mul v scale) round).

(** The two fixed-point helpers in a rounding direction [r] of the
    floating-point environment: the conversions [float(...)], the product
    and the sum are rounded in it; the comparisons, the literals [0.5f] and
    [-0.5f] and the truncation [int(...)] do not depend on it. *)
Definition quantizeUnorm_in (r : Fenv.rounding) (v : float32) (bits : Z) : option Z :=
  n <- Int32.shl 1 bits ;;
  n1 <- Int32.sub n 1 ;;
  let scale := Fenv.of_int r n1 in
  let v := decode v in
  let v := if ge v (Fenv.of_int r 0) then v else Fenv.of_int r 0 in
  let v := if le v (Fenv.of_int r 1) then v else Fenv.of_int r 1 in
  to_int (Fenv.add r (Fenv.mul r v scale) half).

Definition quantizeSnorm_in (r : Fenv.rounding) (v : float32) (bits : Z) : option Z :=
  b1 <- Int32.sub bits 1 ;;
  n <- Int32.shl 1 b1 ;;
  n1 <- Int32.sub n 1 ;;
  let scale := Fenv.of_int r n1 in
  let v := decode v in
  let round := if ge v (Fenv.of_int r 0) then half else neg_half in
  let v := if ge v (Fenv.of_int r (-1)) then v else Fenv.of_int r (-1) in
  let v := if le v (Fenv.of_int r 1) then v else Fenv.of_int r 1 in
  to_int (Fenv.add r (Fenv.mul r v scale) round).

(** [(unsigned short)x] *)
Definition to_ushort (x : Z) : Z := x mod 2 ^ 16.

(** [inline unsigned short quantizeHalf(float v)] *)
Definition quantizeHalf (v : float32) : Z :=
  let ui := v in
  let s := Z.land (Z.shiftr ui 16) 0x8000 in
  let em := Z.land ui 0x7fffffff in
  (* bias exponent and round to nearest; 112 is relative exponent bias *)
  let h := Z.shiftr (em - Z.shiftl 112 23 + Z.shiftl 1 12) 13 in
  (* underflow: flush to zero; 113 encodes exponent -14 *)
  let h := if em <? Z.shiftl 113 23 then 0 else h in
  (* overflow: infinity; 143 encodes exponent 16 *)
  let h := if em >=? Z.shiftl 143 23 then 0x7c00 else h in
  (* NaN; all types of NaN become qNaN *)
  let h := if em >? Z.shiftl 255 23 then 0x7e00 else h in
  to_ushort (Z.lor s h).

(** The sign bit of the input, at the sign position of a half. *)
Definition half_sign (v : float32) : Z := if sign_bit v then 0x8000 else 0.

(** [a >> b] on [int]: the result for a negative [a] is
    implementation-defined, [sar a b] here. *)
Definition shr_impl (sar : Z -> Z -> Z) (a b : Z) : Z :=
  if 0 <=? a then Z.shiftr a b else sar a b.

(** [quantizeHalf] with its [int] arithmetic spelled out: the conversions
    from [unsigned int] and the signed operations are checked, and the
    right shift of a negative value is left to the implementation. *)
Definition quantizeHalf_checked (sar : Z -> Z -> Z) (v : float32) : option Z :=
  let ui := v in
  s <- Int32.checked (Z.land (Z.shiftr ui 16) 0x8000) ;;
  em <- Int32.checked (Z.land ui 0x7fffffff) ;;
  c112 <- Int32.shl 112 23 ;;
  c1 <- Int32.shl 1 12 ;;
  d <- Int32.sub em c112 ;;
  t <- Int32.add d c1 ;;
  let h := shr_impl sar t 13 in
  c113 <- Int32.shl 113 23 ;;
  let h := if em <? c113 then 0 else h in
  c143 <- Int32.shl 143 23 ;;
  let h := if em >=? c143 then 0x7c00 else h in
  c255 <- Int32.shl 255 23 ;;
  let h := if em >? c255 then 0x7e00 else h in
  Some (to_ushort (Z.lor s h)).

(** The helpers as calls in a running program.  The state of the program
    outside the arguments is a [World]: the rounding direction of the
    floating-point environment and the [Memory] of the program's objects
    (the status flags of the environment are not modelled).  An expression
    is evaluated in a world and yields its value, if it has one, and the
    world after it; a [float] conversion or operation reads the rounding
    direction. *)
Section Calls.
Variable Memory : Type.

Record World : Type := {
  rounding_direction : Fenv.rounding;
  memory : Memory
}.

Definition Eval (A : Type) : Type := World -> option A * World.

Definition value {A : Type} (x : option A) : Eval A := fun w => (x, w).

Definition and_then {A B : Type} (c : Eval A) (f : A -> Eval B) : Eval B :=
  fun w =>
    match c w with
    | (Some a, w') => f a w'
    | (None, w') => (None, w')
    end.

Local Notation "x <~ c1 ;; c2" := (and_then c1 (fun x => c2))
  (at level 61, c1 at next level, right associativity).

Definition float_of_int (n : Z) : Eval spec_float :=
  fun w => (Some (Fenv.of_int (rounding_direction w) n), w).

Definition float_mul (x y : spec_float) : Eval spec_float :=
  fun w => (Some (Fenv.mul (rounding_direction w) x y), w).

Definition float_add (x y : spec_float) : Eval spec_float :=
  fun w => (Some (Fenv.add (rounding_direction w) x y), w).

Definition call_quantizeUnorm (v : float32) (bits : Z) : Eval Z :=
  n <~ value (Int32.shl 1 bits) ;;
  n1 <~ value (Int32.sub n 1) ;;
  scale <~ float_of_int n1 ;;
  let v := decode v in
  zero <~ float_of_int 0 ;;
  let v := if ge v zero then v else zero in
  one <~ float_of_int 1 ;;
  let v := if le v one then v else one in
  p <~ float_mul v scale ;;
  t <~ float_add p half ;;
  value (to_int t).

Definition call_quantizeSnorm (v : float32) (bits : Z) : Eval Z :=
  b1 <~ value (Int32.sub bits 1) ;;
  n <~ value (Int32.shl 1 b1) ;;
  n1 <~ value (Int32.sub n 1) ;;
  scale <~ float_of_int n1 ;;
  let v := decode v in
  zero <~ float_of_int 0 ;;
  let round := if ge v zero then half else neg_half in
  minus_one <~ float_of_int (-1) ;;
  let v := if ge v minus_one then v else minus_one in
  one <~ float_of_int 1 ;;
  let v := if le v one then v else one in
  p <~ float_mul v scale ;;
  t <~ float_add p round ;;
  value (to_int t).

(** [quantizeHalf] works on the bits of its argument with integer
    operations only. *)
Definition call_quantizeHalf (v : float32) : Eval Z := value (Some (quantizeHalf v)).
End Calls.

(** *** The specification's reading of the fixed-point quantizers

    Clamp, scale, round half away from zero, over the rationals. *)

Definition clampQ (lo hi x : Q) : Q :=
  if Qle_bool x lo then lo else if Qle_bool hi x then hi else x.

Definition round_half_away (x : Q) : Z :=
  if Qle_bool 0 x then Qfloor (x + (1 # 2)) else - Qfloor (- x + (1 # 2)).

Definition unorm_exact (v : float32) (bits : Z) : Z :=
  round_half_away (clampQ 0 1 (F2Q (decode v)) * inject_Z (2 ^ bits - 1)).

Definition snorm_exact (v : float32) (bits : Z) : Z :=
  round_half_away (clampQ (-1) 1 (F2Q (decode v)) * inject_Z (2 ^ (bits - 1) - 1)).

End Quantize.

(** ** binary16: the values of the patterns [quantizeHalf] returns

    IEEE-754 half precision: one sign bit, five exponent bits with bias
    15, ten mantissa bits. *)

Module Half.

Definition sign_bit (h : Z) : bool := Z.testbit h 15.
Definition biased_exp (h : Z) : Z := Z.land (Z.shiftr h 10) 0x1f.
Definition fraction (h : Z) : Z := Z.land h 0x3ff.

Definition is_nan (h : Z) : bool := (biased_exp h =? 31) && negb (fraction h =? 0).
Definition is_inf (h : Z) : bool := (biased_exp h =? 31) && (fraction h =? 0).
Definition is_zero (h : Z) : bool := (biased_exp h =? 0) && (fraction h =? 0).
Definition is_subnormal (h : Z) : bool := (biased_exp h =? 0) && negb (fraction h =? 0).
Definition is_normal (h : Z) : bool := (1 <=? biased_exp h) && (biased_exp h <=? 30).
Definition is_finite (h : Z) : bool := negb (biased_exp h =? 31).

(** The value a half-precision pattern denotes. *)
Definition decode (h : Z) : spec_float :=
  let s := sign_bit h in
  let e := biased_exp h in
  let m := fraction h in
  if e =? 31 then
    if m =? 0 then S754_infinity s else S754_nan
  else if e =? 0 then
    match m with
    | Zpos p => S754_finite s p (-24)
    | _ => S754_zero s
    end
  else
    match m + 2 ^ 10 with
    | Zpos p => S754_finite s p (e - 25)
    | _ => S754_nan
    end.

End Half.


(** ** The declarations with default arguments

    The header declares the optimizers and analyzers and gives no bodies:
    a body is a parameter here.  The two index-width overloads of a
    function declare the same defaults, so one declaration stands for
    both, over the type [Indices] of the index buffer.  A call site may
    leave a defaulted trailing argument out ([None]); the declaration then
    supplies it. *)

Module Api.
Import Float32.

Definition default_arg {A : Type} (declared : A) (given : option A) : A :=
  match given with
  | Some a => a
  | None => declared
  end.

Section Declarations.
Variables Indices Positions Clusters Stats : Type.

(** [void optimizePostTransform(destination, indices, index_count,
    vertex_count, unsigned int cache_size = 16,
    std::vector<unsigned int>* clusters = 0)] *)
Variable optimizePostTransform_body :
  Indices -> Z -> Z -> Z -> option Clusters -> Indices * option Clusters.

Definition optimizePostTransform (indices : Indices) (index_count vertex_count : Z)
    (cache_size : option Z) (clusters : option (option Clusters)) :=
  optimizePostTransform_body indices index_count vertex_count
    (default_arg 16 cache_size) (default_arg None clusters).

(** [void optimizeOverdraw(destination, indices, index_count,
    vertex_positions, vertex_positions_stride, vertex_count, clusters,
    unsigned int cache_size = 16, float threshold = 1)] *)
Variable optimizeOverdraw_body :
  Indices -> Z -> Positions -> Z -> Z -> Clusters -> Z -> float32 -> Indices.

Definition optimizeOverdraw (indices : Indices) (index_count : Z)
    (vertex_positions : Positions) (vertex_positions_stride vertex_count : Z)
    (clusters : Clusters) (cache_size : option Z) (threshold : option float32) :=
  optimizeOverdraw_body indices index_count vertex_positions
    vertex_positions_stride vertex_count clusters
    (default_arg 16 cache_size) (default_arg (encode (of_int 1)) threshold).

(** [PostTransformCacheStatistics analyzePostTransform(indices,
    index_count, vertex_count, unsigned int cache_size = 32)] *)
Variable analyzePostTransform_body : Indices -> Z -> Z -> Z -> Stats.

Definition analyzePostTransform (indices : Indices) (index_count vertex_count : Z)
    (cache_size : option Z) :=
  analyzePostTransform_body indices index_count vertex_count
    (default_arg 32 cache_size).
End Declarations.

End Api.

(** ** The optimizers that reorder indices

    The header declares [optimizePostTransform], [optimizeOverdraw] and
    [optimizePreTransform] and holds no body for them.  Each is modelled
    here from the specification's description of its algorithm (sections
    4.2, 4.4 and 4.6), over index buffers as lists of vertex numbers. *)

Module Mesh.
Local Open Scope nat_scope.

Definition triangle : Type := nat * nat * nat.

(** Modelled from the spec: the index buffer of the data model (section
    3), "triangles are consecutive triples". *)
Fixpoint triangles (indices : list nat) : list triangle :=
  match indices with
  | a :: b :: c :: rest => (a, b, c) :: triangles rest
  | _ => []
  end.

Definition corners (t : triangle) : list nat :=
  let '(a, b, c) := t in [a; b; c].

Definition indices_of (ts : list triangle) : list nat := flat_map corners ts.

(** Modelled from the spec: the invariants of an index buffer in the data
    model, "index_count % 3 == 0; each index < vertex_count". *)
Definition well_formed (indices : list nat) (vertex_count : nat) : Prop :=
  length indices mod 3 = 0 /\ Forall (fun i => i < vertex_count) indices.

(** A triangle as an unordered triple: its corners in ascending order. *)
Definition sort2 (p : nat * nat) : nat * nat :=
  let '(a, b) := p in if a <=? b then (a, b) else (b, a).

Definition unordered (t : triangle) : triangle :=
  let '(a, b, c) := t in
  let '(a, b) := sort2 (a, b) in
  let '(b, c) := sort2 (b, c) in
  let '(a, b) := sort2 (a, b) in
  (a, b, c).

(** Two index buffers hold the same multiset of unordered triangles. *)
Definition same_triangles (out inp : list nat) : Prop :=
  Permutation (map unordered (triangles out)) (map unordered (triangles inp)).

Definition is_nil {A : Type} (l : list A) : bool :=
  match l with
  | [] => true
  | _ => false
  end.

Fixpoint set_nth {A : Type} (n : nat) (x : A) (l : list A) : list A :=
  match l, n with
  | [], _ => []
  | _ :: l', 0 => x :: l'
  | y :: l', S n' => y :: set_nth n' x l'
  end.

(** A strictly increasing list. *)
Fixpoint increasing (l : list nat) : Prop :=
  match l with
  | a :: (b :: _) as rest => a < b /\ increasing rest
  | _ => True
  end.

(** *** Post-transform optimizer (Tipsify) *)

Section PostTransform.
Variable tris : list triangle.
Variables vertex_count cache_size : nat.

Definition tri (t : nat) : triangle := nth t tris (0, 0, 0).

Definition has_corner (v : nat) (t : triangle) : bool := existsb (Nat.eqb v) (corners t).

(** Modelled from the spec: step 1 of the body of [optimizePostTransform],
    the per-vertex triangle adjacency. *)
Definition adjacency (v : nat) : list nat :=
  filter (fun t => has_corner v (tri t)) (seq 0 (length tris)).

(** Modelled from the spec: the working state of the walk: the triangles
    written so far (by position in the input), the per-vertex cache time
    stamps, the current time stamp, the input cursor and the cluster
    starts. *)
Record tipsify_state : Type := {
  output : list nat;
  timestamps : list nat;
  time : nat;
  cursor : nat;
  clusters : list nat
}.

Definition emitted (st : tipsify_state) (t : nat) : bool :=
  existsb (Nat.eqb t) (output st).

(** Modelled from the spec: step 2, the live triangles of a vertex, whose
    number is its live-triangle count. *)
Definition live (st : tipsify_state) (v : nat) : list nat :=
  filter (fun t => negb (emitted st t)) (adjacency v).

Definition timestamp (st : tipsify_state) (v : nat) : nat := nth v (timestamps st) 0.

(** Modelled from the spec: the FIFO cache model, "in cache iff
    (current_timestamp - its_timestamp) + k < cache_size" with k = 3. *)
Definition in_cache (st : tipsify_state) (v : nat) : bool :=
  (time st - timestamp st v) + 3 <? cache_size.

(** Modelled from the spec: "priority = estimated cache position minus
    2 x live-count penalty". *)
Definition priority (st : tipsify_state) (v : nat) : Z :=
  (Z.of_nat (time st - timestamp st v) - 2 * Z.of_nat (length (live st v)))%Z.

(** Modelled from the spec: step 3, "its three vertices receive fresh
    timestamps". *)
Definition stamp (st : tipsify_state) (v : nat) : tipsify_state :=
  {| output := output st;
     timestamps := set_nth v (S (time st)) (timestamps st);
     time := S (time st);
     cursor := cursor st;
     clusters := clusters st |}.

(** Modelled from the spec: step 3, writing one triangle: its vertices
    are stamped and the triangle is appended to the output. *)
Definition emit_triangle (st : tipsify_state) (t : nat) : tipsify_state :=
  let st' := fold_left stamp (corners (tri t)) st in
  {| output := output st' ++ [t];
     timestamps := timestamps st';
     time := time st';
     cursor := cursor st';
     clusters := clusters st' |}.

(** Modelled from the spec: step 5, "emit all remaining live triangles
    incident to f, appending their indices to the output in the order
    found". *)
Definition emit_fan (st : tipsify_state) (f : nat) : tipsify_state :=
  fold_left emit_triangle (live st f) st.

(** Modelled from the spec: the highest priority, "ties in priority broken
    by lowest vertex index" (the candidates come in ascending order). *)
Definition best (st : tipsify_state) (candidates : list nat) : option nat :=
  fold_left
    (fun acc v =>
       match acc with
       | None => Some v
       | Some w => if (priority st w <? priority st v)%Z then Some v else Some w
       end)
    candidates None.

(** Modelled from the spec: step 4, the candidates: the vertices in the
    cache that are not yet exhausted. *)
Definition candidates (st : tipsify_state) : list nat :=
  filter (fun v => in_cache st v && negb (is_nil (live st v))) (seq 0 vertex_count).

(** Modelled from the spec: steps 4 and 6, the next fanning vertex: a
    not-yet-exhausted vertex in the cache of highest priority, and
    otherwise the next vertex with live triangles from the cursor on,
    which starts a new cluster at the current triangle-write position. *)
Definition next_vertex (st : tipsify_state) : option (nat * tipsify_state) :=
  match best st (candidates st) with
  | Some f => Some (f, st)
  | None =>
      match find (fun v => negb (is_nil (live st v)))
                 (seq (cursor st) (vertex_count - cursor st)) with
      | Some v =>
          Some (v, {| output := output st;
                      timestamps := timestamps st;
                      time := time st;
                      cursor := v;
                      clusters := clusters st ++ [length (output st)] |})
      | None => None
      end
  end.

(** Modelled from the spec: the greedy walk of [optimizePostTransform],
    steps 4 and 5 in turn; every round writes a triangle, so as many
    rounds as there are triangles suffice. *)
Fixpoint tipsify (fuel : nat) (st : tipsify_state) : tipsify_state :=
  match fuel with
  | 0 => st
  | S fuel' =>
      match next_vertex st with
      | Some (f, st') => tipsify fuel' (emit_fan st' f)
      | None => st
      end
  end.

(** The invariant of the walk: no triangle is written twice, only
    triangles of the input are written, and the vertices the cursor has
    passed have no live triangle left. *)
Definition walk_invariant (st : tipsify_state) : Prop :=
  NoDup (output st) /\
  (forall t, In t (output st) -> t < length tris) /\
  (forall w, w < cursor st -> live st w = []).

(** What the walk keeps of the cluster starts: the first is 0, they
    increase strictly, each is below the triangle-write position, and
    before the first triangle is written no vertex has a time stamp. *)
Definition clusters_invariant (st : tipsify_state) : Prop :=
  match clusters st with
  | [] => output st = []
  | first :: _ => first = 0
  end /\
  increasing (clusters st) /\
  Forall (fun c => c < length (output st)) (clusters st) /\
  (output st = [] -> timestamps st = repeat 0 vertex_count /\ time st = cache_size + 1).

(** Modelled from the spec: the state the walk starts from: nothing
    written, no vertex in the cache, the cursor on the first vertex. *)
Definition initial : tipsify_state :=
  {| output := [];
     timestamps := repeat 0 vertex_count;
     time := cache_size + 1;
     cursor := 0;
     clusters := [] |}.

End PostTransform.

(** Modelled from the spec: the body of [optimizePostTransform] (section
    4.2), which the header only declares: the new index buffer and the
    cluster starts. *)
Definition optimizePostTransform (indices : list nat) (vertex_count cache_size : nat)
    : list nat * list nat :=
  let tris := triangles indices in
  let st := tipsify tris vertex_count cache_size (length tris) (initial vertex_count cache_size) in
  (indices_of (map (tri tris) (output st)), clusters st).

(** *** Overdraw optimizer *)

(** Modelled from the spec: the invariants of a cluster list in the data
    model: it starts at 0 (and is empty only for the empty mesh), is
    strictly increasing, and every entry is at most the triangle count. *)
Definition clusters_wf (clusters : list nat) (triangle_count : nat) : Prop :=
  match clusters with
  | [] => triangle_count = 0
  | first :: _ => first = 0
  end /\
  increasing clusters /\
  Forall (fun c => c <= triangle_count) clusters.

(** Modelled from the spec: the triangles of each cluster, "the cluster
    whose start <= triangle index < next cluster start", the last one
    "terminated implicitly by index_count/3". *)
Fixpoint slices (tris : list triangle) (starts : list nat) : list (list triangle) :=
  match starts with
  | [] => []
  | lo :: rest =>
      firstn (match rest with [] => length tris | hi :: _ => hi end - lo) (skipn lo tris)
      :: slices tris rest
  end.

Fixpoint remove_first (x : nat) (l : list nat) : list nat :=
  match l with
  | [] => []
  | y :: l' => if x =? y then l' else y :: remove_first x l'
  end.

Section Overdraw.
(** The specification leaves the view directions and the scoring formula
    open; the numbers its heuristic computes from the vertex positions,
    [cache_size] and [threshold] are parameters: the overdraw penalty of
    appending a cluster to the clusters chosen so far, whether doing so
    keeps the ACMR within [threshold], and by how much it does not. *)
Variable penalty : list nat -> nat -> Z.
Variable within_threshold : list nat -> nat -> bool.
Variable excess : list nat -> nat -> Z.

(** Modelled from the spec: "ties broken by original cluster index". *)
Definition better (key : nat -> Z) (a b : nat) : bool :=
  (key a <? key b)%Z || ((key a =? key b)%Z && (a <? b)).

Fixpoint argmin (key : nat -> Z) (x : nat) (l : list nat) : nat :=
  match l with
  | [] => x
  | y :: l' => argmin key (if better key y x then y else x) l'
  end.

(** Modelled from the spec: steps 2 and 3, the cluster to append: the best
    candidate that keeps the ACMR constraint, and "if all remaining
    candidates violate, relax by taking the least-violating". *)
Definition choose (chosen remaining : list nat) : option nat :=
  match filter (within_threshold chosen) remaining, remaining with
  | c :: cs, _ => Some (argmin (penalty chosen) c cs)
  | [], c :: cs => Some (argmin (excess chosen) c cs)
  | [], [] => None
  end.

(** Modelled from the spec: step 2, "greedily reorder clusters": one
    cluster is appended per round. *)
Fixpoint order_clusters (fuel : nat) (chosen remaining : list nat) : list nat :=
  match fuel with
  | 0 => chosen
  | S fuel' =>
      match choose chosen remaining with
      | Some c => order_clusters fuel' (chosen ++ [c]) (remove_first c remaining)
      | None => chosen
      end
  end.

(** Modelled from the spec: the body of [optimizeOverdraw] (section 4.4),
    which the header only declares: step 4, "concatenate clusters'
    triangles into destination in the chosen order". *)
Definition optimizeOverdraw (indices : list nat) (clusters : list nat) : list nat :=
  let tris := triangles indices in
  let parts := slices tris clusters in
  let order := order_clusters (length clusters) [] (seq 0 (length clusters)) in
  indices_of (flat_map (fun k => nth k parts []) order).

End Overdraw.

(** *** Pre-transform vertex fetch optimizer *)

(** Modelled from the spec: the vertices in the order in which [indices]
    first refers to them. *)
Fixpoint first_uses (seen : list nat) (indices : list nat) : list nat :=
  match indices with
  | [] => []
  | i :: rest =>
      if existsb (Nat.eqb i) seen then first_uses seen rest
      else i :: first_uses (i :: seen) rest
  end.

(** Modelled from the spec: the new vertex order: first-reference order,
    then "vertices never referenced by indices are appended at the end in
    their original relative order". *)
Definition vertex_order (indices : list nat) (vertex_count : nat) : list nat :=
  let used := first_uses [] indices in
  used ++ filter (fun v => negb (existsb (Nat.eqb v) used)) (seq 0 vertex_count).

Fixpoint position (v : nat) (order : list nat) : nat :=
  match order with
  | [] => 0
  | w :: rest => if v =? w then 0 else S (position v rest)
  end.

(** Modelled from the spec: the body of [optimizePreTransform] (section
    4.6), which the header only declares: [destination] holds the
    vertices in the new order and [indices] is rewritten to refer to it. *)
Definition optimizePreTransform {V : Type} (d : V) (vertices : list V)
    (indices : list nat) (vertex_count : nat) : list V * list nat :=
  let order := vertex_order indices vertex_count in
  (map (fun v => nth v vertices d) order, map (fun i => position i order) indices).

End Mesh.


(** ** Auxiliary notions of the proofs *)

Import Float32 Quantize.

(** The three fields of a bit pattern. *)
Record fields (ui s E M : Z) : Prop := {
  f_s : s = 0 \/ s = 1;
  f_E : 0 <= E < 256;
  f_M : 0 <= M < 2 ^ 23;
  f_ui : ui = s * 2 ^ 31 + E * 2 ^ 23 + M;
  f_sign : sign_bit ui = (s =? 1);
  f_exp : biased_exp ui = E;
  f_frac : fraction ui = M;
  f_em : Z.land ui 0x7fffffff = E * 2 ^ 23 + M;
  f_s16 : Z.land (Z.shiftr ui 16) 0x8000 = s * 0x8000
}.

(** The magnitude bits [quantizeHalf] computes from the exponent and
    mantissa bits [em] of its input. *)
Definition magnitude (em : Z) : Z :=
  if em >? 255 * 2 ^ 23 then 0x7e00
  else if em >=? 143 * 2 ^ 23 then 0x7c00
  else if em <? 113 * 2 ^ 23 then 0
  else (em - 112 * 2 ^ 23 + 2 ^ 12) / 2 ^ 13.

(** The value [decode] gives to a pattern with fields [s], [E], [M]. *)
Inductive shape (s E M : Z) : spec_float -> Prop :=
| shape_inf : E = 255 -> M = 0 -> shape s E M (S754_infinity (s =? 1))
| shape_nan : E = 255 -> 0 < M -> shape s E M S754_nan
| shape_zero : E = 0 -> M = 0 -> shape s E M (S754_zero (s =? 1))
| shape_sub p : E = 0 -> Zpos p = M -> shape s E M (S754_finite (s =? 1) p (-149))
| shape_norm p : 0 < E < 255 -> Zpos p = M + 2 ^ 23 ->
    shape s E M (S754_finite (s =? 1) p (E - 150)).

(** A mantissa and exponent as [decode] produces them. *)
Definition canonical (m : positive) (e : Z) : Prop :=
  Zpos m < 2 ^ 24 /\ -149 <= e <= 104 /\ (-149 < e -> 2 ^ 23 <= Zpos m).

(** What [k] right shifts of the mantissa [M] leave: the quotient, and a
    clear round and sticky bit when nothing was lost. *)
Definition shifted (M : Z) (k : Z) (mrs : shr_record) : Prop :=
  shr_m mrs = M / 2 ^ k /\
  (M mod 2 ^ k = 0 -> shr_r mrs = false /\ shr_s mrs = false).

(** A zero of either sign or a positive finite value. *)
Definition nonneg_finite (x : spec_float) : Prop :=
  match x with
  | S754_zero _ | S754_finite false _ _ => True
  | _ => False
  end.

(** [r] is a rounding of [x] that crosses no half-integer: [K/2] is
    written [K * 2^-1]. *)
Definition keeps_halves (x : Q) (r : spec_float) : Prop :=
  nonneg_finite r /\
  (forall K, inject_Z K * 2 ^ (-1) <= x -> inject_Z K * 2 ^ (-1) <= F2Q r)%Q /\
  (forall K, x <= inject_Z K * 2 ^ (-1) -> F2Q r <= inject_Z K * 2 ^ (-1))%Q.

(** The upper clamp [v = (v <= 1) ? v : 1]. *)
Definition clamp_hi (d : spec_float) : spec_float :=
  if le d (of_int 1) then d else of_int 1.

(** A value in units of [2^-149], the spacing of the smallest binary32
    values; zero for infinities and NaN. *)
Definition scaled (x : spec_float) : Z :=
  match x with
  | S754_finite s m e => (if s then Zneg m else Zpos m) * 2 ^ (e + 149)
  | _ => 0
  end.

(** The values [scaled] measures exactly: no exponent below [-149]. *)
Definition in_grid (x : spec_float) : Prop :=
  match x with
  | S754_finite _ _ e => -149 <= e
  | _ => True
  end.

(** [r] is a rounding of [x] that crosses no multiple of [2^g]. *)
Definition keeps_grid (g : Z) (x : Q) (r : spec_float) : Prop :=
  nonneg_finite r /\
  (forall K, inject_Z K * 2 ^ g <= x -> inject_Z K * 2 ^ g <= F2Q r)%Q /\
  (forall K, x <= inject_Z K * 2 ^ g -> F2Q r <= inject_Z K * 2 ^ g)%Q.

(** The values [decode] produces: a finite one has a mantissa and an
    exponent of the format. *)
Definition decoded (d : spec_float) : Prop :=
  match d with
  | S754_finite _ m e => canonical m e
  | _ => True
  end.

(** The clamps of [quantizeUnorm]:
    [v = (v >= 0) ? v : 0; v = (v <= 1) ? v : 1]. *)
Definition clamp01 (d : spec_float) : spec_float :=
  clamp_hi (if ge d (of_int 0) then d else of_int 0).

(** The clamps of [quantizeSnorm] and the rounding constant it picks. *)
Definition clamp11 (d : spec_float) : spec_float :=
  let c := if ge d (of_int (-1)) then d else of_int (-1) in
  if le c (of_int 1) then c else of_int 1.

Definition round_of (d : spec_float) : spec_float :=
  if ge d (of_int 0) then half else neg_half.

(** The conversion both quantizers end with, on a clamped non-negative
    value: [int(c * scale + 0.5f)]. *)
Definition fixed (c scale : spec_float) : option Z := to_int (add (mul c scale) half).

(** The integer nearest to [M / 2^k], the even one at a tie. *)
Definition rne (M k : Z) : Z :=
  let q := M / 2 ^ k in
  match 2 * (M mod 2 ^ k) ?= 2 ^ k with
  | Lt => q
  | Eq => if Z.even q then q else q + 1
  | Gt => q + 1
  end.

(** What [k] right shifts of the mantissa [M] leave: the quotient, the
    round bit (the remainder is at least one half) and the sticky bit (it
    is neither zero nor one half). *)
Definition located (M k : Z) (mrs : shr_record) : Prop :=
  shr_m mrs = M / 2 ^ k /\
  shr_r mrs = (2 ^ k <=? 2 * (M mod 2 ^ k)) /\
  shr_s mrs = negb ((M mod 2 ^ k =? 0) || (2 * (M mod 2 ^ k) =? 2 ^ k)).

Ltac order_cases H :=
  repeat match type of H with
  | context [Z.compare ?x ?y] => destruct (Z.compare_spec x y); try discriminate H; try lia
  end.

(** * Proofs *)

(** ** Bit fields *)

Lemma land_pow2 a n : 0 <= n ->
  Z.land a (2 ^ n) = if Z.testbit a n then 2 ^ n else 0.
Proof.
  intros Hn. apply Z.bits_inj'. intros k Hk.
  rewrite Z.land_spec.
  destruct (Z.eq_dec k n) as [->|Hne].
  - rewrite Z.pow2_bits_true by lia. rewrite andb_true_r.
    destruct (Z.testbit a n) eqn:E; [now rewrite Z.pow2_bits_true by lia | now rewrite Z.bits_0].
  - rewrite Z.pow2_bits_false by lia. rewrite andb_false_r.
    destruct (Z.testbit a n); [now rewrite Z.pow2_bits_false by lia | now rewrite Z.bits_0].
Qed.

Lemma lor_pow2_small n h : 0 <= n -> 0 <= h < 2 ^ n -> Z.lor (2 ^ n) h = 2 ^ n + h.
Proof.
  intros Hn Hh.
  assert (Hl : Z.land (2 ^ n) h = 0).
  { apply Z.bits_inj'. intros k Hk. rewrite Z.land_spec, Z.bits_0.
    destruct (Z.eq_dec k n) as [->|Hne].
    - destruct (Z.eq_dec h 0) as [->|Hh0]; [now rewrite Z.bits_0, andb_false_r|].
      rewrite (Z.bits_above_log2 h n); [apply andb_false_r | lia |].
      apply Z.log2_lt_pow2; lia.
    - now rewrite Z.pow2_bits_false by lia. }
  rewrite <- Z.lxor_lor by exact Hl.
  symmetry. apply Z.add_nocarry_lxor. exact Hl.
Qed.

Lemma fields_of ui : wf ui -> exists s E M, fields ui s E M.
Proof.
  unfold wf. intros H.
  exists (ui / 2 ^ 31), ((ui / 2 ^ 23) mod 256), (ui mod 2 ^ 23).
  assert (Hs : Z.testbit ui 31 = (ui / 2 ^ 31 =? 1)).
  { rewrite Z.testbit_odd, Z.shiftr_div_pow2 by lia.
    assert (ui / 2 ^ 31 = 0 \/ ui / 2 ^ 31 = 1) as [-> | ->] by (Z.to_euclidean_division_equations; lia); reflexivity. }
  split.
  - Z.to_euclidean_division_equations; lia.
  - Z.to_euclidean_division_equations; lia.
  - Z.to_euclidean_division_equations; lia.
  - Z.to_euclidean_division_equations; lia.
  - exact Hs.
  - unfold biased_exp. change 0xff with (Z.ones 8).
    rewrite Z.land_ones, Z.shiftr_div_pow2 by lia. reflexivity.
  - unfold fraction. change 0x7fffff with (Z.ones 23). now rewrite Z.land_ones by lia.
  - change 0x7fffffff with (Z.ones 31). rewrite Z.land_ones by lia.
    Z.to_euclidean_division_equations; lia.
  - change 0x8000 with (2 ^ 15). rewrite land_pow2 by lia.
    rewrite Z.shiftr_spec by lia. change (15 + 16) with 31. rewrite Hs.
    assert (ui / 2 ^ 31 = 0 \/ ui / 2 ^ 31 = 1) as [-> | ->] by (Z.to_euclidean_division_equations; lia); reflexivity.
Qed.

Lemma magnitude_range em : 0 <= em < 2 ^ 31 -> 0 <= magnitude em <= 0x7e00.
Proof.
  intros H. unfold magnitude.
  destruct (em >? 255 * 2 ^ 23) eqn:E1; [lia|].
  destruct (em >=? 143 * 2 ^ 23) eqn:E2; [lia|].
  destruct (em <? 113 * 2 ^ 23) eqn:E3; [lia|].
  Z.to_euclidean_division_equations; lia.
Qed.

Lemma quantizeHalf_fields ui s E M :
  fields ui s E M -> quantizeHalf ui = s * 0x8000 + magnitude (E * 2 ^ 23 + M).
Proof.
  intros F. unfold quantizeHalf.
  rewrite (f_em _ _ _ _ F), (f_s16 _ _ _ _ F).
  set (em := E * 2 ^ 23 + M).
  assert (Hem : 0 <= em < 2 ^ 31) by (destruct F; subst em; lia).
  pose proof (magnitude_range em Hem) as Hm.
  assert (Hh : (if em >? Z.shiftl 255 23 then 0x7e00
                else if em >=? Z.shiftl 143 23 then 0x7c00
                else if em <? Z.shiftl 113 23 then 0
                else Z.shiftr (em - Z.shiftl 112 23 + Z.shiftl 1 12) 13) = magnitude em).
  { unfold magnitude. rewrite Z.shiftr_div_pow2 by lia. reflexivity. }
  rewrite Hh.
  unfold to_ushort.
  destruct (f_s _ _ _ _ F) as [-> | ->].
  - rewrite Z.lor_0_l. rewrite Z.mod_small; lia.
  - change (1 * 0x8000) with (2 ^ 15).
    rewrite lor_pow2_small by lia. rewrite Z.mod_small; lia.
Qed.

Lemma decode_shape ui s E M : fields ui s E M -> shape s E M (decode ui).
Proof.
  intros F. unfold decode.
  rewrite (f_sign _ _ _ _ F), (f_exp _ _ _ _ F), (f_frac _ _ _ _ F).
  pose proof (f_E _ _ _ _ F) as HE. pose proof (f_M _ _ _ _ F) as HM.
  destruct (E =? 255) eqn:E1.
  - destruct (M =? 0) eqn:E2; [apply shape_inf | apply shape_nan]; lia.
  - destruct (E =? 0) eqn:E2.
    + destruct M as [|p|p] eqn:EM; [apply shape_zero | apply shape_sub | ]; lia.
    + destruct (M + 2 ^ 23) as [|p|p] eqn:EM; [lia | apply shape_norm; lia | lia].
Qed.

Lemma is_nan_fields ui s E M :
  fields ui s E M -> is_nan ui = (E =? 255) && negb (M =? 0).
Proof.
  intros F. unfold is_nan. now rewrite (f_exp _ _ _ _ F), (f_frac _ _ _ _ F).
Qed.

Lemma compare_cont_Eq p q : Pos.compare_cont Eq p q = (Zpos p ?= Zpos q).
Proof. reflexivity. Qed.

(** Comparisons of a magnitude with a normal power of two, read on the
    exponent and mantissa fields. *)
Lemma abs_lt_norm ui s E M k :
  fields ui s E M -> 0 < k < 255 ->
  lt (SFabs (decode ui)) (S754_finite false 8388608 (k - 150)) = true ->
  E * 2 ^ 23 + M < k * 2 ^ 23.
Proof.
  intros F Hk. pose proof (f_M _ _ _ _ F) as HM.
  destruct (decode_shape _ _ _ _ F); unfold lt, SFltb;
    cbn [SFabs SFcompare]; try discriminate; intros Hcmp; try lia.
  rewrite compare_cont_Eq in Hcmp. order_cases Hcmp.
Qed.

Lemma abs_ge_norm ui s E M k :
  fields ui s E M -> 0 < k < 255 ->
  is_nan ui = false ->
  le (S754_finite false 8388608 (k - 150)) (SFabs (decode ui)) = true ->
  k * 2 ^ 23 <= E * 2 ^ 23 + M.
Proof.
  intros F Hk. pose proof (f_M _ _ _ _ F) as HM. rewrite (is_nan_fields _ _ _ _ F).
  destruct (decode_shape _ _ _ _ F); unfold le, SFleb;
    cbn [SFabs SFcompare]; try discriminate; intros Hn Hcmp; try lia.
  - rewrite compare_cont_Eq in Hcmp. order_cases Hcmp.
  - rewrite compare_cont_Eq in Hcmp. order_cases Hcmp.
Qed.

(** On patterns with a clear sign bit the order of the values is the order
    of the patterns. *)
Lemma le_nonneg_bits a Ea Ma b Eb Mb :
  fields a 0 Ea Ma -> fields b 0 Eb Mb ->
  is_nan a = false -> is_nan b = false ->
  le (decode a) (decode b) = true ->
  Ea * 2 ^ 23 + Ma <= Eb * 2 ^ 23 + Mb.
Proof.
  intros Fa Fb. pose proof (f_M _ _ _ _ Fa) as HMa. pose proof (f_M _ _ _ _ Fb) as HMb.
  rewrite (is_nan_fields _ _ _ _ Fa), (is_nan_fields _ _ _ _ Fb).
  destruct (decode_shape _ _ _ _ Fa); destruct (decode_shape _ _ _ _ Fb);
    unfold le, SFleb; cbn [SFcompare Z.eqb]; intros Hna Hnb Hcmp;
    try discriminate; try lia;
    rewrite compare_cont_Eq in Hcmp; order_cases Hcmp.
Qed.

Lemma magnitude_mono x y :
  0 <= x <= y -> y <= 255 * 2 ^ 23 -> magnitude x <= magnitude y.
Proof.
  intros H Hy. unfold magnitude.
  destruct (x >? 255 * 2 ^ 23) eqn:X1; [lia|].
  destruct (y >? 255 * 2 ^ 23) eqn:Y1; [lia|].
  destruct (x >=? 143 * 2 ^ 23) eqn:X2; destruct (y >=? 143 * 2 ^ 23) eqn:Y2; try lia.
  - destruct (x <? 113 * 2 ^ 23) eqn:X3; [lia|]. Z.to_euclidean_division_equations; lia.
  - destruct (x <? 113 * 2 ^ 23) eqn:X3; destruct (y <? 113 * 2 ^ 23) eqn:Y3; try lia;
      Z.to_euclidean_division_equations; lia.
Qed.

Lemma literal_patterns :
  [lit_zero; lit_one; lit_minus_two; lit_65504; lit_1em10; lit_1e20; lit_nan]
  = [0x00000000; 0x3f800000; 0xc0000000; 0x477fe000; 0x2edbe6ff; 0x60ad78ec; 0x7fc00000].
Proof. vm_compute. reflexivity. Qed.

(** C1: [quantizeHalf] returns the specification's test vectors. *)
Theorem quantizeHalf_test_vectors :
  quantizeHalf lit_zero = 0x0000 /\
  quantizeHalf lit_one = 0x3C00 /\
  quantizeHalf lit_minus_two = 0xC000 /\
  quantizeHalf lit_65504 = 0x7BFF /\
  quantizeHalf lit_1em10 = 0x0000 /\
  quantizeHalf lit_1e20 = 0x7C00 /\
  quantizeHalf lit_nan = 0x7E00.
Proof. vm_compute. repeat split; reflexivity. Qed.

Lemma nan_magnitude ui s E M :
  fields ui s E M -> is_nan ui = true -> magnitude (E * 2 ^ 23 + M) = 0x7e00.
Proof.
  intros F. rewrite (is_nan_fields _ _ _ _ F). pose proof (f_M _ _ _ _ F).
  intros Hn. apply andb_true_iff in Hn as [HE HM].
  apply Z.eqb_eq in HE. apply negb_true_iff, Z.eqb_neq in HM.
  unfold magnitude. destruct (E * 2 ^ 23 + M >? 255 * 2 ^ 23) eqn:C; [reflexivity | lia].
Qed.

(** A NaN with its sign bit set is not mapped to [0x7E00]. *)
Lemma quantizeHalf_negative_nan :
  ~ (forall v, wf v -> is_nan v = true -> quantizeHalf v = 0x7E00).
Proof.
  intros H. specialize (H 0xffc00000).
  assert (Hq : quantizeHalf 0xffc00000 = 0xFE00) by (vm_compute; reflexivity).
  rewrite Hq in H. discriminate H; [unfold wf; lia | reflexivity].
Qed.

(** C2 (as amended): for every NaN input, whatever its payload,
    [quantizeHalf] returns the quiet NaN [0x7E00] with the sign bit of the
    input kept: [0x7E00] for a clear sign bit, [0xFE00] for a set one. *)
Theorem quantizeHalf_nan v :
  wf v -> is_nan v = true -> quantizeHalf v = Z.lor (half_sign v) 0x7E00.
Proof.
  intros Hwf Hn. destruct (fields_of v Hwf) as (s & E & M & F).
  rewrite (quantizeHalf_fields _ _ _ _ F), (nan_magnitude _ _ _ _ F Hn).
  unfold half_sign. rewrite (f_sign _ _ _ _ F).
  destruct (f_s _ _ _ _ F) as [-> | ->]; reflexivity.
Qed.

Lemma quantizeHalf_nan_witness :
  wf 0xff800001 /\ is_nan 0xff800001 = true /\ quantizeHalf 0xff800001 = 0xFE00.
Proof.
  split; [unfold wf; lia | split; [reflexivity |]].
  apply (quantizeHalf_nan 0xff800001); [unfold wf; lia | reflexivity].
Defined.

(** C5: [quantizeHalf] keeps the sign bit of a non-NaN input; an input of
    magnitude below [2^-14] gives the sign bit alone, and a non-NaN input
    of magnitude at least [2^16] gives the signed infinity. *)
Theorem quantizeHalf_sign_and_thresholds v :
  wf v ->
  (is_nan v = false -> Z.testbit (quantizeHalf v) 15 = sign_bit v) /\
  (lt (SFabs (decode v)) (pow2 (-14)) = true -> quantizeHalf v = half_sign v) /\
  (is_nan v = false -> le (pow2 16) (SFabs (decode v)) = true ->
   quantizeHalf v = Z.lor (half_sign v) 0x7C00).
Proof.
  intros Hwf. destruct (fields_of v Hwf) as (s & E & M & F).
  rewrite (quantizeHalf_fields _ _ _ _ F). unfold half_sign.
  rewrite (f_sign _ _ _ _ F).
  pose proof (f_E _ _ _ _ F) as HE. pose proof (f_M _ _ _ _ F) as HM.
  assert (Hem : 0 <= E * 2 ^ 23 + M < 2 ^ 31) by lia.
  pose proof (magnitude_range _ Hem) as Hr.
  split; [|split].
  - intros _. rewrite Z.testbit_odd, Z.shiftr_div_pow2 by lia.
    replace ((s * 0x8000 + magnitude (E * 2 ^ 23 + M)) / 2 ^ 15) with s
      by (Z.to_euclidean_division_equations; lia).
    destruct (f_s _ _ _ _ F) as [-> | ->]; reflexivity.
  - intros Hlt. change (pow2 (-14)) with (S754_finite false 8388608 (113 - 150)) in Hlt.
    apply (abs_lt_norm _ _ _ _ _ F) in Hlt; [|lia].
    unfold magnitude.
    destruct (E * 2 ^ 23 + M >? 255 * 2 ^ 23) eqn:C1; [lia|].
    destruct (E * 2 ^ 23 + M >=? 143 * 2 ^ 23) eqn:C2; [lia|].
    destruct (E * 2 ^ 23 + M <? 113 * 2 ^ 23) eqn:C3; [|lia].
    destruct (f_s _ _ _ _ F) as [-> | ->]; reflexivity.
  - intros Hn Hge. change (pow2 16) with (S754_finite false 8388608 (143 - 150)) in Hge.
    apply (abs_ge_norm _ _ _ _ _ F) in Hge; [|lia|exact Hn].
    rewrite (is_nan_fields _ _ _ _ F) in Hn.
    assert (HnE : E * 2 ^ 23 + M <= 255 * 2 ^ 23).
    { destruct (E =? 255) eqn:E1; [|lia].
      destruct (M =? 0) eqn:E2; [lia | discriminate Hn]. }
    unfold magnitude.
    destruct (E * 2 ^ 23 + M >? 255 * 2 ^ 23) eqn:C1; [lia|].
    destruct (E * 2 ^ 23 + M >=? 143 * 2 ^ 23) eqn:C2; [|lia].
    destruct (f_s _ _ _ _ F) as [-> | ->]; reflexivity.
Qed.

Lemma quantizeHalf_sign_and_thresholds_witness :
  Z.testbit (quantizeHalf 0xbf800000) 15 = true /\
  quantizeHalf 0x80000001 = 0x8000 /\
  quantizeHalf 0xc7800000 = 0xFC00.
Proof.
  split; [|split].
  - apply (quantizeHalf_sign_and_thresholds 0xbf800000); [unfold wf; lia | reflexivity].
  - apply (quantizeHalf_sign_and_thresholds 0x80000001); [unfold wf; lia | reflexivity].
  - apply (quantizeHalf_sign_and_thresholds 0xc7800000); [unfold wf; lia | reflexivity | reflexivity].
Defined.

(** The negative zero satisfies [0 <= a] and is mapped to [0x8000]. *)
Lemma quantizeHalf_negative_zero_not_monotone :
  ~ (forall a b, wf a -> wf b -> is_nan a = false -> is_nan b = false ->
       le (of_int 0) (decode a) = true -> le (decode a) (decode b) = true ->
       quantizeHalf a <= quantizeHalf b).
Proof.
  intros H. specialize (H neg_zero lit_one).
  assert (Hq : quantizeHalf neg_zero = 0x8000) by (vm_compute; reflexivity).
  assert (Hr : quantizeHalf lit_one = 0x3C00) by (vm_compute; reflexivity).
  rewrite Hq, Hr in H.
  assert (0x8000 <= 0x3C00) as Habs; [|lia].
  apply H; try reflexivity; unfold wf; vm_compute; split; easy.
Qed.

Lemma nonneg_sign_clear a s E M :
  fields a s E M -> a <> neg_zero ->
  le (of_int 0) (decode a) = true -> s = 0.
Proof.
  intros F Hnz. pose proof (f_ui _ _ _ _ F) as Hui. unfold neg_zero in Hnz.
  destruct (f_s _ _ _ _ F) as [-> | ->]; [reflexivity|].
  change (of_int 0) with (S754_zero false).
  destruct (decode_shape _ _ _ _ F); unfold le, SFleb; cbn [SFcompare Z.eqb];
    intros Hcmp; try discriminate; lia.
Qed.

(** C9 (as amended): on non-NaN inputs [a], [b] with [0 <= a <= b], [a] not
    the negative zero, [quantizeHalf a <= quantizeHalf b] as unsigned
    16-bit values. *)
Theorem quantizeHalf_monotone a b :
  wf a -> wf b -> is_nan a = false -> is_nan b = false ->
  a <> neg_zero ->
  le (of_int 0) (decode a) = true -> le (decode a) (decode b) = true ->
  quantizeHalf a <= quantizeHalf b.
Proof.
  intros Ha Hb Hna Hnb Hnz H0 Hab.
  destruct (fields_of a Ha) as (sa & Ea & Ma & Fa).
  destruct (fields_of b Hb) as (sb & Eb & Mb & Fb).
  pose proof (nonneg_sign_clear _ _ _ _ Fa Hnz H0) as ->.
  rewrite (quantizeHalf_fields _ _ _ _ Fa), (quantizeHalf_fields _ _ _ _ Fb).
  pose proof (f_E _ _ _ _ Fa) as HEa. pose proof (f_M _ _ _ _ Fa) as HMa.
  pose proof (f_E _ _ _ _ Fb) as HEb. pose proof (f_M _ _ _ _ Fb) as HMb.
  assert (Hrb : 0 <= magnitude (Eb * 2 ^ 23 + Mb) <= 0x7e00) by (apply magnitude_range; lia).
  destruct (f_s _ _ _ _ Fb) as [-> | ->].
  - pose proof (le_nonneg_bits _ _ _ _ _ _ Fa Fb Hna Hnb Hab) as Hle.
    assert (Hnb' : Eb * 2 ^ 23 + Mb <= 255 * 2 ^ 23).
    { rewrite (is_nan_fields _ _ _ _ Fb) in Hnb.
      destruct (Eb =? 255) eqn:E1; [|lia].
      destruct (Mb =? 0) eqn:E2; [lia | discriminate Hnb]. }
    pose proof (magnitude_mono (Ea * 2 ^ 23 + Ma) (Eb * 2 ^ 23 + Mb)). lia.
  - (* b carries a sign bit: a is +0 and b is -0 *)
    assert (Hz : Ea * 2 ^ 23 + Ma = 0).
    { revert Hab. rewrite (is_nan_fields _ _ _ _ Fa) in Hna.
      destruct (decode_shape _ _ _ _ Fa); destruct (decode_shape _ _ _ _ Fb);
        unfold le, SFleb; cbn [SFcompare Z.eqb]; intros Hcmp;
        try discriminate; try lia. }
    rewrite Hz. change (magnitude 0) with 0. lia.
Qed.

Lemma quantizeHalf_monotone_witness :
  quantizeHalf lit_one <= quantizeHalf lit_65504.
Proof.
  apply (quantizeHalf_monotone lit_one lit_65504);
    try reflexivity; try (unfold wf; vm_compute; split; easy).
  vm_compute. easy.
Defined.

Lemma fexp32 e : fexp prec emax e = Z.max (e - 24) (-149).
Proof. reflexivity. Qed.

Lemma digits2_pos_bounds m :
  2 ^ (Zpos (digits2_pos m) - 1) <= Zpos m < 2 ^ Zpos (digits2_pos m).
Proof.
  induction m as [m IH | m IH |]; cbn [digits2_pos].
  - rewrite Pos2Z.inj_succ. replace (Z.succ (Zpos (digits2_pos m)) - 1) with (Zpos (digits2_pos m)) by lia.
    rewrite Z.pow_succ_r by lia.
    replace (Zpos (digits2_pos m)) with (Z.succ (Zpos (digits2_pos m) - 1)) at 1 by lia.
    rewrite Z.pow_succ_r by lia. lia.
  - rewrite Pos2Z.inj_succ. replace (Z.succ (Zpos (digits2_pos m)) - 1) with (Zpos (digits2_pos m)) by lia.
    rewrite Z.pow_succ_r by lia.
    replace (Zpos (digits2_pos m)) with (Z.succ (Zpos (digits2_pos m) - 1)) at 1 by lia.
    rewrite Z.pow_succ_r by lia. lia.
  - cbn. lia.
Qed.

(** [digits2_pos] is the only [d] with [2^(d-1) <= m < 2^d]. *)
Lemma digits2_pos_unique m d :
  2 ^ (d - 1) <= Zpos m < 2 ^ d -> Zpos (digits2_pos m) = d.
Proof.
  intros H. pose proof (digits2_pos_bounds m) as B.
  set (d' := Zpos (digits2_pos m)) in *.
  assert (0 < d') by (subst d'; lia).
  assert (0 < d).
  { destruct (Z_lt_le_dec 0 d); [assumption|]. 
    assert (2 ^ d <= 2 ^ 0) by (destruct (Z.eq_dec d 0) as [->|]; [lia | rewrite Z.pow_neg_r by lia; cbn; lia]).
    cbn in *. lia. }
  destruct (Z.lt_trichotomy d' d) as [Hlt | [Heq | Hgt]]; [|assumption|].
  - assert (2 ^ d' <= 2 ^ (d - 1)) by (apply Z.pow_le_mono_r; lia). lia.
  - assert (2 ^ d <= 2 ^ (d' - 1)) by (apply Z.pow_le_mono_r; lia). lia.
Qed.

Lemma digits_le m d : 0 <= d -> Zpos m < 2 ^ d -> Zpos (digits2_pos m) <= d.
Proof.
  intros Hd H. pose proof (digits2_pos_bounds m) as B.
  destruct (Z_le_gt_dec (Zpos (digits2_pos m)) d); [assumption|].
  assert (2 ^ d <= 2 ^ (Zpos (digits2_pos m) - 1)) by (apply Z.pow_le_mono_r; lia). lia.
Qed.

(** [decode] yields values of the binary32 format. *)
Lemma decode_valid v : wf v -> valid_binary prec emax (decode v) = true.
Proof.
  intros Hwf. destruct (fields_of v Hwf) as (s & E & M & F).
  pose proof (f_M _ _ _ _ F) as HM. pose proof (f_E _ _ _ _ F) as HE.
  destruct (decode_shape _ _ _ _ F) as [? ?|? ?|? ?|p He Hp|p He Hp]; try reflexivity;
    cbn [valid_binary]; unfold bounded, canonical_mantissa; rewrite fexp32.
  - assert (Hd : Zpos (digits2_pos p) <= 23) by (apply digits_le; lia).
    apply andb_true_iff. split; [apply Z.eqb_eq; lia | reflexivity].
  - assert (Hd : Zpos (digits2_pos p) = 24) by (apply digits2_pos_unique; lia).
    rewrite Hd. apply andb_true_iff. split; [apply Z.eqb_eq; lia|].
    apply Z.leb_le. change (emax - prec) with 104. lia.
Qed.

(** Iterating with an invariant indexed by the number of steps. *)
Lemma iter_pos_invariant {A : Type} (f : A -> A) (Inv : Z -> A -> Prop) :
  (forall k x, 0 <= k -> Inv k x -> Inv (k + 1) (f x)) ->
  forall p k x, 0 <= k -> Inv k x -> Inv (k + Zpos p) (iter_pos f p x).
Proof.
  intros Hstep. induction p as [p IH | p IH |]; intros k x Hk Hx; cbn [iter_pos].
  - replace (k + Zpos p~1) with (k + 1 + Zpos p + Zpos p) by lia.
    apply IH; [lia|]. apply IH; [lia|]. now apply Hstep.
  - replace (k + Zpos p~0) with (k + Zpos p + Zpos p) by lia.
    apply IH; [lia|]. now apply IH.
  - now apply Hstep.
Qed.

Lemma shr_1_shifted M k mrs :
  0 <= M -> 0 <= k -> shifted M k mrs -> shifted M (k + 1) (shr_1 mrs).
Proof.
  intros HM Hk [Hm Hrs]. destruct mrs as [m r s]. cbn [shr_m shr_r shr_s] in *.
  assert (Hp : 0 < 2 ^ k) by (apply Z.pow_pos_nonneg; lia).
  assert (Hpk : 2 ^ (k + 1) = 2 * 2 ^ k) by (rewrite Z.pow_add_r by lia; lia).
  assert (Hdiv : M / 2 ^ (k + 1) = m / 2).
  { rewrite Hpk, Hm, Z.mul_comm. rewrite <- Z.div_div by lia. reflexivity. }
  assert (Hmod : M mod 2 ^ (k + 1) = 0 -> M mod 2 ^ k = 0 /\ m mod 2 = 0).
  { rewrite Hpk, Hm. intros H0.
    rewrite Z.mul_comm, Z.rem_mul_r in H0 by lia.
    pose proof (Z.mod_pos_bound M (2 ^ k) Hp). pose proof (Z.mod_pos_bound (M / 2 ^ k) 2). nia. }
  assert (Hm0 : 0 <= m) by (rewrite Hm; apply Z.div_pos; lia).
  unfold shifted. rewrite Hdiv.
  destruct m as [|[p|p|]|p]; cbn [shr_1 shr_m shr_r shr_s]; try lia.
  - split; [reflexivity|]. intros H0. destruct (Hmod H0) as [H1 _].
    destruct (Hrs H1) as [-> ->]. split; reflexivity.
  - split; [rewrite Pos2Z.inj_xI; Z.to_euclidean_division_equations; lia|].
    intros H0. destruct (Hmod H0) as [_ H2]. rewrite Pos2Z.inj_xI in H2.
    Z.to_euclidean_division_equations; lia.
  - split; [rewrite Pos2Z.inj_xO; Z.to_euclidean_division_equations; lia|].
    intros H0. destruct (Hmod H0) as [H1 _].
    destruct (Hrs H1) as [-> ->]. split; reflexivity.
  - split; [reflexivity|]. intros H0. destruct (Hmod H0) as [_ H2]. discriminate H2.
Qed.

Lemma shr_shifted M e n :
  0 <= M -> 0 < n ->
  exists mrs, shr (Build_shr_record M false false) e n = (mrs, e + n) /\ shifted M n mrs.
Proof.
  intros HM Hn. destruct n as [|p|p]; try lia.
  cbn [shr]. eexists. split; [reflexivity|].
  change (Zpos p) with (0 + Zpos p).
  apply (iter_pos_invariant shr_1 (shifted M)).
  - intros k x Hk Hx. now apply shr_1_shifted.
  - lia.
  - split; cbn [shr_m shr_r shr_s]; [now rewrite Z.div_1_r | intros _; split; reflexivity].
Qed.

Lemma round_nearest_even_shifted M k mrs :
  shifted M k mrs ->
  let q := M / 2 ^ k in
  let m1 := round_nearest_even (shr_m mrs) (loc_of_shr_record mrs) in
  q <= m1 <= q + 1 /\ (M mod 2 ^ k = 0 -> m1 = q).
Proof.
  intros [Hm Hrs]. destruct mrs as [m r s]. cbn [shr_m shr_r shr_s] in *. subst m.
  cbn zeta. split.
  - destruct r, s; cbn [loc_of_shr_record round_nearest_even]; try lia.
    destruct (Z.even (M / 2 ^ k)); lia.
  - intros H0. destruct (Hrs H0) as [-> ->]. reflexivity.
Qed.

Lemma shr_nop mrs e n : n <= 0 -> shr mrs e n = (mrs, e).
Proof. destruct n; [reflexivity | lia | reflexivity]. Qed.

Lemma shr_fexp_nop m e :
  0 <= m -> fexp prec emax (Zdigits2 m + e) <= e ->
  shr_fexp prec emax m e loc_Exact = (Build_shr_record m false false, e).
Proof.
  intros Hm H. unfold shr_fexp. cbn [shr_record_of_loc]. apply shr_nop. lia.
Qed.

(** A mantissa that already fits is kept as it is. *)
Lemma binary_round_aux_exact s m e :
  fexp prec emax (Zpos (digits2_pos m) + e) <= e -> e <= 104 ->
  binary_round_aux prec emax s (Zpos m) e loc_Exact = S754_finite s m e.
Proof.
  intros H He. unfold binary_round_aux.
  rewrite shr_fexp_nop by (cbn [Zdigits2]; lia).
  cbn [shr_m shr_r shr_s loc_of_shr_record round_nearest_even].
  rewrite shr_fexp_nop by (cbn [Zdigits2]; lia).
  cbn [shr_m]. change (emax - prec) with 104.
  destruct (Z.leb_spec e 104); [reflexivity | lia].
Qed.

(** A mantissa that is too long is shifted to the exponent [fexp] gives
    and rounded there: the result is the quotient or the quotient plus
    one, and the quotient when nothing was lost. *)
Lemma binary_round_aux_round s m e :
  let e1 := fexp prec emax (Zpos (digits2_pos m) + e) in
  let q := Zpos m / 2 ^ (e1 - e) in
  e < e1 -> e1 <= 103 ->
  exists m1,
    q <= m1 <= q + 1 /\ (Zpos m mod 2 ^ (e1 - e) = 0 -> m1 = q) /\ m1 <= 2 ^ 24 /\
    binary_round_aux prec emax s (Zpos m) e loc_Exact =
      match m1 with
      | Zpos p => if Zpos p <? 2 ^ 24 then S754_finite s p e1
                  else S754_finite s (2 ^ 23)%positive (e1 + 1)
      | _ => S754_zero s
      end.
Proof.
  intros e1 q Hlt Hmax.
  pose proof (digits2_pos_bounds m) as Hd.
  set (d := Zpos (digits2_pos m)) in *.
  assert (He1 : e1 = Z.max (d + e - 24) (-149)) by reflexivity.
  destruct (shr_shifted (Zpos m) e (e1 - e)) as (mrs & Hshr & Hsh); [lia | lia |].
  destruct (round_nearest_even_shifted _ _ _ Hsh) as [Hm1 Hex].
  set (m1 := round_nearest_even (shr_m mrs) (loc_of_shr_record mrs)) in *.
  fold q in Hm1, Hex.
  assert (Hq : 0 <= q < 2 ^ 24).
  { subst q. split; [apply Z.div_pos; [lia | apply Z.pow_pos_nonneg; lia]|].
    apply Z.div_lt_upper_bound; [apply Z.pow_pos_nonneg; lia|].
    rewrite <- Z.pow_add_r by lia.
    assert (2 ^ d <= 2 ^ (e1 - e + 24)) by (apply Z.pow_le_mono_r; lia). lia. }
  assert (Hsub : e1 = -149 -> d + e - 24 < -149 -> q < 2 ^ 23).
  { intros E1 E2. subst q. apply Z.div_lt_upper_bound; [apply Z.pow_pos_nonneg; lia|].
    rewrite <- Z.pow_add_r by lia.
    assert (2 ^ d <= 2 ^ (e1 - e + 23)) by (apply Z.pow_le_mono_r; lia). lia. }
  exists m1. split; [exact Hm1|]. split; [exact Hex|]. split; [lia|].
  unfold binary_round_aux.
  replace (shr_fexp prec emax (Zpos m) e loc_Exact) with (mrs, e1).
  2:{ unfold shr_fexp. cbn [shr_record_of_loc Zdigits2]. fold d. fold e1.
      rewrite Hshr. f_equal. lia. }
  fold m1.
  destruct m1 as [|p|p] eqn:Em1; [| |lia].
  - rewrite shr_fexp_nop; [reflexivity | lia | cbn [Zdigits2]; rewrite fexp32; lia].
  - destruct (Z.ltb_spec (Zpos p) (2 ^ 24)) as [Hp | Hp].
    + assert (Hdp : Zpos (digits2_pos p) <= 24) by (apply digits_le; lia).
      assert (Hdp' : e1 = -149 -> d + e - 24 < -149 -> Zpos (digits2_pos p) <= 24) by lia.
      rewrite shr_fexp_nop; [| lia | cbn [Zdigits2]; rewrite fexp32; lia].
      cbn [shr_m]. change (emax - prec) with 104.
      destruct (Z.leb_spec e1 104); [reflexivity | lia].
    + assert (Hp24 : Zpos p = 2 ^ 24) by lia.
      assert (Hnorm : e1 = d + e - 24) by lia.
      assert (Hdp : Zpos (digits2_pos p) = 25).
      { apply digits2_pos_unique. rewrite Hp24. cbn. lia. }
      unfold shr_fexp. cbn [Zdigits2 shr_record_of_loc]. rewrite Hdp, fexp32.
      replace (Z.max (25 + e1 - 24) (-149) - e1) with 1 by lia.
      injection Hp24 as ->. cbn [shr iter_pos shr_1 shr_m].
      change (emax - prec) with 104.
      destruct (Z.leb_spec (e1 + 1) 104); [reflexivity | lia].
Qed.

Local Open Scope Q_scope.

Lemma pow2Q_pos e : 0 < 2 ^ e.
Proof. apply Qpower_0_lt. reflexivity. Qed.

Lemma pow2Q_add a b : 2 ^ (a + b) == 2 ^ a * 2 ^ b.
Proof. apply Qpower_plus. discriminate. Qed.

Lemma pow2Q_Z a : (0 <= a)%Z -> 2 ^ a == inject_Z (2 ^ a).
Proof. intros H. now rewrite Zpower_Qpower. Qed.

(** A dyadic [X * 2^a] rewritten at a lower exponent [c]. *)
Lemma dyadic_lower X a c :
  (c <= a)%Z -> inject_Z X * 2 ^ a == inject_Z (X * 2 ^ (a - c)) * 2 ^ c.
Proof.
  intros H. replace a with ((a - c) + c)%Z at 1 by lia.
  rewrite pow2Q_add, pow2Q_Z by lia. rewrite inject_Z_mult. ring.
Qed.

Lemma dyadic_le X a Y b c :
  (c <= a)%Z -> (c <= b)%Z ->
  inject_Z X * 2 ^ a <= inject_Z Y * 2 ^ b <-> (X * 2 ^ (a - c) <= Y * 2 ^ (b - c))%Z.
Proof.
  intros Ha Hb. rewrite (dyadic_lower X a c Ha), (dyadic_lower Y b c Hb).
  rewrite Zle_Qle. split; intros H.
  - apply Qmult_le_r in H; [exact H | apply pow2Q_pos].
  - apply Qmult_le_r; [apply pow2Q_pos | exact H].
Qed.

Lemma dyadic_lt X a Y b c :
  (c <= a)%Z -> (c <= b)%Z ->
  inject_Z X * 2 ^ a < inject_Z Y * 2 ^ b <-> (X * 2 ^ (a - c) < Y * 2 ^ (b - c))%Z.
Proof.
  intros Ha Hb. rewrite (dyadic_lower X a c Ha), (dyadic_lower Y b c Hb).
  rewrite Zlt_Qlt. split; intros H.
  - apply Qmult_lt_r in H; [exact H | apply pow2Q_pos].
  - apply Qmult_lt_r; [apply pow2Q_pos | exact H].
Qed.

(** Rounding to nearest never crosses a number of the form [K * 2^g] that
    the target exponent can represent. *)
Lemma round_between m e g :
  (fexp prec emax (Zpos (digits2_pos m) + e) <= g)%Z -> (g <= 103)%Z -> (e <= 104)%Z ->
  let r := binary_round_aux prec emax false (Zpos m) e loc_Exact in
  let x := inject_Z (Zpos m) * 2 ^ e in
  nonneg_finite r /\
  (forall K, inject_Z K * 2 ^ g <= x -> inject_Z K * 2 ^ g <= F2Q r) /\
  (forall K, x <= inject_Z K * 2 ^ g -> F2Q r <= inject_Z K * 2 ^ g).
Proof.
  intros Hg Hg' He r x.
  destruct (Z_le_gt_dec (fexp prec emax (Zpos (digits2_pos m) + e)) e) as [Hle | Hgt].
  - subst r. rewrite binary_round_aux_exact by assumption.
    cbn [nonneg_finite F2Q]. fold x. repeat split; intros; assumption.
  - destruct (binary_round_aux_round false m e) as (m1 & Hm1 & Hex & Hm24 & Hr); [lia | lia |].
    set (e1 := fexp prec emax (Zpos (digits2_pos m) + e)) in *.
    fold r in Hr. fold e1 in Hex.
    assert (Hpn : (0 < 2 ^ (e1 - e))%Z) by (apply Z.pow_pos_nonneg; lia).
    assert (Hq0 : (0 <= Zpos m / 2 ^ (e1 - e))%Z) by (apply Z.div_pos; lia).
    assert (Hv : F2Q r == inject_Z m1 * 2 ^ e1 /\ nonneg_finite r).
    { rewrite Hr. destruct m1 as [|p|p]; [cbn; split; [ring | exact I] | | lia].
      destruct (Z.ltb_spec (Zpos p) (2 ^ 24)); cbn [F2Q nonneg_finite]; split; try exact I; try reflexivity.
      assert (Hp : Zpos p = (2 ^ 24)%Z) by lia. rewrite Hp.
      rewrite pow2Q_add. change (inject_Z (2 ^ 24)) with (inject_Z (Zpos (2 ^ 23)) * 2 ^ 1). ring. }
    destruct Hv as [Hv Hnf]. split; [exact Hnf|]. split; intros K HK; rewrite Hv.
    + subst x. apply (dyadic_le K g (Zpos m) e e) in HK; [|lia|lia].
      apply (dyadic_le K g m1 e1 e1); [lia|lia|].
      rewrite Z.sub_diag, Z.mul_1_r in *.
      replace (g - e)%Z with ((g - e1) + (e1 - e))%Z in HK by lia.
      rewrite Z.pow_add_r, Z.mul_assoc in HK by lia.
      assert (K * 2 ^ (g - e1) <= Zpos m / 2 ^ (e1 - e))%Z by (apply Z.div_le_lower_bound; lia).
      lia.
    + subst x. apply (dyadic_le (Zpos m) e K g e) in HK; [|lia|lia].
      apply (dyadic_le m1 e1 K g e1); [lia|lia|].
      rewrite Z.sub_diag, Z.mul_1_r in *.
      replace (g - e)%Z with ((g - e1) + (e1 - e))%Z in HK by lia.
      rewrite Z.pow_add_r, Z.mul_assoc in HK by lia.
      set (G := (K * 2 ^ (g - e1))%Z) in *.
      set (P := (2 ^ (e1 - e))%Z) in *.
      assert (Zpos m / P <= G)%Z.
      { apply Z.div_le_upper_bound; lia. }
      destruct (Z.eq_dec (Zpos m / P) G) as [Heq | Hne]; [|lia].
      (* the quotient sits on the bound: nothing was lost *)
      assert (Hmod : (Zpos m mod P = 0)%Z).
      { pose proof (Z.div_mod (Zpos m) P). pose proof (Z.mod_pos_bound (Zpos m) P). nia. }
      specialize (Hex Hmod). lia.
Qed.

Lemma digits_of_bound m e j :
  inject_Z (Zpos m) * 2 ^ e < 2 ^ j -> (Zpos (digits2_pos m) + e <= j)%Z.
Proof.
  intros H. pose proof (digits2_pos_bounds m) as [Hlo _].
  set (d := Zpos (digits2_pos m)) in *.
  destruct (Z_le_gt_dec (d + e) j) as [|Hgt]; [assumption | exfalso].
  assert (H1 : 2 ^ (d - 1 + e) <= inject_Z (Zpos m) * 2 ^ e).
  { rewrite pow2Q_add. apply Qmult_le_r; [apply pow2Q_pos|].
    rewrite pow2Q_Z by (subst d; lia). now rewrite <- Zle_Qle. }
  assert (H2 : 2 ^ j <= 2 ^ (d - 1 + e)) by (apply Qpower_le_compat_l; [lia | discriminate]).
  apply (Qlt_irrefl (2 ^ j)).
  eapply Qle_lt_trans; [exact H2|]. eapply Qle_lt_trans; [exact H1 | exact H].
Qed.

Lemma pos_iter_xO m d : Zpos (Pos.iter xO m d) = (Zpos m * 2 ^ Zpos d)%Z.
Proof.
  induction d as [|d IH] using Pos.peano_ind.
  - cbn [Pos.iter]. lia.
  - rewrite Pos.iter_succ, Pos2Z.inj_xO, IH, Pos2Z.inj_succ, Z.pow_succ_r by lia. lia.
Qed.

Lemma shl_align_spec m e e' :
  (e' <= e)%Z -> shl_align m e e' = (Z.to_pos (Zpos m * 2 ^ (e - e')), e').
Proof.
  intros H. unfold shl_align.
  destruct (e' - e)%Z as [|p|p] eqn:E; try lia.
  - assert (e' = e) by lia. subst e'. rewrite Z.sub_diag, Z.mul_1_r. reflexivity.
  - replace (e - e')%Z with (Zpos p) by lia.
    rewrite <- pos_iter_xO. reflexivity.
Qed.

Lemma shl_align_keep m e e' : (e <= e')%Z -> shl_align m e e' = (m, e).
Proof.
  intros H. unfold shl_align. destruct (e' - e)%Z as [|p|p] eqn:E; try lia; reflexivity.
Qed.

Lemma digits_shift m k :
  (0 <= k)%Z -> Zpos (digits2_pos (Z.to_pos (Zpos m * 2 ^ k))) = (Zpos (digits2_pos m) + k)%Z.
Proof.
  intros Hk. pose proof (digits2_pos_bounds m) as B.
  assert (Hp : (0 < 2 ^ k)%Z) by (apply Z.pow_pos_nonneg; lia).
  apply digits2_pos_unique. rewrite Z2Pos.id by lia.
  replace (Zpos (digits2_pos m) + k - 1)%Z with ((Zpos (digits2_pos m) - 1) + k)%Z by lia.
  rewrite !Z.pow_add_r by lia. nia.
Qed.

(** The sandwich of [round_between], for [binary_round]. *)
Lemma binary_round_between m e g :
  (fexp prec emax (Zpos (digits2_pos m) + e) <= g)%Z -> (g <= 103)%Z -> (e <= 104)%Z ->
  let r := binary_round prec emax false m e in
  let x := inject_Z (Zpos m) * 2 ^ e in
  nonneg_finite r /\
  (forall K, inject_Z K * 2 ^ g <= x -> inject_Z K * 2 ^ g <= F2Q r) /\
  (forall K, x <= inject_Z K * 2 ^ g -> F2Q r <= inject_Z K * 2 ^ g).
Proof.
  intros Hg Hg' He r x. subst r. unfold binary_round.
  set (e1 := fexp prec emax (Zpos (digits2_pos m) + e)) in *.
  destruct (Z_le_gt_dec e e1) as [Hle | Hgt].
  - rewrite shl_align_keep by assumption. now apply round_between.
  - rewrite shl_align_spec by lia.
    assert (Hp : (0 < 2 ^ (e - e1))%Z) by (apply Z.pow_pos_nonneg; lia).
    set (p := Z.to_pos (Zpos m * 2 ^ (e - e1))).
    assert (Hpz : Zpos p = (Zpos m * 2 ^ (e - e1))%Z) by (subst p; apply Z2Pos.id; lia).
    rewrite binary_round_aux_exact.
    + cbn [nonneg_finite F2Q]. rewrite Hpz.
      assert (Hx : inject_Z (Zpos m * 2 ^ (e - e1)) * 2 ^ e1 == x)
        by (subst x; symmetry; apply dyadic_lower; lia).
      split; [exact I|]. split; intros K HK; rewrite Hx; exact HK.
    + subst p. rewrite digits_shift by lia.
      replace (Zpos (digits2_pos m) + (e - e1) + e1)%Z with (Zpos (digits2_pos m) + e)%Z by lia.
      fold e1. lia.
    + lia.
Qed.

Lemma int_dyadic_le z Y b :
  (b <= 0)%Z -> inject_Z z <= inject_Z Y * 2 ^ b <-> (z * 2 ^ (- b) <= Y)%Z.
Proof.
  intros Hb.
  assert (E : inject_Z z * 2 ^ 0 == inject_Z z) by (rewrite Qpower_0_r; apply Qmult_1_r).
  rewrite <- E. rewrite (dyadic_le z 0 Y b b) by lia.
  rewrite Z.sub_diag, Z.mul_1_r, Z.sub_0_l. reflexivity.
Qed.
Lemma dyadic_lt_int X a z :
  (a <= 0)%Z -> inject_Z X * 2 ^ a < inject_Z z <-> (X < z * 2 ^ (- a))%Z.
Proof.
  intros Hb.
  assert (E : inject_Z z * 2 ^ 0 == inject_Z z) by (rewrite Qpower_0_r; apply Qmult_1_r).
  rewrite <- E. rewrite (dyadic_lt X a z 0 a) by lia.
  rewrite Z.sub_diag, Z.mul_1_r, Z.sub_0_l. reflexivity.
Qed.

(** [to_int] on a non-negative value is its floor. *)
Lemma Qfloor_unique x z : inject_Z z <= x -> x < inject_Z (z + 1) -> Qfloor x = z.
Proof.
  intros H1 H2.
  pose proof (Qfloor_le x) as F1. pose proof (Qlt_floor x) as F2.
  assert (A : inject_Z z < inject_Z (Qfloor x + 1)) by (eapply Qle_lt_trans; eassumption).
  assert (B : inject_Z (Qfloor x) < inject_Z (z + 1)) by (eapply Qle_lt_trans; eassumption).
  rewrite <- Zlt_Qlt in A, B. lia.
Qed.

Lemma to_int_floor t :
  nonneg_finite t -> (Qfloor (F2Q t) <= Int32.max_signed)%Z ->
  to_int t = Some (Qfloor (F2Q t)).
Proof.
  destruct t as [s|s| |[|] m e]; cbn [nonneg_finite]; try contradiction; intros _.
  - intros _. reflexivity.
  - cbn [F2Q to_int]. intros Hmax.
    assert (Hfl : Qfloor (inject_Z (Zpos m) * 2 ^ e) =
                  if (0 <=? e)%Z then (Zpos m * 2 ^ e)%Z else (Zpos m / 2 ^ (- e))%Z).
    { destruct (Z.leb_spec 0 e) as [He | He].
      - rewrite pow2Q_Z by assumption. rewrite <- inject_Z_mult. apply Qfloor_Z.
      - assert (Hp : (0 < 2 ^ (- e))%Z) by (apply Z.pow_pos_nonneg; lia).
        apply Qfloor_unique.
        + apply int_dyadic_le; [lia|].
          pose proof (Z.mul_div_le (Zpos m) (2 ^ (- e)) Hp). lia.
        + apply dyadic_lt_int; [lia|].
          pose proof (Z.mul_succ_div_gt (Zpos m) (2 ^ (- e)) Hp). lia. }
    rewrite Hfl in *. unfold Int32.checked, Int32.fits.
    assert (H0 : (0 <= if (0 <=? e)%Z then Zpos m * 2 ^ e else Zpos m / 2 ^ (- e))%Z).
    { destruct (Z.leb_spec 0 e); [apply Z.mul_nonneg_nonneg; [lia | apply Z.pow_nonneg; lia]|].
      apply Z.div_pos; [lia | apply Z.pow_pos_nonneg; lia]. }
    set (t := if (0 <=? e)%Z then _ else _) in *.
    destruct (Z.leb_spec Int32.min_signed t); [|unfold Int32.min_signed in *; lia].
    destruct (Z.leb_spec t Int32.max_signed); [reflexivity | lia].
Qed.

Lemma keeps_halves_exact x r : nonneg_finite r -> F2Q r == x -> keeps_halves x r.
Proof.
  intros Hn Hx. split; [exact Hn|]. split; intros K HK; rewrite Hx; exact HK.
Qed.

Lemma keeps_halves_eq x y r : x == y -> keeps_halves x r -> keeps_halves y r.
Proof.
  intros E (Hn & Hlo & Hhi). split; [exact Hn|].
  split; intros K HK; [apply Hlo | apply Hhi]; rewrite E; exact HK.
Qed.

Lemma F2Q_nonneg r : nonneg_finite r -> 0 <= F2Q r.
Proof.
  destruct r as [s|s| |[|] m e]; cbn [nonneg_finite F2Q]; try contradiction; intros _;
    try apply Qle_refl.
  apply Qmult_le_0_compat; [now rewrite <- (Zle_Qle 0) | apply Qlt_le_weak, pow2Q_pos].
Qed.

Lemma round_keeps_halves m e :
  inject_Z (Zpos m) * 2 ^ e < 2 ^ 23 ->
  keeps_halves (inject_Z (Zpos m) * 2 ^ e) (binary_round_aux prec emax false (Zpos m) e loc_Exact).
Proof.
  intros Hx. pose proof (digits_of_bound _ _ _ Hx) as Hd.
  assert (He : (e <= 104)%Z) by lia.
  apply (round_between m e (-1)); [rewrite fexp32; lia | lia | exact He].
Qed.

Lemma binary_round_keeps_halves m e :
  inject_Z (Zpos m) * 2 ^ e < 2 ^ 23 ->
  keeps_halves (inject_Z (Zpos m) * 2 ^ e) (binary_round prec emax false m e).
Proof.
  intros Hx. pose proof (digits_of_bound _ _ _ Hx) as Hd.
  assert (He : (e <= 104)%Z) by lia.
  apply (binary_round_between m e (-1)); [rewrite fexp32; lia | lia | exact He].
Qed.

(** The product of two non-negative values. *)
Lemma mul_keeps_halves c s :
  nonneg_finite c -> nonneg_finite s -> F2Q c * F2Q s < 2 ^ 23 ->
  keeps_halves (F2Q c * F2Q s) (mul c s).
Proof.
  destruct c as [sc|sc| |[|] mc ec]; cbn [nonneg_finite]; try contradiction; intros _;
  destruct s as [ss|ss| |[|] ms es]; cbn [nonneg_finite]; try contradiction; intros _;
    intros Hx; unfold mul; cbn [SFmul xorb];
    try (apply keeps_halves_exact; [exact I | cbn [F2Q]; ring]).
  cbn [F2Q] in *.
  assert (E : inject_Z (Zpos (mc * ms)) * 2 ^ (ec + es)
              == inject_Z (Zpos mc) * 2 ^ ec * (inject_Z (Zpos ms) * 2 ^ es)).
  { rewrite Pos2Z.inj_mul, inject_Z_mult, pow2Q_add. ring. }
  apply (keeps_halves_eq _ _ _ E). apply round_keeps_halves. rewrite E. exact Hx.
Qed.

Lemma F2Q_half : F2Q half == 1 # 2.
Proof. reflexivity. Qed.

(** Adding [0.5f] to a non-negative value. *)
Lemma add_half_keeps_halves p :
  nonneg_finite p -> F2Q p + (1 # 2) < 2 ^ 23 ->
  keeps_halves (F2Q p + (1 # 2)) (add p half).
Proof.
  destruct p as [sp|sp| |[|] mp ep]; cbn [nonneg_finite]; try contradiction; intros _ Hy.
  - apply keeps_halves_exact; [exact I | reflexivity].
  - unfold add. change half with (S754_finite false (2 ^ 23) (-24)).
    cbn [SFadd cond_Zopp]. cbn [F2Q] in *.
    set (ez := Z.min ep (-24)).
    rewrite (shl_align_spec mp ep ez), (shl_align_spec (2 ^ 23) (-24) ez) by (subst ez; lia).
    cbn [fst].
    assert (P1 : (0 < 2 ^ (ep - ez))%Z) by (apply Z.pow_pos_nonneg; subst ez; lia).
    assert (P2 : (0 < 2 ^ (-24 - ez))%Z) by (apply Z.pow_pos_nonneg; subst ez; lia).
    rewrite !Z2Pos.id by lia.
    set (M := (Zpos mp * 2 ^ (ep - ez) + Zpos (2 ^ 23) * 2 ^ (-24 - ez))%Z).
    assert (HM : (0 < M)%Z) by (subst M; lia).
    assert (E : inject_Z M * 2 ^ ez == inject_Z (Zpos mp) * 2 ^ ep + (1 # 2)).
    { subst M. rewrite inject_Z_plus, Qmult_plus_distr_l.
      rewrite <- (dyadic_lower (Zpos mp) ep ez) by (subst ez; lia).
      rewrite <- (dyadic_lower (Zpos (2 ^ 23)) (-24) ez) by (subst ez; lia).
      apply Qplus_comp; reflexivity. }
    destruct M as [|Mp|Mp]; try lia. cbn [binary_normalize].
    apply (keeps_halves_eq _ _ _ E). apply binary_round_keeps_halves. rewrite E. exact Hy.
Qed.

Lemma odd_half k : inject_Z (2 * k + 1) * 2 ^ (-1) == inject_Z k + (1 # 2).
Proof.
  rewrite inject_Z_plus, inject_Z_mult. change (2 ^ (-1)) with (1 # 2).
  change (inject_Z 2) with 2. change (inject_Z 1) with 1. field.
Qed.

Lemma even_half k : inject_Z (2 * k) * 2 ^ (-1) == inject_Z k.
Proof.
  rewrite inject_Z_mult. change (2 ^ (-1)) with (1 # 2).
  change (inject_Z 2) with 2. field.
Qed.

Lemma inject_Z_pred k : inject_Z (k - 1) == inject_Z k - 1.
Proof. unfold Z.sub. rewrite inject_Z_plus. reflexivity. Qed.

Lemma inject_Z_succ k : inject_Z (k + 1) == inject_Z k + 1.
Proof. rewrite inject_Z_plus. reflexivity. Qed.

Section KeepsHalves.
Variables (x : Q) (r : spec_float).
Hypothesis H : keeps_halves x r.

Lemma kh_lo_half k : inject_Z k + (1 # 2) <= x -> inject_Z k + (1 # 2) <= F2Q r.
Proof. rewrite <- odd_half. apply H. Qed.

Lemma kh_hi_half k : x <= inject_Z k + (1 # 2) -> F2Q r <= inject_Z k + (1 # 2).
Proof. rewrite <- odd_half. apply H. Qed.

Lemma kh_lo_int k : inject_Z k <= x -> inject_Z k <= F2Q r.
Proof. rewrite <- even_half. apply H. Qed.

Lemma kh_hi_int k : x <= inject_Z k -> F2Q r <= inject_Z k.
Proof. rewrite <- even_half. apply H. Qed.
End KeepsHalves.

Lemma pow2Q_23 : 2 ^ 23 == inject_Z (2 ^ 23).
Proof. reflexivity. Qed.

(** The fixed-point conversion shared by both quantizers, on a clamped
    non-negative value [c] and an integral scale [S]. *)
Lemma scale_round_trunc c scale S :
  nonneg_finite c -> F2Q c <= 1 ->
  nonneg_finite scale -> F2Q scale == inject_Z S -> (0 <= S <= 2 ^ 23 - 1)%Z ->
  let k := Qfloor (F2Q c * inject_Z S + (1 # 2)) in
  exists q, to_int (add (mul c scale) half) = Some q /\
            (q = k \/ q = (k + 1)%Z) /\ (0 <= q <= S)%Z /\
            ((exists K, F2Q c * inject_Z S == inject_Z K * 2 ^ (-1)) -> q = k).
Proof.
  intros Hc Hc1 Hs HS HSr k.
  pose proof (F2Q_nonneg c Hc) as Hc0.
  assert (HS0 : 0 <= inject_Z S) by (rewrite <- (Zle_Qle 0); lia).
  assert (HS23 : inject_Z S <= inject_Z (2 ^ 23) - 1).
  { rewrite <- inject_Z_pred, <- Zle_Qle. lia. }
  set (x := F2Q c * F2Q scale).
  assert (Hx : x == F2Q c * inject_Z S) by (subst x; rewrite HS; reflexivity).
  assert (Hx0 : 0 <= x) by (rewrite Hx; apply Qmult_le_0_compat; assumption).
  assert (HxS : x <= inject_Z S).
  { rewrite Hx. rewrite <- (Qmult_1_l (inject_Z S)) at 2. apply Qmult_le_compat_r; assumption. }
  assert (Hk1 : inject_Z k <= x + (1 # 2)) by (rewrite Hx; apply Qfloor_le).
  assert (Hk2 : x + (1 # 2) < inject_Z (k + 1)) by (rewrite Hx; apply Qlt_floor).
  rewrite inject_Z_succ in Hk2.
  assert (Hx23 : x < 2 ^ 23) by (rewrite pow2Q_23; lra).
  pose proof (mul_keeps_halves c scale Hc Hs Hx23) as Hp. fold x in Hp.
  set (p := mul c scale) in *.
  (* the product stays between the neighbouring half-integers *)
  assert (Hp_lo : inject_Z (k - 1) + (1 # 2) <= F2Q p).
  { apply (kh_lo_half _ _ Hp). rewrite inject_Z_pred. lra. }
  assert (Hp_hi : F2Q p <= inject_Z k + (1 # 2)) by (apply (kh_hi_half _ _ Hp); lra).
  assert (Hp_S : F2Q p <= inject_Z S) by (apply (kh_hi_int _ _ Hp); exact HxS).
  rewrite inject_Z_pred in Hp_lo.
  assert (Hy23 : F2Q p + (1 # 2) < 2 ^ 23) by (rewrite pow2Q_23; lra).
  pose proof Hp as [Hpn _].
  pose proof (add_half_keeps_halves p Hpn Hy23) as Ht.
  set (t := add p half) in *.
  assert (Ht_lo : inject_Z k <= F2Q t) by (apply (kh_lo_int _ _ Ht); lra).
  assert (Ht_hi : F2Q t <= inject_Z (k + 1)).
  { apply (kh_hi_int _ _ Ht). rewrite inject_Z_succ. lra. }
  assert (Ht_S : F2Q t <= inject_Z S + (1 # 2)) by (apply (kh_hi_half _ _ Ht); lra).
  rewrite inject_Z_succ in Ht_hi.
  pose proof Ht as [Htn _].
  assert (Hk0 : (0 <= k)%Z).
  { subst k. change 0%Z with (Qfloor 0). apply Qfloor_resp_le. lra. }
  assert (HfS : (Qfloor (F2Q t) <= S)%Z).
  { rewrite <- (Qfloor_Z S). 
    destruct (Z_le_gt_dec (Qfloor (F2Q t)) S) as [|Hgt]; [rewrite Qfloor_Z; assumption|].
    exfalso. pose proof (Qfloor_le (F2Q t)) as Hfl.
    assert (inject_Z (S + 1) <= inject_Z (Qfloor (F2Q t))) by (rewrite <- Zle_Qle; lia).
    rewrite inject_Z_succ in *. lra. }
  assert (Hfk : Qfloor (F2Q t) = k \/ Qfloor (F2Q t) = (k + 1)%Z).
  { destruct (Qeq_dec (F2Q t) (inject_Z (k + 1))) as [Heq | Hne].
    - right. rewrite Heq. apply Qfloor_Z.
    - left. apply Qfloor_unique; [exact Ht_lo|].
      rewrite inject_Z_succ.
      apply Qle_lteq in Ht_hi. destruct Ht_hi as [Hlt | Heq]; [exact Hlt|].
      exfalso. apply Hne. rewrite inject_Z_succ. exact Heq. }
  exists (Qfloor (F2Q t)). split; [|split; [exact Hfk | split; [lia|]]].
  - apply to_int_floor; [exact Htn|]. unfold Int32.max_signed. lia.
  - intros [K HK]. rewrite <- Hx in HK.
    destruct Hp as (_ & Hp1 & Hp2). destruct Ht as (_ & Ht1 & Ht2).
    assert (Ep : F2Q p == inject_Z K * 2 ^ (-1)).
    { apply Qle_antisym; [apply Hp2 | apply Hp1]; rewrite HK; apply Qle_refl. }
    assert (EK : F2Q p + (1 # 2) == inject_Z (K + 1) * 2 ^ (-1)).
    { rewrite Ep, inject_Z_succ. change (2 ^ (-1)) with (1 # 2). ring. }
    assert (Et : F2Q t == inject_Z (K + 1) * 2 ^ (-1)).
    { apply Qle_antisym; [apply Ht2 | apply Ht1]; rewrite EK; apply Qle_refl. }
    subst k. apply Qfloor_comp. rewrite Et, <- EK, Ep, <- HK, Hx. reflexivity.
Qed.

(** Integers below [2^24] convert exactly. *)
Lemma of_int_value S :
  (0 <= S < 2 ^ 24)%Z -> nonneg_finite (of_int S) /\ F2Q (of_int S) == inject_Z S.
Proof.
  intros HS. unfold of_int. destruct S as [|p|p]; try lia.
  - split; [exact I | reflexivity].
  - cbn [binary_normalize].
    assert (Hd : (Zpos (digits2_pos p) <= 24)%Z) by (apply digits_le; lia).
    destruct (binary_round_between p 0 0) as (Hn & Hlo & Hhi);
      [rewrite fexp32; lia | lia | lia |].
    split; [exact Hn|].
    apply Qle_antisym.
    + rewrite <- (Qmult_1_r (inject_Z (Zpos p))). apply Hhi. apply Qle_refl.
    + rewrite <- (Qmult_1_r (inject_Z (Zpos p))). apply Hlo. apply Qle_refl.
Qed.

(** Rounding is symmetric in the sign. *)
Lemma binary_round_aux_opp m e l :
  binary_round_aux prec emax true m e l = SFopp (binary_round_aux prec emax false m e l).
Proof.
  unfold binary_round_aux.
  destruct (shr_fexp prec emax m e l) as [mrs' e'].
  destruct (shr_fexp prec emax _ e' loc_Exact) as [mrs'' e''].
  destruct (shr_m mrs''); [reflexivity | | reflexivity].
  destruct (e'' <=? emax - prec)%Z; reflexivity.
Qed.

Lemma binary_round_opp m e :
  binary_round prec emax true m e = SFopp (binary_round prec emax false m e).
Proof.
  unfold binary_round. destruct (shl_align m e _) as [mz ez]. apply binary_round_aux_opp.
Qed.

Lemma mul_opp_l c s :
  nonneg_finite c -> nonneg_finite s -> mul (SFopp c) s = SFopp (mul c s).
Proof.
  destruct c as [sc|sc| |[|] mc ec]; cbn [nonneg_finite]; try contradiction; intros _;
  destruct s as [ss|ss| |[|] ms es]; cbn [nonneg_finite]; try contradiction; intros _;
    unfold mul; cbn [SFopp SFmul negb xorb]; try (destruct sc; reflexivity);
    try (destruct ss; reflexivity); try (destruct sc, ss; reflexivity).
  apply binary_round_aux_opp.
Qed.

Lemma add_opp_half p :
  nonneg_finite p -> add (SFopp p) neg_half = SFopp (add p half).
Proof.
  destruct p as [sp|sp| |[|] mp ep]; cbn [nonneg_finite]; try contradiction; intros _.
  - reflexivity.
  - unfold add. change half with (S754_finite false (2 ^ 23) (-24)).
    change neg_half with (S754_finite true (2 ^ 23) (-24)).
    cbn [SFopp negb SFadd cond_Zopp].
    set (a := fst (shl_align mp ep (Z.min ep (-24)))).
    set (b := fst (shl_align (2 ^ 23) (-24) (Z.min ep (-24)))).
    cbn [Z.opp Z.add binary_normalize]. apply binary_round_opp.
Qed.

Lemma to_int_opp t q :
  to_int t = Some q -> (0 <= q)%Z -> to_int (SFopp t) = Some (- q)%Z.
Proof.
  destruct t as [s|s| |s m e]; cbn [to_int SFopp]; try discriminate.
  - intros [= <-] _. reflexivity.
  - set (a := if (0 <=? e)%Z then _ else _).
    unfold Int32.checked, Int32.fits, Int32.min_signed, Int32.max_signed.
    destruct s; cbn [negb]; intros H Hq.
    + destruct ((- 2 ^ 31 <=? - a) && (- a <=? 2 ^ 31 - 1))%Z eqn:E; [|discriminate].
      injection H as <-. rewrite Z.opp_involutive.
      destruct (Z.leb_spec (- 2 ^ 31) a); destruct (Z.leb_spec a (2 ^ 31 - 1)); try reflexivity; lia.
    + destruct ((- 2 ^ 31 <=? a) && (a <=? 2 ^ 31 - 1))%Z eqn:E; [|discriminate].
      injection H as <-. apply andb_true_iff in E as [E1 E2]. apply Z.leb_le in E1, E2.
      destruct (Z.leb_spec (- 2 ^ 31) (- a)); destruct (Z.leb_spec (- a) (2 ^ 31 - 1)); try reflexivity; lia.
Qed.

Lemma decode_finite v :
  wf v -> is_finite v = true ->
  decode v = S754_zero (sign_bit v) \/
  (exists m e, decode v = S754_finite (sign_bit v) m e /\ canonical m e).
Proof.
  intros Hwf Hfin. destruct (fields_of v Hwf) as (s & E & M & F).
  unfold is_finite in Hfin. rewrite (f_exp _ _ _ _ F) in Hfin.
  apply negb_true_iff, Z.eqb_neq in Hfin. rewrite (f_sign _ _ _ _ F).
  pose proof (f_M _ _ _ _ F) as HM. pose proof (f_E _ _ _ _ F) as HE.
  destruct (decode_shape _ _ _ _ F) as [He H0|He H0|He H0|p He Hp|p He Hp]; try lia.
  - left. reflexivity.
  - right. exists p, (-149)%Z. split; [reflexivity|]. unfold canonical. lia.
  - right. exists p, (E - 150)%Z. split; [reflexivity|]. unfold canonical. lia.
Qed.

Lemma le_one_true m e :
  canonical m e -> le (S754_finite false m e) (of_int 1) = true ->
  inject_Z (Zpos m) * 2 ^ e <= 1.
Proof.
  intros (Hm & He & Hn). change (of_int 1) with (S754_finite false (2 ^ 23) (-23)).
  unfold le, SFleb. cbn [SFcompare]. rewrite compare_cont_Eq. intros Hcmp.
  setoid_replace 1 with (inject_Z 1 * 2 ^ 0) by reflexivity.
  destruct (Z.compare_spec e (-23)) as [-> | Hlt | Hgt]; try discriminate.
  - apply (dyadic_le _ _ _ _ (-23)%Z); [lia | lia |].
    destruct (Z.compare_spec (Zpos m) (Zpos (2 ^ 23))); try discriminate; cbn; lia.
  - apply (dyadic_le _ _ _ _ e); [lia | lia |].
    rewrite Z.sub_diag, Z.mul_1_r, Z.mul_1_l.
    assert (2 ^ 24 <= 2 ^ (0 - e))%Z by (apply Z.pow_le_mono_r; lia). lia.
Qed.

Lemma le_one_false m e :
  canonical m e -> le (S754_finite false m e) (of_int 1) = false ->
  1 <= inject_Z (Zpos m) * 2 ^ e.
Proof.
  intros (Hm & He & Hn). change (of_int 1) with (S754_finite false (2 ^ 23) (-23)).
  unfold le, SFleb. cbn [SFcompare]. rewrite compare_cont_Eq. intros Hcmp.
  setoid_replace 1 with (inject_Z 1 * 2 ^ 0) by reflexivity.
  destruct (Z.compare_spec e (-23)) as [-> | Hlt | Hgt]; try discriminate.
  - apply (dyadic_le _ _ _ _ (-23)%Z); [lia | lia |].
    destruct (Z.compare_spec (Zpos m) (Zpos (2 ^ 23))); try discriminate; cbn; lia.
  - apply (dyadic_le _ _ _ _ (-23)%Z); [lia | lia |].
    assert (0 < 2 ^ (e - -23))%Z by (apply Z.pow_pos_nonneg; lia).
    change (1 * 2 ^ (0 - -23))%Z with (2 ^ 23)%Z. nia.
Qed.

Lemma F2Q_one : F2Q (of_int 1) == 1.
Proof. reflexivity. Qed.

Lemma clamp_hi_nonneg m e :
  canonical m e ->
  let d := S754_finite false m e in
  nonneg_finite (clamp_hi d) /\ F2Q (clamp_hi d) <= 1 /\ 0 < F2Q (clamp_hi d) /\
  F2Q (clamp_hi d) == (if Qle_bool 1 (F2Q d) then 1 else F2Q d).
Proof.
  intros Hc d. unfold clamp_hi.
  assert (Hpos : 0 < F2Q d).
  { subst d. cbn [F2Q]. apply Qmult_lt_0_compat; [now rewrite <- (Zlt_Qlt 0) | apply pow2Q_pos]. }
  destruct (le d (of_int 1)) eqn:Hle.
  - pose proof (le_one_true m e Hc Hle) as H1. fold (F2Q d) in H1.
    split; [exact I|]. split; [exact H1|]. split; [exact Hpos|].
    destruct (Qle_bool 1 (F2Q d)) eqn:Hb; [|reflexivity].
    apply Qle_bool_iff in Hb. apply Qle_antisym; assumption.
  - pose proof (le_one_false m e Hc Hle) as H1.
    split; [exact I|]. rewrite F2Q_one.
    split; [apply Qle_refl|]. split; [reflexivity|].
    apply Qle_bool_iff in H1. subst d. cbn [F2Q]. rewrite H1. reflexivity.
Qed.

Lemma round_half_away_nonneg x y :
  0 <= y -> x == y -> round_half_away x = Qfloor (y + (1 # 2)).
Proof.
  intros Hy E. unfold round_half_away.
  assert (Hb : Qle_bool 0 x = true) by (apply Qle_bool_iff; rewrite E; exact Hy).
  rewrite Hb. apply Qfloor_comp. rewrite E. reflexivity.
Qed.

Lemma round_half_away_neg x y :
  0 < y -> x == - y -> round_half_away x = (- Qfloor (y + (1 # 2)))%Z.
Proof.
  intros Hy E. unfold round_half_away.
  destruct (Qle_bool 0 x) eqn:Hb.
  - apply Qle_bool_iff in Hb. rewrite E in Hb. lra.
  - f_equal. apply Qfloor_comp. rewrite E. ring.
Qed.

Lemma unorm_clamp v :
  wf v -> is_finite v = true ->
  let d := decode v in
  let c := clamp_hi (if ge d (of_int 0) then d else of_int 0) in
  nonneg_finite c /\ 0 <= F2Q c <= 1 /\ F2Q c == clampQ 0 1 (F2Q d).
Proof.
  intros Hwf Hfin d c. subst c d.
  destruct (decode_finite v Hwf Hfin) as [-> | (m & e & -> & Hc)].
  - repeat split; cbn; discriminate.
  - destruct (sign_bit v).
    + (* a negative value is clamped to zero *)
      change (ge (S754_finite true m e) (of_int 0)) with false. cbv iota.
      split; [exact I|]. split; [split; cbn; discriminate|].
      unfold clampQ.
      assert (Hneg : F2Q (S754_finite true m e) < 0).
      { cbn [F2Q]. setoid_replace 0 with (inject_Z 0 * 2 ^ e) by ring.
        apply Qmult_lt_compat_r; [apply pow2Q_pos | now rewrite <- Zlt_Qlt]. }
      assert (Hb : Qle_bool (F2Q (S754_finite true m e)) 0 = true)
        by (apply Qle_bool_iff; lra).
      rewrite Hb. reflexivity.
    + change (ge (S754_finite false m e) (of_int 0)) with true. cbv iota.
      destruct (clamp_hi_nonneg m e Hc) as (Hn & H1 & H0 & E).
      split; [exact Hn|]. split; [split; [lra | exact H1]|].
      rewrite E. unfold clampQ.
      assert (Hpos : 0 < F2Q (S754_finite false m e)).
      { cbn [F2Q]. apply Qmult_lt_0_compat; [now rewrite <- (Zlt_Qlt 0) | apply pow2Q_pos]. }
      destruct (Qle_bool (F2Q (S754_finite false m e)) 0) eqn:Hb; [|reflexivity].
      apply Qle_bool_iff in Hb. lra.
Qed.

Lemma shl_one bits : (0 <= bits <= 30)%Z -> Int32.shl 1 bits = Some (2 ^ bits)%Z.
Proof.
  intros H. unfold Int32.shl, Int32.checked, Int32.fits, Int32.min_signed, Int32.max_signed.
  rewrite Z.shiftl_1_l.
  assert (0 < 2 ^ bits)%Z by (apply Z.pow_pos_nonneg; lia).
  assert (2 ^ bits <= 2 ^ 30)%Z by (apply Z.pow_le_mono_r; lia).
  destruct (Z.leb_spec 0 bits); [|lia]. destruct (Z.ltb_spec bits 32); [|lia].
  destruct (Z.leb_spec (- 2 ^ 31) (2 ^ bits)); [|lia].
  destruct (Z.leb_spec (2 ^ bits) (2 ^ 31 - 1)); [reflexivity | lia].
Qed.

Lemma sub_small a b :
  (- 2 ^ 31 <= a - b <= 2 ^ 31 - 1)%Z -> Int32.sub a b = Some (a - b)%Z.
Proof.
  intros H. unfold Int32.sub, Int32.checked, Int32.fits, Int32.min_signed, Int32.max_signed.
  destruct (Z.leb_spec (- 2 ^ 31) (a - b)); [|lia].
  destruct (Z.leb_spec (a - b) (2 ^ 31 - 1)); [reflexivity | lia].
Qed.

Lemma keeps_grid_exact g x r : nonneg_finite r -> F2Q r == x -> keeps_grid g x r.
Proof.
  intros Hn Hx. split; [exact Hn|]. split; intros K HK; rewrite Hx; exact HK.
Qed.

Lemma keeps_grid_eq g x y r : x == y -> keeps_grid g x r -> keeps_grid g y r.
Proof.
  intros E (Hn & Hlo & Hhi). split; [exact Hn|].
  split; intros K HK; [apply Hlo | apply Hhi]; rewrite E; exact HK.
Qed.

Lemma round_keeps_grid m e g :
  (-149 <= g <= 80)%Z -> inject_Z (Zpos m) * 2 ^ e < 2 ^ (g + 24) ->
  keeps_grid g (inject_Z (Zpos m) * 2 ^ e)
    (binary_round_aux prec emax false (Zpos m) e loc_Exact).
Proof.
  intros Hg Hx. pose proof (digits_of_bound _ _ _ Hx) as Hd.
  apply (round_between m e g); [rewrite fexp32; lia | lia | lia].
Qed.

Lemma binary_round_keeps_grid m e g :
  (-149 <= g <= 80)%Z -> inject_Z (Zpos m) * 2 ^ e < 2 ^ (g + 24) ->
  keeps_grid g (inject_Z (Zpos m) * 2 ^ e) (binary_round prec emax false m e).
Proof.
  intros Hg Hx. pose proof (digits_of_bound _ _ _ Hx) as Hd.
  apply (binary_round_between m e g); [rewrite fexp32; lia | lia | lia].
Qed.

(** The product of two non-negative values, at any grid the result can
    hold. *)
Lemma mul_keeps_grid c s g :
  (-149 <= g <= 80)%Z ->
  nonneg_finite c -> nonneg_finite s -> F2Q c * F2Q s < 2 ^ (g + 24) ->
  keeps_grid g (F2Q c * F2Q s) (mul c s).
Proof.
  intros Hg.
  destruct c as [sc|sc| |[|] mc ec]; cbn [nonneg_finite]; try contradiction; intros _;
  destruct s as [ss|ss| |[|] ms es]; cbn [nonneg_finite]; try contradiction; intros _;
    intros Hx; unfold mul; cbn [SFmul xorb];
    try (apply keeps_grid_exact; [exact I | cbn [F2Q]; ring]).
  cbn [F2Q] in *.
  assert (E : inject_Z (Zpos (mc * ms)) * 2 ^ (ec + es)
              == inject_Z (Zpos mc) * 2 ^ ec * (inject_Z (Zpos ms) * 2 ^ es)).
  { rewrite Pos2Z.inj_mul, inject_Z_mult, pow2Q_add. ring. }
  apply (keeps_grid_eq _ _ _ _ E). apply round_keeps_grid; [exact Hg|]. rewrite E. exact Hx.
Qed.

(** The sum of a non-negative value and [0.5f] is one rounding of the
    exact sum. *)
Lemma add_half_as_round p :
  nonneg_finite p ->
  exists m e, add p half = binary_round prec emax false m e /\
              inject_Z (Zpos m) * 2 ^ e == F2Q p + (1 # 2).
Proof.
  destruct p as [sp|sp| |[|] mp ep]; cbn [nonneg_finite]; try contradiction; intros _.
  - exists 1%positive, (-1)%Z. split; [reflexivity | reflexivity].
  - unfold add. change half with (S754_finite false (2 ^ 23) (-24)).
    cbn [SFadd cond_Zopp]. cbn [F2Q] in *.
    set (ez := Z.min ep (-24)).
    rewrite (shl_align_spec mp ep ez), (shl_align_spec (2 ^ 23) (-24) ez) by (subst ez; lia).
    cbn [fst].
    assert (P1 : (0 < 2 ^ (ep - ez))%Z) by (apply Z.pow_pos_nonneg; subst ez; lia).
    assert (P2 : (0 < 2 ^ (-24 - ez))%Z) by (apply Z.pow_pos_nonneg; subst ez; lia).
    rewrite !Z2Pos.id by lia.
    set (M := (Zpos mp * 2 ^ (ep - ez) + Zpos (2 ^ 23) * 2 ^ (-24 - ez))%Z).
    assert (HM : (0 < M)%Z) by (subst M; lia).
    assert (E : inject_Z M * 2 ^ ez == inject_Z (Zpos mp) * 2 ^ ep + (1 # 2)).
    { subst M. rewrite inject_Z_plus, Qmult_plus_distr_l.
      rewrite <- (dyadic_lower (Zpos mp) ep ez) by (subst ez; lia).
      rewrite <- (dyadic_lower (Zpos (2 ^ 23)) (-24) ez) by (subst ez; lia).
      apply Qplus_comp; reflexivity. }
    destruct M as [|Mp|Mp]; try lia. cbn [binary_normalize].
    exists Mp, ez. split; [reflexivity | exact E].
Qed.

Lemma add_half_keeps_grid p g :
  (-149 <= g <= 80)%Z -> nonneg_finite p -> F2Q p + (1 # 2) < 2 ^ (g + 24) ->
  keeps_grid g (F2Q p + (1 # 2)) (add p half).
Proof.
  intros Hg Hp Hy. destruct (add_half_as_round p Hp) as (m & e & -> & E).
  apply (keeps_grid_eq _ _ _ _ E). apply binary_round_keeps_grid; [exact Hg|].
  rewrite E. exact Hy.
Qed.

(** Below a tie by at least [2^(E - 24)], the spacing of the binary32
    values just below [2^E], the conversion does not reach the integer
    above the tie. *)
Lemma scale_round_tie c scale S j E :
  nonneg_finite c -> F2Q c <= 1 ->
  nonneg_finite scale -> F2Q scale == inject_Z S -> (0 <= S <= 2 ^ 23 - 1)%Z ->
  (0 <= j)%Z -> (j + 1 <= 2 ^ E)%Z -> (0 <= E <= 23)%Z ->
  F2Q c * inject_Z S <= inject_Z j + (1 # 2) - 2 ^ (E - 24) ->
  forall q, to_int (add (mul c scale) half) = Some q -> (q <= j)%Z.
Proof.
  intros Hc Hc1 Hs HS HSr Hj HjE HE Hx q Hq.
  set (g := (E - 24)%Z) in *. set (n := (23 - E)%Z).
  pose proof (pow2Q_pos g) as Hg0.
  assert (Hgn : inject_Z (2 ^ n) * 2 ^ g == 2 ^ (-1)).
  { rewrite <- pow2Q_Z by (subst n; lia). rewrite <- pow2Q_add.
    subst n g. replace (23 - E + (E - 24))%Z with (-1)%Z by lia. reflexivity. }
  assert (HK1 : inject_Z ((2 * j + 1) * 2 ^ n - 1) * 2 ^ g == inject_Z j + (1 # 2) - 2 ^ g).
  { rewrite inject_Z_pred, inject_Z_mult.
    setoid_replace ((inject_Z (2 * j + 1) * inject_Z (2 ^ n) - 1) * 2 ^ g)
      with (inject_Z (2 * j + 1) * (inject_Z (2 ^ n) * 2 ^ g) - 2 ^ g) by ring.
    rewrite Hgn, odd_half. reflexivity. }
  assert (HK2 : inject_Z ((2 * j + 1) * 2 ^ n - 1 + 2 ^ n) * 2 ^ g == inject_Z j + 1 - 2 ^ g).
  { rewrite inject_Z_plus, Qmult_plus_distr_l, HK1, Hgn. change (2 ^ (-1)) with (1 # 2). ring. }
  assert (HE2 : 2 ^ (g + 24) == inject_Z (2 ^ E)).
  { subst g. replace (E - 24 + 24)%Z with E by lia. apply pow2Q_Z. lia. }
  assert (Hj1 : inject_Z j + 1 <= 2 ^ (g + 24)).
  { rewrite HE2, <- inject_Z_succ, <- Zle_Qle. exact HjE. }
  set (x := F2Q c * F2Q scale).
  assert (Hxe : x == F2Q c * inject_Z S) by (subst x; rewrite HS; reflexivity).
  assert (Hxlt : x < 2 ^ (g + 24)) by (rewrite Hxe; lra).
  destruct (mul_keeps_grid c scale g ltac:(subst g; lia) Hc Hs Hxlt) as (Hpn & _ & Hphi).
  fold x in Hphi. set (p := mul c scale) in *.
  assert (Hp : F2Q p <= inject_Z j + (1 # 2) - 2 ^ g).
  { rewrite <- HK1. apply Hphi. rewrite HK1, Hxe. exact Hx. }
  assert (Hylt : F2Q p + (1 # 2) < 2 ^ (g + 24)) by lra.
  destruct (add_half_keeps_grid p g ltac:(subst g; lia) Hpn Hylt) as (Htn & _ & Hthi).
  set (t := add p half) in *.
  assert (Ht : F2Q t <= inject_Z j + 1 - 2 ^ g).
  { rewrite <- HK2. apply Hthi. rewrite HK2. lra. }
  assert (Hfl : (Qfloor (F2Q t) <= j)%Z).
  { destruct (Z_le_gt_dec (Qfloor (F2Q t)) j) as [|Hgt]; [assumption|].
    exfalso. pose proof (Qfloor_le (F2Q t)) as Hf.
    assert (inject_Z (j + 1) <= inject_Z (Qfloor (F2Q t))) by (rewrite <- Zle_Qle; lia).
    rewrite inject_Z_succ in *. lra. }
  assert (Hj23 : (j + 1 <= 2 ^ 23)%Z).
  { assert (2 ^ E <= 2 ^ 23)%Z by (apply Z.pow_le_mono_r; lia). lia. }
  rewrite to_int_floor in Hq; [|exact Htn | unfold Int32.max_signed; lia].
  injection Hq as <-. exact Hfl.
Qed.

(** C3 (as amended): for a finite [v] and [1 <= bits <= 23], [quantizeUnorm]
    returns a code in [0, 2^bits - 1] that is the exactly rounded
    [k = round(clamp(v, 0, 1) * (2^bits - 1))], except that it may be [k + 1]
    when the exact product lies below the tie [k + 1/2] by less than
    [2^(ceil(log2(k + 1)) - 24)], the spacing of the binary32 values just below
    [k + 1]; on the three test vectors it returns 0, 255 and 128. *)
Theorem quantizeUnorm_spec :
  (forall v bits,
     wf v -> is_finite v = true -> (1 <= bits <= 23)%Z ->
     let x := clampQ 0 1 (F2Q (decode v)) * inject_Z (2 ^ bits - 1) in
     let k := unorm_exact v bits in
     exists q,
       quantizeUnorm v bits = Some q /\
       (0 <= q <= 2 ^ bits - 1)%Z /\
       (q = k \/
        q = (k + 1)%Z /\
        inject_Z k + (1 # 2) - 2 ^ (Z.log2_up (k + 1) - 24) < x /\
        x < inject_Z k + (1 # 2))) /\
  quantizeUnorm lit_zero 8%Z = Some 0%Z /\
  quantizeUnorm lit_one 8%Z = Some 255%Z /\
  quantizeUnorm lit_half 8%Z = Some 128%Z.
Proof.
  split; [|vm_compute; repeat split; reflexivity].
  intros v bits Hwf Hfin Hb x k.
  assert (HS : (0 <= 2 ^ bits - 1 <= 2 ^ 23 - 1)%Z).
  { assert (0 < 2 ^ bits)%Z by (apply Z.pow_pos_nonneg; lia).
    assert (2 ^ bits <= 2 ^ 23)%Z by (apply Z.pow_le_mono_r; lia). lia. }
  unfold quantizeUnorm. rewrite shl_one by lia. cbn [bind].
  rewrite sub_small by lia. cbn [bind].
  destruct (unorm_clamp v Hwf Hfin) as (Hn & [H0 H1] & E).
  destruct (of_int_value (2 ^ bits - 1)) as [Hsn Hsv]; [lia|].
  destruct (scale_round_trunc _ _ _ Hn H1 Hsn Hsv HS) as (q & Hq & Hk & Hr & _).
  set (c := clamp_hi (if ge (decode v) (of_int 0) then decode v else of_int 0)) in *.
  assert (Hxe : x == F2Q c * inject_Z (2 ^ bits - 1)) by (subst x; rewrite E; reflexivity).
  assert (Hspec : k = Qfloor (F2Q c * inject_Z (2 ^ bits - 1) + (1 # 2))).
  { subst k. unfold unorm_exact. apply round_half_away_nonneg.
    - apply Qmult_le_0_compat; [exact H0 | rewrite <- (Zle_Qle 0); lia].
    - rewrite E. reflexivity. }
  rewrite <- Hspec in Hk.
  exists q. split; [exact Hq|]. split; [exact Hr|].
  destruct Hk as [Hk | Hk]; [left; exact Hk | right].
  split; [exact Hk|].
  assert (Hk0 : (0 <= k)%Z).
  { rewrite Hspec. change 0%Z with (Qfloor 0). apply Qfloor_resp_le.
    assert (0 <= F2Q c * inject_Z (2 ^ bits - 1))
      by (apply Qmult_le_0_compat; [exact H0 | rewrite <- (Zle_Qle 0); lia]).
    lra. }
  split.
  - destruct (Qlt_le_dec (inject_Z k + (1 # 2) - 2 ^ (Z.log2_up (k + 1) - 24)) x)
      as [Hlt | Hle]; [exact Hlt | exfalso].
    pose proof (Z.log2_log2_up_spec (k + 1) ltac:(lia)) as [_ Hup].
    pose proof (Z.log2_up_nonneg (k + 1)) as Hl0.
    assert (Hl23 : (Z.log2_up (k + 1) <= 23)%Z) by (apply Z.log2_up_le_pow2; lia).
    rewrite Hxe in Hle.
    pose proof (scale_round_tie c (of_int (2 ^ bits - 1)) (2 ^ bits - 1) k (Z.log2_up (k + 1))
                  Hn H1 Hsn Hsv HS Hk0 Hup (conj Hl0 Hl23) Hle q Hq).
    lia.
  - pose proof (Qlt_floor (F2Q c * inject_Z (2 ^ bits - 1) + (1 # 2))) as Hfl.
    rewrite <- Hspec, inject_Z_succ in Hfl. rewrite Hxe. lra.
Qed.

(** [v >= -1] on a negative value is [|v| <= 1]. *)
Lemma ge_minus_one m e :
  ge (S754_finite true m e) (of_int (-1)) = le (S754_finite false m e) (of_int 1).
Proof.
  change (of_int (-1)) with (S754_finite true (2 ^ 23) (-23)).
  change (of_int 1) with (S754_finite false (2 ^ 23) (-23)).
  unfold ge, le, SFleb. cbn [SFcompare]. rewrite !compare_cont_Eq.
  rewrite (Z.compare_antisym e (-23)), (Z.compare_antisym (Zpos m) (Zpos (2 ^ 23))).
  destruct (e ?= -23)%Z; cbn [CompOpp]; try reflexivity.
  destruct (Zpos m ?= Zpos (2 ^ 23))%Z; reflexivity.
Qed.

(** The clamp of [quantizeSnorm] and the rounding constant it picks. *)
Lemma snorm_clamp v :
  wf v -> is_finite v = true ->
  let d := decode v in
  let round := if ge d (of_int 0) then half else neg_half in
  let c1 := if ge d (of_int (-1)) then d else of_int (-1) in
  let c := if le c1 (of_int 1) then c1 else of_int 1 in
  exists c',
    nonneg_finite c' /\ 0 <= F2Q c' <= 1 /\
    ((sign_bit v = false \/ F2Q c' == 0) /\ c = c' /\ round = half /\
       clampQ (-1) 1 (F2Q d) == F2Q c'
     \/
     sign_bit v = true /\ 0 < F2Q c' /\ c = SFopp c' /\ round = neg_half /\
       clampQ (-1) 1 (F2Q d) == - F2Q c').
Proof.
  intros Hwf Hfin d round c1 c. subst c c1 round d.
  destruct (decode_finite v Hwf Hfin) as [-> | (m & e & -> & Hc)].
  - exists (S754_zero (sign_bit v)).
    split; [exact I|]. split; [split; cbn; discriminate|].
    left. split; [right; reflexivity|]. repeat split.
  - destruct (sign_bit v) eqn:Hs.
    + exists (clamp_hi (S754_finite false m e)).
      destruct (clamp_hi_nonneg m e Hc) as (Hn & H1 & H0 & E).
      split; [exact Hn|]. split; [split; [lra | exact H1]|].
      right. split; [reflexivity|]. split; [exact H0|].
      change (ge (S754_finite true m e) (of_int 0)) with false. cbv iota.
      rewrite ge_minus_one. unfold clamp_hi in *.
      split; [|split; [reflexivity|]].
      * destruct (le (S754_finite false m e) (of_int 1)); reflexivity.
      * rewrite E. unfold clampQ.
        assert (Hd : F2Q (S754_finite true m e) == - F2Q (S754_finite false m e)).
        { cbn [F2Q]. change (Zneg m) with (- Zpos m)%Z. rewrite inject_Z_opp. ring. }
        set (y := F2Q (S754_finite false m e)) in *.
        assert (Hy : 0 < y).
        { subst y. cbn [F2Q]. apply Qmult_lt_0_compat; [now rewrite <- (Zlt_Qlt 0) | apply pow2Q_pos]. }
        set (x := F2Q (S754_finite true m e)) in *.
        destruct (Qle_bool 1 y) eqn:B1.
        -- apply Qle_bool_iff in B1.
           assert (B2 : Qle_bool x (-1) = true) by (apply Qle_bool_iff; lra).
           rewrite B2. reflexivity.
        -- assert (B2 : Qle_bool x (-1) = false).
           { destruct (Qle_bool x (-1)) eqn:B; [|reflexivity].
             apply Qle_bool_iff in B. assert (1 <= y) by lra.
             apply Qle_bool_iff in H. congruence. }
           rewrite B2.
           assert (B3 : Qle_bool 1 x = false).
           { destruct (Qle_bool 1 x) eqn:B; [|reflexivity]. apply Qle_bool_iff in B. lra. }
           rewrite B3. exact Hd.
    + exists (clamp_hi (S754_finite false m e)).
      destruct (clamp_hi_nonneg m e Hc) as (Hn & H1 & H0 & E).
      split; [exact Hn|]. split; [split; [lra | exact H1]|].
      left. split; [left; reflexivity|].
      change (ge (S754_finite false m e) (of_int 0)) with true.
      change (ge (S754_finite false m e) (of_int (-1))) with true. cbv iota.
      split; [reflexivity|]. split; [reflexivity|].
      rewrite E. unfold clampQ.
      set (y := F2Q (S754_finite false m e)) in *.
      assert (Hy : 0 < y).
      { subst y. cbn [F2Q]. apply Qmult_lt_0_compat; [now rewrite <- (Zlt_Qlt 0) | apply pow2Q_pos]. }
      assert (B2 : Qle_bool y (-1) = false).
      { destruct (Qle_bool y (-1)) eqn:B; [|reflexivity]. apply Qle_bool_iff in B. lra. }
      rewrite B2. reflexivity.
Qed.

(** C4 (as amended): for a finite [v] and [2 <= bits <= 24], [quantizeSnorm]
    returns a code in the asymmetric range
    [-(2^(bits-1) - 1), 2^(bits-1) - 1] that is
    [k = clamp(v, -1, 1) * (2^(bits-1) - 1)] rounded half away from zero,
    except that it may be the integer one further from zero when the
    magnitude of the exact product lies below the tie [|k| + 1/2] by less
    than [2^(ceil(log2(|k| + 1)) - 24)], the spacing of the binary32 values
    just below [|k| + 1]; on the three test vectors it returns 0, 127 and
    -127. *)
Theorem quantizeSnorm_spec :
  (forall v bits,
     wf v -> is_finite v = true -> (2 <= bits <= 24)%Z ->
     let x := clampQ (-1) 1 (F2Q (decode v)) * inject_Z (2 ^ (bits - 1) - 1) in
     let k := snorm_exact v bits in
     exists q,
       quantizeSnorm v bits = Some q /\
       (- (2 ^ (bits - 1) - 1) <= q <= 2 ^ (bits - 1) - 1)%Z /\
       (q = k \/
        q = (k + (if sign_bit v then -1 else 1))%Z /\
        inject_Z (Z.abs k) + (1 # 2) - 2 ^ (Z.log2_up (Z.abs k + 1) - 24) < Qabs x /\
        Qabs x < inject_Z (Z.abs k) + (1 # 2))) /\
  quantizeSnorm lit_zero 8%Z = Some 0%Z /\
  quantizeSnorm lit_one 8%Z = Some 127%Z /\
  quantizeSnorm lit_minus_one 8%Z = Some (-127)%Z.
Proof.
  split; [|vm_compute; repeat split; reflexivity].
  intros v bits Hwf Hfin Hb x k.
  assert (HS : (1 <= 2 ^ (bits - 1) - 1 <= 2 ^ 23 - 1)%Z).
  { assert (2 ^ 1 <= 2 ^ (bits - 1))%Z by (apply Z.pow_le_mono_r; lia).
    assert (2 ^ (bits - 1) <= 2 ^ 23)%Z by (apply Z.pow_le_mono_r; lia). lia. }
  set (S := (2 ^ (bits - 1) - 1)%Z) in *.
  assert (HSQ : 0 < inject_Z S) by (rewrite <- (Zlt_Qlt 0); lia).
  unfold quantizeSnorm. rewrite sub_small by lia. cbn [bind].
  rewrite shl_one by lia. cbn [bind]. rewrite sub_small by lia. cbn [bind]. fold S.
  destruct (snorm_clamp v Hwf Hfin) as (c' & Hn & [H0 H1] & Hcase).
  destruct (of_int_value S) as [Hsn Hsv]; [lia|].
  destruct (scale_round_trunc c' (of_int S) S Hn H1 Hsn Hsv) as (q & Hq & Hk & Hr & Hex); [lia|].
  set (k' := Qfloor (F2Q c' * inject_Z S + (1 # 2))) in *.
  assert (Hy0 : 0 <= F2Q c' * inject_Z S) by (apply Qmult_le_0_compat; [exact H0 | lra]).
  assert (Hk0 : (0 <= k')%Z).
  { subst k'. change 0%Z with (Qfloor 0). apply Qfloor_resp_le. lra. }
  (* the magnitude side, shared by both signs *)
  assert (Hnear : q = (k' + 1)%Z ->
            inject_Z k' + (1 # 2) - 2 ^ (Z.log2_up (k' + 1) - 24) < F2Q c' * inject_Z S /\
            F2Q c' * inject_Z S < inject_Z k' + (1 # 2)).
  { intros Hq1. split.
    - destruct (Qlt_le_dec (inject_Z k' + (1 # 2) - 2 ^ (Z.log2_up (k' + 1) - 24))
                  (F2Q c' * inject_Z S)) as [Hlt | Hle]; [exact Hlt | exfalso].
      pose proof (Z.log2_log2_up_spec (k' + 1) ltac:(lia)) as [_ Hup].
      pose proof (Z.log2_up_nonneg (k' + 1)) as Hl0.
      assert (Hl23 : (Z.log2_up (k' + 1) <= 23)%Z) by (apply Z.log2_up_le_pow2; lia).
      pose proof (scale_round_tie c' (of_int S) S k' (Z.log2_up (k' + 1))
                    Hn H1 Hsn Hsv ltac:(lia) Hk0 Hup (conj Hl0 Hl23) Hle q Hq).
      lia.
    - pose proof (Qlt_floor (F2Q c' * inject_Z S + (1 # 2))) as Hfl.
      fold k' in Hfl. rewrite inject_Z_succ in Hfl. lra. }
  destruct Hcase as [(Hsz & -> & -> & E) | (Hs & Hpos & -> & -> & E)].
  - (* non-negative side *)
    assert (Hspec : k = k').
    { subst k. unfold snorm_exact. fold S. apply round_half_away_nonneg.
      - exact Hy0.
      - rewrite E. reflexivity. }
    assert (Hxe : Qabs x == F2Q c' * inject_Z S).
    { subst x. fold S. rewrite E. apply Qabs_pos. exact Hy0. }
    exists q. rewrite Hspec, Hxe, (Z.abs_eq k') by exact Hk0.
    split; [exact Hq|]. split; [lia|].
    destruct Hk as [-> | Hk1]; [left; reflexivity|].
    destruct Hsz as [Hsf | Hz].
    + right. rewrite Hsf. split; [exact Hk1 | apply Hnear; exact Hk1].
    + left. apply Hex. exists 0%Z. rewrite Hz. ring.
  - (* negative side: the mirror image *)
    assert (Hspec : k = (- k')%Z).
    { subst k. unfold snorm_exact. fold S. apply round_half_away_neg.
      - apply Qmult_lt_0_compat; assumption.
      - rewrite E. ring. }
    assert (Hxe : Qabs x == F2Q c' * inject_Z S).
    { subst x. fold S. rewrite E.
      setoid_replace (- F2Q c' * inject_Z S) with (- (F2Q c' * inject_Z S)) by ring.
      rewrite Qabs_opp. apply Qabs_pos. exact Hy0. }
    exists (- q)%Z. rewrite Hspec, Hxe, Hs, Z.abs_opp, (Z.abs_eq k') by exact Hk0.
    split; [|split; [lia|]].
    + assert (Hx23 : F2Q c' * F2Q (of_int S) < 2 ^ 23).
      { rewrite Hsv, pow2Q_23. apply Qle_lt_trans with (inject_Z S).
        - rewrite <- (Qmult_1_l (inject_Z S)) at 2. apply Qmult_le_compat_r; lra.
        - rewrite <- Zlt_Qlt. lia. }
      destruct (mul_keeps_halves c' (of_int S) Hn Hsn Hx23) as [Hpn _].
      rewrite mul_opp_l by assumption. rewrite add_opp_half by assumption.
      apply to_int_opp; [exact Hq | lia].
    + destruct Hk as [-> | Hk1]; [left; reflexivity | right].
      split; [lia | apply Hnear; exact Hk1].
Qed.

Lemma decode_nan v : wf v -> is_nan v = true -> decode v = S754_nan.
Proof.
  intros Hwf Hn. destruct (fields_of v Hwf) as (s & E & M & F).
  rewrite (is_nan_fields _ _ _ _ F) in Hn.
  apply andb_true_iff in Hn as [HE HM].
  apply Z.eqb_eq in HE. apply negb_true_iff, Z.eqb_neq in HM.
  pose proof (f_M _ _ _ _ F).
  destruct (decode_shape _ _ _ _ F); try reflexivity; lia.
Qed.

Lemma of_int_nonneg S : (0 <= S < 2 ^ 31)%Z -> nonneg_finite (of_int S).
Proof.
  intros HS. unfold of_int. destruct S as [|p|p]; try lia; [exact I|].
  cbn [binary_normalize].
  assert (Hd : (Zpos (digits2_pos p) <= 31)%Z) by (apply digits_le; lia).
  apply (binary_round_between p 0 7); [rewrite fexp32; lia | lia | lia].
Qed.

Lemma quantizeUnorm_nan v bits :
  wf v -> is_nan v = true -> (0 <= bits <= 30)%Z -> quantizeUnorm v bits = Some 0%Z.
Proof.
  intros Hwf Hn Hb.
  assert (HS : (0 <= 2 ^ bits - 1 < 2 ^ 31)%Z).
  { assert (0 < 2 ^ bits)%Z by (apply Z.pow_pos_nonneg; lia).
    assert (2 ^ bits <= 2 ^ 30)%Z by (apply Z.pow_le_mono_r; lia). lia. }
  unfold quantizeUnorm. rewrite shl_one by lia. cbn [bind].
  rewrite sub_small by lia. cbn [bind].
  rewrite (decode_nan v Hwf Hn).
  change (ge S754_nan (of_int 0)) with false. cbv iota.
  change (le (of_int 0) (of_int 1)) with true. cbv iota.
  pose proof (of_int_nonneg _ HS) as Hs.
  destruct (of_int (2 ^ bits - 1)) as [s|s| |[|] m e]; cbn [nonneg_finite] in Hs;
    try contradiction; reflexivity.
Qed.

Lemma quantizeSnorm_nan v bits :
  wf v -> is_nan v = true -> (1 <= bits <= 24)%Z ->
  quantizeSnorm v bits = Some (- (2 ^ (bits - 1) - 1))%Z.
Proof.
  intros Hwf Hn Hb.
  assert (HS : (0 <= 2 ^ (bits - 1) - 1 <= 2 ^ 23 - 1)%Z).
  { assert (0 < 2 ^ (bits - 1))%Z by (apply Z.pow_pos_nonneg; lia).
    assert (2 ^ (bits - 1) <= 2 ^ 23)%Z by (apply Z.pow_le_mono_r; lia). lia. }
  set (S := (2 ^ (bits - 1) - 1)%Z) in *.
  unfold quantizeSnorm. rewrite sub_small by lia. cbn [bind].
  rewrite shl_one by lia. cbn [bind]. rewrite sub_small by lia. cbn [bind]. fold S.
  rewrite (decode_nan v Hwf Hn).
  change (ge S754_nan (of_int 0)) with false.
  change (ge S754_nan (of_int (-1))) with false. cbv iota.
  change (le (of_int (-1)) (of_int 1)) with true. cbv iota.
  change (of_int (-1)) with (SFopp (of_int 1)).
  destruct (of_int_value S) as [Hsn Hsv]; [lia|].
  assert (H1n : nonneg_finite (of_int 1)) by exact I.
  assert (H11 : F2Q (of_int 1) <= 1) by (rewrite F2Q_one; apply Qle_refl).
  destruct (scale_round_trunc (of_int 1) (of_int S) S H1n H11 Hsn Hsv HS)
    as (q & Hq & _ & Hr & Hex).
  assert (Hk : q = S).
  { rewrite Hex.
    - apply Qfloor_unique; rewrite F2Q_one; [|rewrite inject_Z_succ]; lra.
    - exists (2 * S)%Z. rewrite F2Q_one, even_half. ring. }
  subst q.
  assert (Hx23 : F2Q (of_int 1) * F2Q (of_int S) < 2 ^ 23).
  { rewrite F2Q_one, Hsv, pow2Q_23, Qmult_1_l. rewrite <- Zlt_Qlt. lia. }
  destruct (mul_keeps_halves _ _ H1n Hsn Hx23) as [Hpn _].
  rewrite mul_opp_l by assumption. rewrite add_opp_half by assumption.
  apply to_int_opp; [exact Hq | lia].
Qed.

(** At 25 bits the scale plus one half is no binary32 value any more. *)
Lemma quantizeSnorm_nan_25_bits :
  ~ (forall v bits, wf v -> is_nan v = true ->
       quantizeUnorm v bits = Some 0%Z /\
       quantizeSnorm v bits = Some (- (2 ^ (bits - 1) - 1))%Z).
Proof.
  intros H. destruct (H lit_nan 25%Z) as [_ H2]; [unfold wf; vm_compute; split; easy | reflexivity |].
  vm_compute in H2. discriminate H2.
Qed.

(** C10 (as amended): a NaN input takes the clamp branches: [quantizeUnorm]
    returns 0 at every width whose shift is defined, and [quantizeSnorm]
    returns [-(2^(bits-1) - 1)] at every width from 1 to 24. *)
Theorem quantize_fixed_nan v :
  wf v -> is_nan v = true ->
  (forall bits, (0 <= bits <= 30)%Z -> quantizeUnorm v bits = Some 0%Z) /\
  (forall bits, (1 <= bits <= 24)%Z ->
     quantizeSnorm v bits = Some (- (2 ^ (bits - 1) - 1))%Z).
Proof.
  intros Hwf Hn. split; intros bits Hb.
  - now apply quantizeUnorm_nan.
  - now apply quantizeSnorm_nan.
Qed.

Lemma quantize_fixed_nan_witness :
  quantizeUnorm 0xffc00001%Z 8%Z = Some 0%Z /\ quantizeSnorm 0xffc00001%Z 8%Z = Some (-127)%Z.
Proof.
  destruct (quantize_fixed_nan 0xffc00001%Z) as [HU HS];
    [unfold wf; vm_compute; split; easy | reflexivity |].
  split; [apply (HU 8%Z) | apply (HS 8%Z)]; vm_compute; split; easy.
Defined.

(** Counterexamples to exact rounding, and the test vectors. *)
Lemma quantizeUnorm_double_rounding :
  ~ (forall v bits, wf v -> is_finite v = true -> (1 <= bits <= 23)%Z ->
       quantizeUnorm v bits = Some (unorm_exact v bits)).
Proof.
  intros H. specialize (H 0x3b008080%Z 8%Z).
  assert (Hc : quantizeUnorm 0x3b008080%Z 8%Z = Some 1%Z) by (vm_compute; reflexivity).
  assert (Hs : unorm_exact 0x3b008080%Z 8%Z = 0%Z) by (vm_compute; reflexivity).
  rewrite Hc, Hs in H. discriminate H; [unfold wf; lia | reflexivity | lia].
Qed.

Lemma quantizeSnorm_double_rounding :
  ~ (forall v bits, wf v -> is_finite v = true -> (2 <= bits <= 24)%Z ->
       quantizeSnorm v bits = Some (snorm_exact v bits)).
Proof.
  intros H. specialize (H 0xbb810204%Z 8%Z).
  assert (Hc : quantizeSnorm 0xbb810204%Z 8%Z = Some (-1)%Z) by (vm_compute; reflexivity).
  assert (Hs : snorm_exact 0xbb810204%Z 8%Z = 0%Z) by (vm_compute; reflexivity).
  rewrite Hc, Hs in H. discriminate H; [unfold wf; lia | reflexivity | lia].
Qed.

Lemma quantizeUnorm_spec_witness :
  exists q,
    quantizeUnorm 0x3b008080%Z 8%Z = Some q /\
    (0 <= q <= 2 ^ 8 - 1)%Z /\
    (q = unorm_exact 0x3b008080%Z 8%Z \/
     q = (unorm_exact 0x3b008080%Z 8%Z + 1)%Z /\
     inject_Z (unorm_exact 0x3b008080%Z 8%Z) + (1 # 2)
       - 2 ^ (Z.log2_up (unorm_exact 0x3b008080%Z 8%Z + 1) - 24)
     < clampQ 0 1 (F2Q (decode 0x3b008080%Z)) * inject_Z (2 ^ 8 - 1) /\
     clampQ 0 1 (F2Q (decode 0x3b008080%Z)) * inject_Z (2 ^ 8 - 1)
     < inject_Z (unorm_exact 0x3b008080%Z 8%Z) + (1 # 2)).
Proof.
  destruct quantizeUnorm_spec as [H _].
  apply (H 0x3b008080%Z 8%Z);
    [unfold wf; vm_compute; split; easy | reflexivity | vm_compute; split; easy].
Defined.

Lemma quantizeSnorm_spec_witness :
  exists q,
    quantizeSnorm 0xbb810204%Z 8%Z = Some q /\
    (- (2 ^ (8 - 1) - 1) <= q <= 2 ^ (8 - 1) - 1)%Z /\
    (q = snorm_exact 0xbb810204%Z 8%Z \/
     q = (snorm_exact 0xbb810204%Z 8%Z + -1)%Z /\
     inject_Z (Z.abs (snorm_exact 0xbb810204%Z 8%Z)) + (1 # 2)
       - 2 ^ (Z.log2_up (Z.abs (snorm_exact 0xbb810204%Z 8%Z) + 1) - 24)
     < Qabs (clampQ (-1) 1 (F2Q (decode 0xbb810204%Z)) * inject_Z (2 ^ (8 - 1) - 1)) /\
     Qabs (clampQ (-1) 1 (F2Q (decode 0xbb810204%Z)) * inject_Z (2 ^ (8 - 1) - 1))
     < inject_Z (Z.abs (snorm_exact 0xbb810204%Z 8%Z)) + (1 # 2)).
Proof.
  destruct quantizeSnorm_spec as [H _].
  apply (H 0xbb810204%Z 8%Z);
    [unfold wf; vm_compute; split; easy | reflexivity | vm_compute; split; easy].
Defined.


Local Close Scope Q_scope.

(** ** The helpers as calls *)

(** At [FE_TONEAREST] the operations in a rounding direction are those
    of [SpecFloat]. *)
Lemma fenv_mul_nearest x y : Fenv.mul Fenv.FE_TONEAREST x y = mul x y.
Proof. destruct x as [?|?| |? ? ?]; destruct y as [?|?| |? ? ?]; reflexivity. Qed.

Lemma fenv_add_nearest x y : Fenv.add Fenv.FE_TONEAREST x y = add x y.
Proof.
  destruct x as [[|]|[|]| |? ? ?]; destruct y as [[|]|[|]| |? ? ?]; reflexivity.
Qed.

Lemma fenv_of_int_nearest n : Fenv.of_int Fenv.FE_TONEAREST n = of_int n.
Proof. destruct n; reflexivity. Qed.

Lemma quantizeUnorm_in_nearest v bits :
  quantizeUnorm_in Fenv.FE_TONEAREST v bits = quantizeUnorm v bits.
Proof.
  unfold quantizeUnorm_in, quantizeUnorm.
  destruct (Int32.shl 1 bits) as [n|]; [|reflexivity]. cbn [bind].
  destruct (Int32.sub n 1) as [n1|]; [|reflexivity]. cbn [bind].
  now rewrite !fenv_of_int_nearest, fenv_mul_nearest, fenv_add_nearest.
Qed.

Lemma quantizeSnorm_in_nearest v bits :
  quantizeSnorm_in Fenv.FE_TONEAREST v bits = quantizeSnorm v bits.
Proof.
  unfold quantizeSnorm_in, quantizeSnorm.
  destruct (Int32.sub bits 1) as [b1|]; [|reflexivity]. cbn [bind].
  destruct (Int32.shl 1 b1) as [n|]; [|reflexivity]. cbn [bind].
  destruct (Int32.sub n 1) as [n1|]; [|reflexivity]. cbn [bind].
  now rewrite !fenv_of_int_nearest, fenv_mul_nearest, fenv_add_nearest.
Qed.

(** A call reads the rounding direction of its world, nothing else of it,
    and gives the world back. *)
Lemma call_quantizeUnorm_run (Memory : Type) v bits (w : World Memory) :
  call_quantizeUnorm Memory v bits w
  = (quantizeUnorm_in (rounding_direction Memory w) v bits, w).
Proof.
  unfold call_quantizeUnorm, quantizeUnorm_in, and_then, value, float_of_int, float_mul, float_add.
  destruct (Int32.shl 1 bits) as [n|]; [|reflexivity]. cbn [bind].
  destruct (Int32.sub n 1) as [n1|]; reflexivity.
Qed.

Lemma call_quantizeSnorm_run (Memory : Type) v bits (w : World Memory) :
  call_quantizeSnorm Memory v bits w
  = (quantizeSnorm_in (rounding_direction Memory w) v bits, w).
Proof.
  unfold call_quantizeSnorm, quantizeSnorm_in, and_then, value, float_of_int, float_mul, float_add.
  destruct (Int32.sub bits 1) as [b1|]; [|reflexivity]. cbn [bind].
  destruct (Int32.shl 1 b1) as [n|]; [|reflexivity]. cbn [bind].
  destruct (Int32.sub n 1) as [n1|]; reflexivity.
Qed.




(** C7: the defaults the header declares.  A call of [optimizePostTransform]
    or [optimizeOverdraw] without [cache_size] hands the body 16, and is the
    call with 16; a call of [analyzePostTransform] without it hands the body
    32, and is the call with 32; a call of [optimizeOverdraw] without
    [threshold] hands the body [1.0f], and is the call with [1.0f]; the
    [clusters] pointer left out is null. *)
Theorem default_arguments
    (Indices Positions Clusters Stats : Type)
    (post : Indices -> Z -> Z -> Z -> option Clusters -> Indices * option Clusters)
    (overdraw : Indices -> Z -> Positions -> Z -> Z -> Clusters -> Z -> float32 -> Indices)
    (analyze : Indices -> Z -> Z -> Z -> Stats)
    (indices : Indices) (index_count vertex_count stride : Z) (positions : Positions)
    (clusters : Clusters) (out_clusters : option (option Clusters))
    (cache_size : option Z) (threshold : option float32) (given : Z) :
  (* what the body receives *)
  Api.optimizePostTransform Indices Clusters post indices index_count vertex_count None None
  = post indices index_count vertex_count 16 None /\
  Api.optimizePostTransform Indices Clusters post indices index_count vertex_count
    (Some given) None
  = post indices index_count vertex_count given None /\
  Api.optimizeOverdraw Indices Positions Clusters overdraw indices index_count positions
    stride vertex_count clusters None None
  = overdraw indices index_count positions stride vertex_count clusters 16 0x3f800000 /\
  Api.optimizeOverdraw Indices Positions Clusters overdraw indices index_count positions
    stride vertex_count clusters (Some given) None
  = overdraw indices index_count positions stride vertex_count clusters given 0x3f800000 /\
  Api.analyzePostTransform Indices Stats analyze indices index_count vertex_count None
  = analyze indices index_count vertex_count 32 /\
  (* the call without the argument is the call with the default *)
  Api.optimizePostTransform Indices Clusters post indices index_count vertex_count
    None out_clusters
  = Api.optimizePostTransform Indices Clusters post indices index_count vertex_count
      (Some 16) out_clusters /\
  Api.optimizeOverdraw Indices Positions Clusters overdraw indices index_count positions
    stride vertex_count clusters None threshold
  = Api.optimizeOverdraw Indices Positions Clusters overdraw indices index_count positions
      stride vertex_count clusters (Some 16) threshold /\
  Api.analyzePostTransform Indices Stats analyze indices index_count vertex_count None
  = Api.analyzePostTransform Indices Stats analyze indices index_count vertex_count (Some 32) /\
  Api.optimizeOverdraw Indices Positions Clusters overdraw indices index_count positions
    stride vertex_count clusters cache_size None
  = Api.optimizeOverdraw Indices Positions Clusters overdraw indices index_count positions
      stride vertex_count clusters cache_size (Some lit_one) /\
  lit_one = 0x3f800000 /\
  decode 0x3f800000 = of_int 1.
Proof.
  repeat split.
Qed.

Import Mesh.
Local Open Scope nat_scope.

Lemma triangles_indices_of ts : triangles (indices_of ts) = ts.
Proof.
  induction ts as [|[[a b] c] ts IH]; [reflexivity|].
  change (indices_of ((a, b, c) :: ts)) with (a :: b :: c :: indices_of ts).
  cbn [triangles]. now rewrite IH.
Qed.

Lemma triangles_in_range indices n :
  Forall (fun i => i < n) indices ->
  Forall (fun t => Forall (fun i => i < n) (corners t)) (triangles indices).
Proof.
  revert indices. fix IH 1. intros [|a [|b [|c rest]]] H; try constructor.
  - inversion H as [|? ? Ha H1]; subst. inversion H1 as [|? ? Hb H2]; subst.
    inversion H2 as [|? ? Hc H3]; subst. cbn. repeat constructor; assumption.
  - apply IH. inversion H as [|? ? _ H1]; subst. inversion H1 as [|? ? _ H2]; subst.
    now inversion H2.
Qed.

Lemma map_nth_seq {A : Type} (l : list A) (d : A) :
  map (fun i => nth i l d) (seq 0 (length l)) = l.
Proof.
  apply nth_ext with (d := d) (d' := d).
  - now rewrite length_map, length_seq.
  - intros n Hn. rewrite length_map, length_seq in Hn.
    rewrite (nth_indep _ d (nth 0 l d)) by (now rewrite length_map, length_seq).
    rewrite (map_nth (fun i => nth i l d)), seq_nth by assumption. reflexivity.
Qed.

Lemma find_seq_first (p : nat -> bool) a n v :
  find p (seq a n) = Some v ->
  a <= v < a + n /\ p v = true /\ forall w, a <= w < v -> p w = false.
Proof.
  revert a. induction n as [|n IH]; intros a; cbn [seq find]; [discriminate|].
  destruct (p a) eqn:Hp.
  - intros [= <-]. repeat split; try lia; assumption.
  - intros H. destruct (IH _ H) as (Hr & Hv & Hbefore).
    repeat split; try lia; [assumption|].
    intros w Hw. destruct (Nat.eq_dec w a) as [->|]; [assumption | apply Hbefore; lia].
Qed.

Lemma find_seq_none (p : nat -> bool) a n :
  find p (seq a n) = None -> forall w, a <= w < a + n -> p w = false.
Proof.
  intros H w Hw. apply (find_none _ _ H). apply in_seq. lia.
Qed.

Lemma is_nil_true {A : Type} (l : list A) : is_nil l = true <-> l = [].
Proof. destruct l; cbn; split; congruence. Qed.

Section PostTransformFacts.
Variable tris : list triangle.
Variables vertex_count cache_size : nat.

Local Abbreviation state := (tipsify_state).
Local Abbreviation live := (Mesh.live tris).
Local Abbreviation emit_fan := (Mesh.emit_fan tris).
Local Abbreviation next_vertex := (Mesh.next_vertex tris vertex_count cache_size).
Local Abbreviation walk_invariant := (Mesh.walk_invariant tris).

Lemma existsb_eqb_In t l : existsb (Nat.eqb t) l = true <-> In t l.
Proof.
  rewrite existsb_exists. split.
  - intros (x & Hx & E). apply Nat.eqb_eq in E. now subst.
  - intros H. exists t. split; [assumption | apply Nat.eqb_refl].
Qed.

Lemma in_live st v t :
  In t (live st v) <->
  t < length tris /\ has_corner v (tri tris t) = true /\ ~ In t (output st).
Proof.
  unfold Mesh.live, adjacency, emitted. rewrite !filter_In, in_seq, negb_true_iff.
  rewrite <- not_true_iff_false, existsb_eqb_In. intuition lia.
Qed.

Lemma live_NoDup st v : NoDup (live st v).
Proof. unfold Mesh.live, adjacency. do 2 apply NoDup_filter. apply seq_NoDup. Qed.

(** More output leaves fewer live triangles. *)
Lemma live_nil_mono st st' v :
  incl (output st) (output st') -> live st v = [] -> live st' v = [].
Proof.
  intros Hincl Hnil. destruct (live st' v) as [|t l] eqn:E; [reflexivity | exfalso].
  assert (Ht : In t (live st' v)) by (rewrite E; now left).
  apply in_live in Ht as (H1 & H2 & H3).
  assert (Hin : In t (live st v)).
  { apply in_live. repeat split; try assumption. intros Ho. apply H3, Hincl, Ho. }
  rewrite Hnil in Hin. exact Hin.
Qed.

Lemma stamps_keep vs st :
  output (fold_left stamp vs st) = output st /\
  cursor (fold_left stamp vs st) = cursor st /\
  clusters (fold_left stamp vs st) = clusters st.
Proof.
  revert st. induction vs as [|v vs IH]; intros st; cbn [fold_left]; [auto|].
  destruct (IH (stamp st v)) as (-> & -> & ->). auto.
Qed.

Lemma emit_triangle_output st t :
  output (emit_triangle tris st t) = output st ++ [t] /\
  cursor (emit_triangle tris st t) = cursor st.
Proof.
  unfold emit_triangle. cbn [output cursor].
  destruct (stamps_keep (corners (tri tris t)) st) as (-> & -> & _). auto.
Qed.

Lemma emit_all_output ts st :
  output (fold_left (emit_triangle tris) ts st) = output st ++ ts /\
  cursor (fold_left (emit_triangle tris) ts st) = cursor st.
Proof.
  revert st. induction ts as [|t ts IH]; intros st; cbn [fold_left].
  - now rewrite app_nil_r.
  - destruct (IH (emit_triangle tris st t)) as [-> ->].
    destruct (emit_triangle_output st t) as [-> ->].
    now rewrite <- app_assoc.
Qed.

Lemma emit_fan_output st f :
  output (emit_fan st f) = output st ++ live st f /\ cursor (emit_fan st f) = cursor st.
Proof. apply emit_all_output. Qed.

Lemma best_some st c cs :
  exists f, fold_left
    (fun acc v =>
       match acc with
       | None => Some v
       | Some w => if (priority tris st w <? priority tris st v)%Z then Some v else Some w
       end) cs (Some c) = Some f /\ (f = c \/ In f cs).
Proof.
  revert c. induction cs as [|v cs IH]; intros c; cbn [fold_left].
  - exists c. auto.
  - destruct (priority tris st c <? priority tris st v)%Z.
    + destruct (IH v) as (f & Hf & Hg). exists f. split; [exact Hf|].
      destruct Hg as [Hg | Hg]; cbn; auto.
    + destruct (IH c) as (f & Hf & Hg). exists f. split; [exact Hf|].
      destruct Hg as [Hg | Hg]; cbn; auto.
Qed.

Lemma best_In st cs f : best tris st cs = Some f -> In f cs.
Proof.
  unfold best. destruct cs as [|c cs]; cbn [fold_left]; [discriminate|].
  destruct (best_some st c cs) as (g & -> & Hg). intros [= <-].
  destruct Hg as [Hg | Hg]; [left; now symmetry | now right].
Qed.

Lemma best_none st cs : best tris st cs = None -> cs = [].
Proof.
  unfold best. destruct cs as [|c cs]; cbn [fold_left]; [reflexivity|].
  destruct (best_some st c cs) as (g & -> & _). discriminate.
Qed.

Lemma next_vertex_some st f st' :
  walk_invariant st -> next_vertex st = Some (f, st') ->
  walk_invariant st' /\ output st' = output st /\ live st' f <> [].
Proof.
  intros (Hnd & Hb & Hc). unfold Mesh.next_vertex.
  destruct (best tris st (candidates tris vertex_count cache_size st)) as [g|] eqn:Hbest.
  - intros [= <- <-]. split; [now repeat split|]. split; [reflexivity|].
    apply best_In in Hbest. unfold candidates in Hbest.
    apply filter_In in Hbest as [_ Hg]. apply andb_true_iff in Hg as [_ Hg].
    apply negb_true_iff in Hg. intros E. apply is_nil_true in E. congruence.
  - destruct (find _ _) as [v|] eqn:Hfind; [|discriminate].
    intros [= <- <-]. apply find_seq_first in Hfind as (Hr & Hv & Hbefore).
    apply negb_true_iff in Hv.
    split; [|split; [reflexivity|]].
    + repeat split; cbn [output cursor]; try assumption.
      intros w Hw. destruct (Nat.lt_ge_cases w (cursor st)) as [Hlt | Hge].
      * apply (live_nil_mono st); [apply incl_refl | now apply Hc].
      * specialize (Hbefore w (conj Hge Hw)). apply negb_false_iff, is_nil_true in Hbefore.
        apply (live_nil_mono st); [apply incl_refl | exact Hbefore].
    + intros E. 
      assert (E' : live st v = []) by (apply (live_nil_mono _ st) in E; [exact E | apply incl_refl]).
      apply is_nil_true in E'. congruence.
Qed.

Lemma emit_fan_invariant st f :
  walk_invariant st -> walk_invariant (emit_fan st f).
Proof.
  intros (Hnd & Hb & Hc). destruct (emit_fan_output st f) as [Ho Hcur].
  repeat split.
  - rewrite Ho. apply NoDup_app; [assumption | apply live_NoDup |].
    intros t Hin Hl. apply in_live in Hl. tauto.
  - rewrite Ho. intros t Hin. apply in_app_or in Hin as [Hin | Hin]; [now apply Hb|].
    apply in_live in Hin. tauto.
  - rewrite Hcur. intros w Hw. apply (live_nil_mono st); [|now apply Hc].
    rewrite Ho. now apply incl_appl, incl_refl.
Qed.

Lemma next_vertex_none st :
  Forall (fun t => Forall (fun i => i < vertex_count) (corners t)) tris ->
  walk_invariant st -> next_vertex st = None ->
  forall t, t < length tris -> In t (output st).
Proof.
  intros Hwf (Hnd & Hb & Hc). unfold Mesh.next_vertex.
  destruct (best tris st _) as [g|] eqn:Hbest; [discriminate|].
  destruct (find _ _) as [v|] eqn:Hfind; [discriminate|]. intros _ t Ht.
  assert (Hall : forall w, w < vertex_count -> live st w = []).
  { intros w Hw. destruct (Nat.lt_ge_cases w (cursor st)) as [Hlt | Hge]; [now apply Hc|].
    pose proof (find_seq_none _ _ _ Hfind w) as H. cbv beta in H.
    apply is_nil_true, negb_false_iff, H. lia. }
  destruct (in_dec Nat.eq_dec t (output st)) as [|Hnot]; [assumption | exfalso].
  rewrite Forall_forall in Hwf. specialize (Hwf (tri tris t) (nth_In _ _ Ht)).
  destruct (tri tris t) as [[a b] c] eqn:Etri. cbn [corners] in Hwf.
  inversion Hwf as [|? ? Ha _]; subst.
  assert (Hin : In t (live st a)).
  { apply in_live. repeat split; try assumption.
    rewrite Etri. unfold has_corner. cbn. now rewrite Nat.eqb_refl. }
  rewrite (Hall a Ha) in Hin. exact Hin.
Qed.

Lemma tipsify_complete fuel st :
  Forall (fun t => Forall (fun i => i < vertex_count) (corners t)) tris ->
  walk_invariant st ->
  let st' := tipsify tris vertex_count cache_size fuel st in
  walk_invariant st' /\
  (length (output st) + fuel <= length (output st') \/
   forall t, t < length tris -> In t (output st')).
Proof.
  intros Hwf. revert st. induction fuel as [|fuel IH]; intros st Hinv; cbn [tipsify].
  - split; [assumption | left; lia].
  - destruct (next_vertex st) as [[f st1]|] eqn:Hnext.
    + destruct (next_vertex_some _ _ _ Hinv Hnext) as (Hinv1 & Ho1 & Hlive).
      pose proof (emit_fan_invariant st1 f Hinv1) as Hinv2.
      destruct (IH _ Hinv2) as [Hinv3 Hprog]. split; [assumption|].
      destruct Hprog as [Hlen | Hall]; [left | now right].
      destruct (emit_fan_output st1 f) as [Ho2 _]. rewrite Ho2, length_app, Ho1 in Hlen.
      destruct (live st1 f); [congruence | cbn [length] in Hlen; lia].
    + split; [assumption | right]. now apply next_vertex_none.
Qed.

End PostTransformFacts.

Lemma optimizePostTransform_permutes indices vertex_count cache_size :
  Forall (fun i => i < vertex_count) indices ->
  Permutation (triangles (fst (optimizePostTransform indices vertex_count cache_size)))
              (triangles indices).
Proof.
  intros Hwf. unfold optimizePostTransform. cbn [fst]. rewrite triangles_indices_of.
  set (tris := triangles indices).
  set (st := tipsify tris vertex_count cache_size (length tris) (initial vertex_count cache_size)).
  assert (Hinit : walk_invariant tris (initial vertex_count cache_size)).
  { repeat split; cbn; [constructor | contradiction | lia]. }
  destruct (tipsify_complete tris vertex_count cache_size (length tris) _
              (triangles_in_range _ _ Hwf) Hinit) as [(Hnd & Hb & _) Hdone].
  fold st in Hnd, Hb, Hdone. cbn [initial output length] in Hdone.
  assert (Hperm : Permutation (output st) (seq 0 (length tris))).
  { apply NoDup_Permutation_bis; [assumption | |].
    - destruct Hdone as [Hlen | Hall]; [rewrite length_seq; lia|].
      apply NoDup_incl_length; [apply seq_NoDup|].
      intros t Ht. apply in_seq in Ht. apply Hall. lia.
    - intros t Ht. apply in_seq. specialize (Hb t Ht). lia. }
  rewrite <- (map_nth_seq tris (0, 0, 0)) at 2.
  apply Permutation_map. exact Hperm.
Qed.

Lemma slices_concat tris lo rest :
  increasing (lo :: rest) -> Forall (fun c => c <= length tris) (lo :: rest) ->
  concat (slices tris (lo :: rest)) = skipn lo tris.
Proof.
  revert lo. induction rest as [|hi rest IH]; intros lo Hinc Hb.
  - cbn [slices concat]. rewrite app_nil_r. apply firstn_all2.
    rewrite length_skipn. lia.
  - change (slices tris (lo :: hi :: rest))
      with (firstn (hi - lo) (skipn lo tris) :: slices tris (hi :: rest)).
    cbn [concat]. destruct Hinc as [Hlt Hinc]. inversion Hb as [|? ? Hlo Hb']; subst.
    rewrite (IH hi Hinc Hb').
    replace (skipn hi tris) with (skipn (hi - lo) (skipn lo tris))
      by (rewrite skipn_skipn; f_equal; lia).
    apply firstn_skipn.
Qed.

Lemma slices_length tris starts : length (slices tris starts) = length starts.
Proof. induction starts as [|lo rest IH]; cbn [slices length]; congruence. Qed.

Lemma remove_first_Permutation c l : In c l -> Permutation (c :: remove_first c l) l.
Proof.
  induction l as [|y l IH]; [contradiction|]. cbn [remove_first].
  destruct (Nat.eqb_spec c y) as [-> | Hne]; [reflexivity|].
  intros [-> | Hin]; [contradiction|].
  rewrite perm_swap. now rewrite IH.
Qed.

Section OverdrawFacts.
Variable penalty : list nat -> nat -> Z.
Variable within_threshold : list nat -> nat -> bool.
Variable excess : list nat -> nat -> Z.

Lemma argmin_In key x l : In (argmin key x l) (x :: l).
Proof.
  revert x. induction l as [|y l IH]; intros x; cbn [argmin]; [now left|].
  destruct (better key y x).
  - destruct (IH y) as [E | Hin]; [right; left; exact E | right; right; exact Hin].
  - destruct (IH x) as [E | Hin]; [left; exact E | right; right; exact Hin].
Qed.

Lemma choose_In chosen remaining c :
  choose penalty within_threshold excess chosen remaining = Some c -> In c remaining.
Proof.
  unfold choose. destruct (filter (within_threshold chosen) remaining) as [|a cs] eqn:Ef.
  - destruct remaining as [|b l]; [discriminate|]. intros [= <-]. apply argmin_In.
  - intros [= <-]. pose proof (argmin_In (penalty chosen) a cs) as Hin.
    rewrite <- Ef in Hin. now apply filter_In in Hin.
Qed.

Lemma choose_none chosen remaining :
  choose penalty within_threshold excess chosen remaining = None -> remaining = [].
Proof.
  unfold choose. destruct (filter _ remaining); [|discriminate].
  destruct remaining; [reflexivity | discriminate].
Qed.

(** The greedy order is an order of all the clusters. *)
Lemma order_clusters_Permutation fuel chosen remaining :
  length remaining <= fuel ->
  Permutation (order_clusters penalty within_threshold excess fuel chosen remaining)
              (chosen ++ remaining).
Proof.
  revert chosen remaining. induction fuel as [|fuel IH]; intros chosen remaining Hlen;
    cbn [order_clusters].
  - destruct remaining; [now rewrite app_nil_r | cbn in Hlen; lia].
  - destruct (choose _ _ _ chosen remaining) as [c|] eqn:Hc.
    + pose proof (remove_first_Permutation c remaining (choose_In _ _ _ Hc)) as Hp.
      rewrite IH.
      * rewrite <- app_assoc. apply Permutation_app_head. exact Hp.
      * apply Permutation_length in Hp. cbn [length] in Hp. lia.
    + apply choose_none in Hc. subst. now rewrite app_nil_r.
Qed.

Lemma optimizeOverdraw_permutes indices clusters :
  clusters_wf clusters (length (triangles indices)) ->
  Permutation
    (triangles (optimizeOverdraw penalty within_threshold excess indices clusters))
    (triangles indices).
Proof.
  intros (Hhd & Hinc & Hb). unfold optimizeOverdraw. rewrite triangles_indices_of.
  set (tris := triangles indices) in *. set (parts := slices tris clusters).
  rewrite (order_clusters_Permutation (length clusters) [] (seq 0 (length clusters)))
    by (now rewrite length_seq).
  cbn [app]. rewrite flat_map_concat_map.
  rewrite <- (slices_length tris clusters). fold parts. rewrite map_nth_seq.
  subst parts. destruct clusters as [|lo rest].
  - destruct tris; [reflexivity | discriminate Hhd].
  - subst lo. now rewrite slices_concat.
Qed.

End OverdrawFacts.

Lemma first_uses_spec seen l x :
  In x (first_uses seen l) <-> In x l /\ ~ In x seen.
Proof.
  revert seen. induction l as [|i l IH]; intros seen; cbn [first_uses].
  - cbn. tauto.
  - destruct (existsb (Nat.eqb i) seen) eqn:E.
    + apply existsb_eqb_In in E. rewrite IH. cbn. intuition (subst; tauto).
    + assert (Hi : ~ In i seen) by (rewrite <- existsb_eqb_In; congruence).
      cbn [In]. rewrite IH. cbn [In].
      destruct (Nat.eq_dec i x) as [-> | Hne]; [tauto|]. intuition congruence.
Qed.

Lemma first_uses_NoDup seen l : NoDup (first_uses seen l).
Proof.
  revert seen. induction l as [|i l IH]; intros seen; cbn [first_uses]; [constructor|].
  destruct (existsb (Nat.eqb i) seen); [apply IH|].
  constructor; [|apply IH]. rewrite first_uses_spec. cbn. tauto.
Qed.

Lemma vertex_order_Permutation indices vertex_count :
  Forall (fun i => i < vertex_count) indices ->
  Permutation (vertex_order indices vertex_count) (seq 0 vertex_count).
Proof.
  intros Hwf. rewrite Forall_forall in Hwf. unfold vertex_order.
  set (used := first_uses [] indices).
  apply NoDup_Permutation.
  - apply NoDup_app; [apply first_uses_NoDup | apply NoDup_filter, seq_NoDup |].
    intros x Hx Hf. apply filter_In in Hf as [_ Hf]. apply negb_true_iff in Hf.
    rewrite <- not_true_iff_false, existsb_eqb_In in Hf. contradiction.
  - apply seq_NoDup.
  - intros x. rewrite in_app_iff, filter_In, in_seq, negb_true_iff.
    rewrite <- not_true_iff_false, existsb_eqb_In. subst used.
    rewrite first_uses_spec. split.
    + intros [[Hin _] | [Hr _]]; [specialize (Hwf x Hin); lia | exact Hr].
    + intros Hr. destruct (in_dec Nat.eq_dec x indices) as [Hin | Hnot].
      * left. split; [assumption | intros []].
      * right. split; [exact Hr|]. intros [Hin _]. contradiction.
Qed.

Lemma position_spec v order d :
  In v order -> position v order < length order /\ nth (position v order) order d = v.
Proof.
  induction order as [|w order IH]; [contradiction|]. cbn [position].
  destruct (Nat.eqb_spec v w) as [-> | Hne].
  - intros _. cbn. split; [lia | reflexivity].
  - intros [-> | Hin]; [contradiction|]. destruct (IH Hin) as [Hlt Hn].
    cbn [length nth]. split; [lia | exact Hn].
Qed.

(** The rewritten indices refer, in [destination], to the vertices the
    input indices refer to in [vertices]; [destination] holds every vertex
    once. *)
Lemma optimizePreTransform_renames {V : Type} (d : V) vertices indices vertex_count :
  Forall (fun i => i < vertex_count) indices -> length vertices = vertex_count ->
  let r := optimizePreTransform d vertices indices vertex_count in
  map (fun i => nth i (fst r) d) (snd r) = map (fun i => nth i vertices d) indices /\
  Permutation (fst r) vertices /\
  length (snd r) = length indices.
Proof.
  intros Hwf Hlen r. subst r. unfold optimizePreTransform. cbn [fst snd].
  pose proof (vertex_order_Permutation indices vertex_count Hwf) as Hperm.
  set (order := vertex_order indices vertex_count) in *.
  split; [|split].
  - rewrite map_map. apply map_ext_in. intros i Hi.
    assert (Hin : In i order).
    { apply (Permutation_in _ (Permutation_sym Hperm)). apply in_seq.
      rewrite Forall_forall in Hwf. specialize (Hwf i Hi). lia. }
    destruct (position_spec i order 0 Hin) as [Hlt Hn].
    rewrite (nth_indep _ d (nth 0 vertices d)) by (now rewrite length_map).
    rewrite (map_nth (fun v => nth v vertices d)), Hn. reflexivity.
  - apply Permutation_trans with (map (fun v => nth v vertices d) (seq 0 vertex_count));
      [now apply Permutation_map|].
    rewrite <- Hlen, map_nth_seq. reflexivity.
  - apply length_map.
Qed.

(** The rewritten index buffer holds other index values than the input. *)
Lemma optimizePreTransform_renumbers :
  ~ (forall (vertices : list nat) indices vertex_count,
       well_formed indices vertex_count -> length vertices = vertex_count ->
       same_triangles (snd (optimizePreTransform 0 vertices indices vertex_count)) indices).
Proof.
  intros H. specialize (H [10; 11; 12; 13] [3; 2; 1] 4).
  assert (Hwf : well_formed [3; 2; 1] 4) by (split; [reflexivity | repeat constructor]).
  specialize (H Hwf eq_refl). unfold same_triangles in H. cbn in H.
  apply Permutation_length_1_inv in H. discriminate H.
Qed.

Lemma increasing_snoc l x :
  increasing l -> Forall (fun c => c < x) l -> increasing (l ++ [x]).
Proof.
  induction l as [|a l IH]; intros Hinc Hlt; [exact I|].
  inversion Hlt as [|? ? Ha Hl]; subst.
  destruct l as [|b l]; [cbn; auto|].
  destruct Hinc as [Hab Hinc]. split; [exact Hab|]. apply IH; assumption.
Qed.

Lemma filter_none {A : Type} (p : A -> bool) l :
  (forall x, In x l -> p x = false) -> filter p l = [].
Proof.
  induction l as [|a l IH]; intros H; cbn [filter]; [reflexivity|].
  rewrite (H a) by now left. apply IH. intros x Hx. apply H. now right.
Qed.

Section ClusterFacts.
Variable tris : list triangle.
Variables vertex_count cache_size : nat.

Local Abbreviation live := (Mesh.live tris).
Local Abbreviation emit_fan := (Mesh.emit_fan tris).
Local Abbreviation next_vertex := (Mesh.next_vertex tris vertex_count cache_size).
Local Abbreviation clusters_invariant := (Mesh.clusters_invariant vertex_count cache_size).

Lemma emit_triangle_clusters st t : clusters (emit_triangle tris st t) = clusters st.
Proof.
  unfold emit_triangle. cbn [clusters].
  now destruct (stamps_keep (corners (tri tris t)) st) as (_ & _ & ->).
Qed.

Lemma emit_fan_clusters st f : clusters (emit_fan st f) = clusters st.
Proof.
  unfold Mesh.emit_fan. generalize (live st f). intros ts. revert st.
  induction ts as [|t ts IH]; intros st; cbn [fold_left]; [reflexivity|].
  now rewrite IH, emit_triangle_clusters.
Qed.

(** Before anything is written no vertex is in the cache. *)
Lemma candidates_initially st :
  timestamps st = repeat 0 vertex_count -> time st = cache_size + 1 ->
  candidates tris vertex_count cache_size st = [].
Proof.
  intros Hts Ht. unfold candidates.
  apply filter_none. intros v Hv.
  unfold in_cache, timestamp. rewrite Hts, Ht, nth_repeat.
  destruct (Nat.ltb_spec (cache_size + 1 - 0 + 3) cache_size); [lia | reflexivity].
Qed.

Lemma round_clusters st f st' :
  clusters_invariant st -> next_vertex st = Some (f, st') -> live st' f <> [] ->
  clusters_invariant (emit_fan st' f).
Proof.
  intros (Hhd & Hinc & Hlt & Hfresh) Hnext Hlive.
  destruct (emit_fan_output tris st' f) as [Ho _].
  assert (Hgrow : length (output st') < length (output (emit_fan st' f))).
  { rewrite Ho, length_app. destruct (live st' f); [congruence | cbn; lia]. }
  assert (Hne : output (emit_fan st' f) <> []).
  { intros E. rewrite E in Hgrow. cbn in Hgrow. lia. }
  unfold Mesh.clusters_invariant. rewrite emit_fan_clusters.
  revert Hnext. unfold Mesh.next_vertex.
  destruct (best tris st _) as [g|] eqn:Hbest.
  - intros [= <- <-]. split; [|split; [|split]].
    + destruct (clusters st) as [|c cs]; [|exact Hhd].
      destruct (Hfresh Hhd) as [Hts Ht].
      rewrite (candidates_initially st Hts Ht) in Hbest. discriminate Hbest.
    + exact Hinc.
    + eapply Forall_impl; [|exact Hlt]. cbv beta. intros c Hc. lia.
    + intros E. contradiction.
  - destruct (find _ _) as [v|]; [|discriminate]. intros [= <- <-].
    cbn [clusters output] in *. split; [|split; [|split]].
    + destruct (clusters st) as [|c cs]; [cbn; now rewrite Hhd | exact Hhd].
    + now apply increasing_snoc.
    + apply Forall_app. split; [|repeat constructor; exact Hgrow].
      eapply Forall_impl; [|exact Hlt]. cbv beta. intros c Hc. lia.
    + intros E. contradiction.
Qed.

Lemma tipsify_clusters fuel st :
  walk_invariant tris st -> clusters_invariant st ->
  clusters_invariant (tipsify tris vertex_count cache_size fuel st).
Proof.
  revert st. induction fuel as [|fuel IH]; intros st Hw Hc; cbn [tipsify]; [assumption|].
  destruct (next_vertex st) as [[f st1]|] eqn:Hnext; [|assumption].
  destruct (next_vertex_some _ _ _ _ _ _ Hw Hnext) as (Hw1 & _ & Hlive).
  apply IH; [now apply emit_fan_invariant | now apply (round_clusters st)].
Qed.

End ClusterFacts.

Lemma optimizePostTransform_clusters indices vertex_count cache_size :
  Forall (fun i => i < vertex_count) indices ->
  clusters_wf (snd (optimizePostTransform indices vertex_count cache_size))
              (length (triangles indices)).
Proof.
  intros Hwf.
  pose proof (optimizePostTransform_permutes indices vertex_count cache_size Hwf) as Hperm.
  unfold optimizePostTransform in *. cbn [fst snd] in *.
  rewrite triangles_indices_of in Hperm.
  set (tris := triangles indices) in *.
  set (st := tipsify tris vertex_count cache_size (length tris) (initial vertex_count cache_size)) in *.
  assert (Hlen : length (output st) = length tris).
  { apply Permutation_length in Hperm. now rewrite length_map in Hperm. }
  assert (Hinit : Mesh.walk_invariant tris (initial vertex_count cache_size)).
  { repeat split; cbn; [constructor | contradiction | lia]. }
  assert (Hci : Mesh.clusters_invariant vertex_count cache_size (initial vertex_count cache_size)).
  { repeat split; cbn; auto. }
  destruct (tipsify_clusters tris vertex_count cache_size (length tris) _ Hinit Hci)
    as (Hhd & Hinc & Hlt & _).
  fold st in Hhd, Hinc, Hlt. repeat split.
  - destruct (clusters st); [|exact Hhd]. rewrite <- Hlen, Hhd. reflexivity.
  - exact Hinc.
  - eapply Forall_impl; [|exact Hlt]. cbv beta. intros c Hc. lia.
Qed.

Lemma Permutation_same_triangles out inp :
  Permutation (triangles out) (triangles inp) -> same_triangles out inp.
Proof. intros H. unfold same_triangles. now apply Permutation_map. Qed.

(** C6 (as amended): [optimizePostTransform] and [optimizeOverdraw] return
    the triangles of a well-formed input as a multiset of unordered
    triples (and the cluster list of [optimizePostTransform] is a
    well-formed input of [optimizeOverdraw]); [optimizePreTransform]
    renumbers the vertices instead: each
    rewritten index refers, in [destination], to the vertex the input
    index at its place refers to in [vertices], and [destination] is a
    permutation of [vertices]. *)
Theorem optimizers_keep_triangles :
  (forall indices vertex_count cache_size,
     well_formed indices vertex_count ->
     same_triangles (fst (optimizePostTransform indices vertex_count cache_size)) indices /\
     clusters_wf (snd (optimizePostTransform indices vertex_count cache_size))
                 (length (triangles indices))) /\
  (forall penalty within_threshold excess indices clusters,
     clusters_wf clusters (length (triangles indices)) ->
     same_triangles (optimizeOverdraw penalty within_threshold excess indices clusters)
                    indices) /\
  (forall (V : Type) (d : V) vertices indices vertex_count,
     well_formed indices vertex_count -> length vertices = vertex_count ->
     let r := optimizePreTransform d vertices indices vertex_count in
     map (fun i => nth i (fst r) d) (snd r) = map (fun i => nth i vertices d) indices /\
     Permutation (fst r) vertices /\
     length (snd r) = length indices).
Proof.
  split; [|split].
  - intros indices vertex_count cache_size [_ Hwf]. split.
    + now apply Permutation_same_triangles, optimizePostTransform_permutes.
    + now apply optimizePostTransform_clusters.
  - intros penalty within_threshold excess indices clusters Hc.
    now apply Permutation_same_triangles, optimizeOverdraw_permutes.
  - intros V d vertices indices vertex_count [_ Hwf] Hlen.
    now apply optimizePreTransform_renames.
Qed.

Lemma optimizers_keep_triangles_witness :
  same_triangles (fst (optimizePostTransform [0; 1; 2; 4; 5; 6; 0; 2; 3] 7 16))
                 [0; 1; 2; 4; 5; 6; 0; 2; 3] /\
  same_triangles
    (optimizeOverdraw (fun _ c => (- Z.of_nat c)%Z) (fun _ _ => true) (fun _ _ => 0%Z)
       [0; 1; 2; 0; 2; 3; 4; 5; 6] [0; 2])
    [0; 1; 2; 0; 2; 3; 4; 5; 6] /\
  map (fun i => nth i (fst (optimizePreTransform 0 [10; 11; 12; 13] [3; 2; 1] 4)) 0)
      (snd (optimizePreTransform 0 [10; 11; 12; 13] [3; 2; 1] 4))
  = map (fun i => nth i [10; 11; 12; 13] 0) [3; 2; 1].
Proof.
  destruct optimizers_keep_triangles as (Hpost & Hover & Hpre).
  split; [|split].
  - apply Hpost. split; [reflexivity | repeat constructor].
  - apply Hover. split; [reflexivity | split; [cbn; lia | repeat constructor]].
  - apply (Hpre nat 0 [10; 11; 12; 13] [3; 2; 1] 4);
      [split; [reflexivity | repeat constructor] | reflexivity].
Defined.

Local Close Scope nat_scope.

(** * Further properties of the quantization helpers *)

(** ** [quantizeHalf]: the sign bit *)

Lemma lxor_pow2_clear n x : 0 <= n -> 0 <= x < 2 ^ n -> Z.lxor x (2 ^ n) = x + 2 ^ n.
Proof.
  intros Hn Hx. pose proof (lor_pow2_small n x Hn Hx) as Hl.
  pose proof (Z.add_lor_land (2 ^ n) x) as Ha.
  rewrite Z.lxor_comm, <- Z.sub_lor_land. lia.
Qed.

Lemma lxor_pow2_set n x : 0 <= n -> 0 <= x < 2 ^ n -> Z.lxor (x + 2 ^ n) (2 ^ n) = x.
Proof.
  intros Hn Hx. rewrite <- (lxor_pow2_clear n x Hn Hx).
  now rewrite Z.lxor_assoc, Z.lxor_nilpotent, Z.lxor_0_r.
Qed.

(** Flipping bit 31 of a pattern flips its sign field and keeps the
    others. *)
Lemma fields_flip ui s E M :
  fields ui s E M -> fields (Z.lxor ui 0x80000000) (1 - s) E M.
Proof.
  intros F. pose proof (f_E _ _ _ _ F) as HE. pose proof (f_M _ _ _ _ F) as HM.
  pose proof (f_ui _ _ _ _ F) as Hui.
  set (x := E * 2 ^ 23 + M) in *.
  assert (Hx : 0 <= x < 2 ^ 31) by (subst x; lia).
  assert (Hv : Z.lxor ui 0x80000000 = (1 - s) * 2 ^ 31 + x).
  { change 0x80000000 with (2 ^ 31).
    destruct (f_s _ _ _ _ F) as [-> | ->].
    - replace ui with x by lia. rewrite lxor_pow2_clear by lia. lia.
    - replace ui with (x + 2 ^ 31) by lia. rewrite lxor_pow2_set by lia. lia. }
  destruct (fields_of (Z.lxor ui 0x80000000)) as (s' & E' & M' & F').
  { unfold wf. rewrite Hv. destruct (f_s _ _ _ _ F) as [-> | ->]; lia. }
  pose proof (f_E _ _ _ _ F') as HE'. pose proof (f_M _ _ _ _ F') as HM'.
  pose proof (f_ui _ _ _ _ F') as Hui'. rewrite Hv in Hui'.
  assert (s' = 1 - s /\ E' = E /\ M' = M) as (-> & -> & ->).
  { destruct (f_s _ _ _ _ F) as [-> | ->]; destruct (f_s _ _ _ _ F') as [-> | ->];
      subst x; lia. }
  exact F'.
Qed.

(** X1: flipping the sign bit of the input flips the sign bit of the
    result and nothing else, on every pattern, NaN included. *)
Theorem quantizeHalf_sign_flip v :
  wf v -> quantizeHalf (Z.lxor v 0x80000000) = Z.lxor (quantizeHalf v) 0x8000.
Proof.
  intros Hwf. destruct (fields_of v Hwf) as (s & E & M & F).
  rewrite (quantizeHalf_fields _ _ _ _ (fields_flip _ _ _ _ F)), (quantizeHalf_fields _ _ _ _ F).
  pose proof (f_E _ _ _ _ F) as HE. pose proof (f_M _ _ _ _ F) as HM.
  assert (Hr : 0 <= magnitude (E * 2 ^ 23 + M) <= 0x7e00) by (apply magnitude_range; lia).
  set (h := magnitude _) in *. change 0x8000 with (2 ^ 15).
  destruct (f_s _ _ _ _ F) as [-> | ->].
  - rewrite lxor_pow2_clear by lia. lia.
  - replace (1 * 2 ^ 15 + h) with (h + 2 ^ 15) by lia. rewrite lxor_pow2_set by lia. lia.
Qed.

Lemma quantizeHalf_sign_flip_witness :
  quantizeHalf (Z.lxor 0x3fc01000 0x80000000) = Z.lxor (quantizeHalf 0x3fc01000) 0x8000.
Proof. apply (quantizeHalf_sign_flip 0x3fc01000). unfold wf. lia. Defined.

(** ** [quantizeHalf]: the [int] arithmetic *)

Lemma checked_fits n : - 2 ^ 31 <= n <= 2 ^ 31 - 1 -> Int32.checked n = Some n.
Proof.
  intros H. unfold Int32.checked, Int32.fits, Int32.min_signed, Int32.max_signed.
  destruct (Z.leb_spec (- 2 ^ 31) n); [|lia].
  destruct (Z.leb_spec n (2 ^ 31 - 1)); [reflexivity | lia].
Qed.

(** X2: on every pattern the conversions to [int] keep their value, no
    signed operation of [quantizeHalf] overflows, and the result does not
    depend on how the implementation shifts a negative [int] to the right:
    a negative biased difference is replaced by the underflow branch. *)
Theorem quantizeHalf_checked_defined sar v :
  wf v -> quantizeHalf_checked sar v = Some (quantizeHalf v).
Proof.
  intros Hwf. destruct (fields_of v Hwf) as (s & E & M & F).
  pose proof (f_E _ _ _ _ F) as HE. pose proof (f_M _ _ _ _ F) as HM.
  unfold quantizeHalf_checked, quantizeHalf.
  rewrite (f_em _ _ _ _ F), (f_s16 _ _ _ _ F).
  set (em := E * 2 ^ 23 + M).
  assert (Hem : 0 <= em < 2 ^ 31) by (subst em; lia).
  rewrite (checked_fits (s * 0x8000)) by (destruct (f_s _ _ _ _ F) as [-> | ->]; lia).
  cbn [bind]. rewrite (checked_fits em) by lia. cbn [bind].
  change (Int32.shl 112 23) with (Some (Z.shiftl 112 23)).
  change (Int32.shl 1 12) with (Some (Z.shiftl 1 12)).
  change (Int32.shl 113 23) with (Some (Z.shiftl 113 23)).
  change (Int32.shl 143 23) with (Some (Z.shiftl 143 23)).
  change (Int32.shl 255 23) with (Some (Z.shiftl 255 23)).
  cbn [bind].
  unfold Int32.sub. rewrite checked_fits by (change (Z.shiftl 112 23) with 939524096; lia).
  cbn [bind].
  unfold Int32.add.
  rewrite checked_fits
    by (change (Z.shiftl 112 23) with 939524096; change (Z.shiftl 1 12) with 4096; lia).
  cbn [bind]. do 3 f_equal.
  destruct (Z.ltb_spec em (Z.shiftl 113 23)) as [Hlt | Hge]; [reflexivity|].
  unfold shr_impl.
  destruct (Z.leb_spec 0 (em - Z.shiftl 112 23 + Z.shiftl 1 12)) as [_ | Hneg]; [reflexivity|].
  change (Z.shiftl 112 23) with 939524096 in Hneg. change (Z.shiftl 1 12) with 4096 in Hneg.
  change (Z.shiftl 113 23) with 947912704 in Hge. lia.
Qed.

Lemma quantizeHalf_checked_defined_witness :
  quantizeHalf_checked (fun _ _ => 0) 0x00000001 = Some 0 /\
  quantizeHalf_checked (fun _ _ => 0) 0xc0000000 = Some 0xC000.
Proof.
  split.
  - apply (quantizeHalf_checked_defined (fun _ _ => 0) 0x00000001). unfold wf. lia.
  - apply (quantizeHalf_checked_defined (fun _ _ => 0) 0xc0000000). unfold wf. lia.
Defined.

(** ** [quantizeHalf]: the class of the result *)

(** Comparisons of a magnitude with a normal value, read on the exponent
    and mantissa fields. *)
Lemma abs_compare_bits ui s E M k Mk p :
  fields ui s E M -> 0 < k < 255 -> 0 <= Mk < 2 ^ 23 -> Zpos p = Mk + 2 ^ 23 ->
  (lt (SFabs (decode ui)) (S754_finite false p (k - 150)) = true <->
     E * 2 ^ 23 + M < k * 2 ^ 23 + Mk) /\
  (le (S754_finite false p (k - 150)) (SFabs (decode ui)) = true <->
     k * 2 ^ 23 + Mk <= E * 2 ^ 23 + M /\ is_nan ui = false).
Proof.
  intros F Hk HMk Hp. pose proof (f_M _ _ _ _ F) as HM. pose proof (f_E _ _ _ _ F) as HE.
  rewrite (is_nan_fields _ _ _ _ F).
  destruct (decode_shape _ _ _ _ F) as [He H0|He H0|He H0|q He Hq|q He Hq];
    unfold lt, le, SFltb, SFleb; cbn [SFabs SFcompare]; rewrite ?compare_cont_Eq;
    destruct (Z.eqb_spec E 255); destruct (Z.eqb_spec M 0); cbn [andb negb]; try lia;
    repeat match goal with
    | |- context [Z.compare ?x ?y] => destruct (Z.compare_spec x y)
    end;
    (split; split; intros; try discriminate; try lia; try (split; [lia | reflexivity]);
     try reflexivity).
Qed.

(** The fields of a half-precision pattern given by its sign and its
    fifteen magnitude bits. *)
Lemma half_fields s h :
  s = 0 \/ s = 1 -> 0 <= h < 2 ^ 15 ->
  Half.sign_bit (s * 2 ^ 15 + h) = (s =? 1) /\
  Half.biased_exp (s * 2 ^ 15 + h) = h / 2 ^ 10 /\
  Half.fraction (s * 2 ^ 15 + h) = h mod 2 ^ 10.
Proof.
  intros Hs Hh. unfold Half.sign_bit, Half.biased_exp, Half.fraction.
  split; [|split].
  - rewrite Z.testbit_odd, Z.shiftr_div_pow2 by lia.
    replace ((s * 2 ^ 15 + h) / 2 ^ 15) with s by (Z.to_euclidean_division_equations; lia).
    destruct Hs as [-> | ->]; reflexivity.
  - change 0x1f with (Z.ones 5). rewrite Z.land_ones, Z.shiftr_div_pow2 by lia.
    Z.to_euclidean_division_equations; lia.
  - change 0x3ff with (Z.ones 10). rewrite Z.land_ones by lia.
    Z.to_euclidean_division_equations; lia.
Qed.

(** The magnitude bits of a result: below [2^-14] zero, from [2^-14] on a
    normal exponent or the infinity reached by the rounding carry, and
    [0x7e00] for a NaN. *)
Lemma magnitude_cases em :
  0 <= em < 2 ^ 31 ->
  (em < 113 * 2 ^ 23 /\ magnitude em = 0) \/
  (113 * 2 ^ 23 <= em < 0x477ff000 /\ 1024 <= magnitude em < 31744 /\
     -4096 < 8192 * magnitude em - (em - 112 * 2 ^ 23) <= 4096) \/
  (0x477ff000 <= em <= 255 * 2 ^ 23 /\ magnitude em = 0x7c00) \/
  (255 * 2 ^ 23 < em /\ magnitude em = 0x7e00).
Proof.
  intros H. unfold magnitude.
  destruct (Z.gtb_spec em (255 * 2 ^ 23)); [right; right; right; lia|].
  destruct (Z.geb_spec em (143 * 2 ^ 23)); [right; right; left; lia|].
  destruct (Z.ltb_spec em (113 * 2 ^ 23)); [left; lia|].
  destruct (Z_lt_le_dec em 0x477ff000).
  - right; left. Z.to_euclidean_division_equations; lia.
  - right; right; left. Z.to_euclidean_division_equations; lia.
Qed.

(** X3: the result is a NaN exactly when the input is one, it is never a
    half-precision denormal, and it is a zero exactly when the magnitude of
    the input is below [2^-14]. *)
Theorem quantizeHalf_classes v :
  wf v ->
  Half.is_nan (quantizeHalf v) = is_nan v /\
  Half.is_subnormal (quantizeHalf v) = false /\
  (Half.is_zero (quantizeHalf v) = true <-> lt (SFabs (decode v)) (pow2 (-14)) = true).
Proof.
  intros Hwf. destruct (fields_of v Hwf) as (s & E & M & F).
  pose proof (f_E _ _ _ _ F) as HE. pose proof (f_M _ _ _ _ F) as HM.
  assert (Hem : 0 <= E * 2 ^ 23 + M < 2 ^ 31) by lia.
  pose proof (magnitude_range _ Hem) as Hr.
  rewrite (quantizeHalf_fields _ _ _ _ F). change 0x8000 with (2 ^ 15).
  destruct (half_fields s (magnitude (E * 2 ^ 23 + M)) (f_s _ _ _ _ F)) as (_ & Hexp & Hfrac);
    [lia|].
  unfold Half.is_nan, Half.is_subnormal, Half.is_zero. rewrite Hexp, Hfrac.
  rewrite (is_nan_fields _ _ _ _ F).
  destruct (abs_compare_bits v s E M 113 0 8388608 F) as [Hlt _]; [lia | lia | reflexivity |].
  change (S754_finite false 8388608 (113 - 150)) with (pow2 (-14)) in Hlt. rewrite Hlt.
  set (hm := magnitude (E * 2 ^ 23 + M)) in *.
  destruct (magnitude_cases _ Hem) as [[Hc Hm] | [(Hc & Hm & _) | [[Hc Hm] | [Hc Hm]]]];
    fold hm in Hm.
  - rewrite Hm. cbn. destruct (Z.eqb_spec E 255); [lia|]. cbn. repeat split; intros; lia.
  - assert (He : 1 <= hm / 2 ^ 10 <= 30) by (Z.to_euclidean_division_equations; lia).
    destruct (Z.eqb_spec (hm / 2 ^ 10) 31); [lia|].
    destruct (Z.eqb_spec (hm / 2 ^ 10) 0); [lia|].
    destruct (Z.eqb_spec E 255); [lia|]. cbn. repeat split; intros; try discriminate; lia.
  - rewrite Hm. cbn. destruct (Z.eqb_spec E 255); destruct (Z.eqb_spec M 0); cbn;
      repeat split; intros; try discriminate; lia.
  - rewrite Hm. cbn. destruct (Z.eqb_spec E 255); destruct (Z.eqb_spec M 0); cbn;
      repeat split; intros; try discriminate; lia.
Qed.

(** X4: a non-NaN input gives an infinity exactly when its magnitude is at
    least 65520, the midpoint between the largest half-precision value
    65504 and [2^16]: the rounding carry reaches the infinity pattern. *)
Theorem quantizeHalf_overflow v :
  wf v -> is_nan v = false ->
  (Half.is_inf (quantizeHalf v) = true <-> le (of_int 65520) (SFabs (decode v)) = true).
Proof.
  intros Hwf Hn. destruct (fields_of v Hwf) as (s & E & M & F).
  pose proof (f_E _ _ _ _ F) as HE. pose proof (f_M _ _ _ _ F) as HM.
  assert (Hem : 0 <= E * 2 ^ 23 + M < 2 ^ 31) by lia.
  pose proof (magnitude_range _ Hem) as Hr.
  rewrite (quantizeHalf_fields _ _ _ _ F). change 0x8000 with (2 ^ 15).
  destruct (half_fields s (magnitude (E * 2 ^ 23 + M)) (f_s _ _ _ _ F)) as (_ & Hexp & Hfrac);
    [lia|].
  unfold Half.is_inf. rewrite Hexp, Hfrac.
  destruct (abs_compare_bits v s E M 142 0x7ff000 16773120 F) as [_ Hle];
    [lia | lia | reflexivity |].
  change (S754_finite false 16773120 (142 - 150)) with (of_int 65520) in Hle.
  rewrite Hle, Hn. rewrite (is_nan_fields _ _ _ _ F) in Hn.
  set (hm := magnitude (E * 2 ^ 23 + M)) in *.
  destruct (magnitude_cases _ Hem) as [[Hc Hm] | [(Hc & Hm & _) | [[Hc Hm] | [Hc Hm]]]];
    fold hm in Hm.
  - rewrite Hm. cbn. split; intros; [discriminate | lia].
  - assert (He : 1 <= hm / 2 ^ 10 <= 30) by (Z.to_euclidean_division_equations; lia).
    destruct (Z.eqb_spec (hm / 2 ^ 10) 31); [lia|]. cbn. split; intros; [discriminate | lia].
  - rewrite Hm. cbn. split; intros; [split; [lia | reflexivity] | reflexivity].
  - exfalso. destruct (Z.eqb_spec E 255); destruct (Z.eqb_spec M 0); cbn in Hn;
      try discriminate; lia.
Qed.

Lemma quantizeHalf_overflow_witness :
  Half.is_inf (quantizeHalf 0x477ff000) = true /\ Half.is_inf (quantizeHalf 0x477fefff) = false.
Proof.
  split.
  - apply (quantizeHalf_overflow 0x477ff000); [unfold wf; lia | reflexivity | reflexivity].
  - destruct (Half.is_inf (quantizeHalf 0x477fefff)) eqn:Hi; [|reflexivity].
    apply (quantizeHalf_overflow 0x477fefff) in Hi; [discriminate Hi | unfold wf; lia | reflexivity].
Defined.

Lemma quantizeHalf_classes_witness :
  Half.is_nan (quantizeHalf 0xffc00000) = true /\
  Half.is_subnormal (quantizeHalf 0x38000000) = false.
Proof.
  split.
  - destruct (quantizeHalf_classes 0xffc00000) as (H & _); [unfold wf; lia | exact H].
  - destruct (quantizeHalf_classes 0x38000000) as (_ & H & _); [unfold wf; lia | exact H].
Defined.

(** ** [quantizeHalf]: rounding to nearest *)

Local Open Scope Q_scope.

Lemma F2Q_scaled x : in_grid x -> F2Q x == inject_Z (scaled x) * 2 ^ (-149).
Proof.
  destruct x as [s|s| |s m e]; cbn [in_grid F2Q scaled]; intros H; try (cbn; ring).
  rewrite (dyadic_lower _ e (-149)) by lia.
  replace (e - -149)%Z with (e + 149)%Z by lia. reflexivity.
Qed.

Lemma scaled_le a b : inject_Z a * 2 ^ (-149) <= inject_Z b * 2 ^ (-149) <-> (a <= b)%Z.
Proof.
  rewrite Zle_Qle. split; intros H.
  - apply Qmult_le_r in H; [exact H | apply pow2Q_pos].
  - apply Qmult_le_r; [apply pow2Q_pos | exact H].
Qed.

Lemma scaled_inj x y : in_grid x -> in_grid y -> F2Q x == F2Q y -> scaled x = scaled y.
Proof.
  intros Hx Hy. rewrite (F2Q_scaled x Hx), (F2Q_scaled y Hy). intros H.
  apply Z.le_antisymm; apply scaled_le; rewrite H; apply Qle_refl.
Qed.

Lemma Qabs_scaled1 x : in_grid x -> Qabs (F2Q x) == inject_Z (Z.abs (scaled x)) * 2 ^ (-149).
Proof.
  intros Hx. rewrite (F2Q_scaled x Hx), Qabs_Qmult.
  rewrite (Qabs_pos (2 ^ (-149))) by (apply Qlt_le_weak, pow2Q_pos). reflexivity.
Qed.

Lemma Qabs_scaled x y :
  in_grid x -> in_grid y ->
  Qabs (F2Q x - F2Q y) == inject_Z (Z.abs (scaled x - scaled y)) * 2 ^ (-149).
Proof.
  intros Hx Hy. rewrite (F2Q_scaled x Hx), (F2Q_scaled y Hy).
  setoid_replace (inject_Z (scaled x) * 2 ^ (-149) - inject_Z (scaled y) * 2 ^ (-149))
    with (inject_Z (scaled x - scaled y) * 2 ^ (-149))
    by (unfold Z.sub; rewrite inject_Z_plus, inject_Z_opp; ring).
  rewrite Qabs_Qmult.
  rewrite (Qabs_pos (2 ^ (-149))) by (apply Qlt_le_weak, pow2Q_pos). reflexivity.
Qed.

Local Close Scope Q_scope.

(** The value of a finite binary32 pattern, from its fields. *)
Lemma decode_scaled ui s E M :
  fields ui s E M -> E < 255 ->
  in_grid (decode ui) /\
  scaled (decode ui) = (1 - 2 * s) * (if E =? 0 then M else (2 ^ 23 + M) * 2 ^ (E - 1)).
Proof.
  intros F HE. pose proof (f_M _ _ _ _ F) as HM.
  destruct (decode_shape _ _ _ _ F) as [He H0|He H0|He H0|p He Hp|p He Hp]; try lia;
    cbn [in_grid scaled].
  - subst. split; [exact I | cbn; lia].
  - subst E. split; [lia|]. cbn [Z.eqb]. change (2 ^ (-149 + 149)) with 1.
    destruct (f_s _ _ _ _ F) as [-> | ->]; cbn [Z.eqb Pos.eqb]; lia.
  - split; [lia|]. destruct (Z.eqb_spec E 0); [lia|].
    replace (E - 150 + 149) with (E - 1) by lia.
    destruct (f_s _ _ _ _ F) as [-> | ->]; cbn [Z.eqb Pos.eqb]; lia.
Qed.

(** The value of a finite half-precision pattern, from its sign and
    magnitude bits. *)
Lemma half_decode_scaled s hm :
  s = 0 \/ s = 1 -> 0 <= hm < 31744 ->
  in_grid (Half.decode (s * 2 ^ 15 + hm)) /\
  scaled (Half.decode (s * 2 ^ 15 + hm)) =
    (1 - 2 * s) * (if hm / 2 ^ 10 =? 0 then hm mod 2 ^ 10 * 2 ^ 125
                   else (2 ^ 10 + hm mod 2 ^ 10) * 2 ^ (hm / 2 ^ 10 + 124)).
Proof.
  intros Hs Hh. destruct (half_fields s hm Hs) as (Hsg & Hexp & Hfrac); [lia|].
  unfold Half.decode. rewrite Hsg, Hexp, Hfrac.
  assert (He : 0 <= hm / 2 ^ 10 < 31) by (Z.to_euclidean_division_equations; lia).
  assert (Hm : 0 <= hm mod 2 ^ 10 < 2 ^ 10) by (apply Z.mod_pos_bound; lia).
  set (e := hm / 2 ^ 10) in *. set (m := hm mod 2 ^ 10) in *.
  destruct (Z.eqb_spec e 31); [lia|].
  destruct (Z.eqb_spec e 0) as [He0 | He0].
  - destruct m as [|p|p] eqn:Em; try lia; cbn [in_grid scaled].
    + split; [exact I | lia].
    + split; [lia|]. change (2 ^ (-24 + 149)) with (2 ^ 125).
      destruct Hs as [-> | ->]; cbn [Z.eqb Pos.eqb]; lia.
  - destruct (m + 2 ^ 10) as [|p|p] eqn:Em; try lia; cbn [in_grid scaled].
    split; [lia|]. replace (e - 25 + 149) with (e + 124) by lia.
    destruct Hs as [-> | ->]; cbn [Z.eqb Pos.eqb]; lia.
Qed.

Lemma half_pattern h :
  0 <= h < 2 ^ 16 -> exists s hm, (s = 0 \/ s = 1) /\ 0 <= hm < 2 ^ 15 /\ h = s * 2 ^ 15 + hm.
Proof.
  intros H. exists (h / 2 ^ 15), (h mod 2 ^ 15).
  Z.to_euclidean_division_equations; lia.
Qed.

(** The normal range of [quantizeHalf], on the fields of the input. *)
Lemma normal_range_fields v s E M :
  fields v s E M ->
  le (pow2 (-14)) (SFabs (decode v)) = true ->
  lt (SFabs (decode v)) (of_int 65520) = true ->
  113 * 2 ^ 23 <= E * 2 ^ 23 + M < 0x477ff000.
Proof.
  intros F Hlo Hhi. pose proof (f_M _ _ _ _ F) as HM.
  destruct (abs_compare_bits v s E M 113 0 8388608 F) as [_ Hle]; [lia | lia | reflexivity |].
  destruct (abs_compare_bits v s E M 142 0x7ff000 16773120 F) as [Hlt _];
    [lia | lia | reflexivity |].
  change (S754_finite false 8388608 (113 - 150)) with (pow2 (-14)) in Hle.
  change (S754_finite false 16773120 (142 - 150)) with (of_int 65520) in Hlt.
  apply Hle in Hlo. apply Hlt in Hhi. lia.
Qed.

(** In the normal range the result is the multiple [b] of the half-precision
    spacing nearest to the 24-bit mantissa [2^23 + M] of the input, the
    upper one at a tie. *)
Lemma quantizeHalf_scaled v s E M :
  fields v s E M -> 113 * 2 ^ 23 <= E * 2 ^ 23 + M < 0x477ff000 ->
  exists b,
    1024 <= b <= 2048 /\ -4096 < 8192 * b - (2 ^ 23 + M) <= 4096 /\
    quantizeHalf v = s * 2 ^ 15 + ((E - 113) * 1024 + b) /\
    Half.is_normal (quantizeHalf v) = true /\
    in_grid (Half.decode (quantizeHalf v)) /\
    scaled (Half.decode (quantizeHalf v)) = (1 - 2 * s) * (8192 * b * 2 ^ (E - 1)) /\
    in_grid (decode v) /\
    scaled (decode v) = (1 - 2 * s) * ((2 ^ 23 + M) * 2 ^ (E - 1)).
Proof.
  intros F Hr. pose proof (f_M _ _ _ _ F) as HM. pose proof (f_E _ _ _ _ F) as HE.
  assert (HE' : 113 <= E <= 142) by lia.
  assert (Hem : 0 <= E * 2 ^ 23 + M < 2 ^ 31) by lia.
  destruct (magnitude_cases _ Hem) as [[Hc Hm] | [(Hc & Hm & Hn) | [[Hc Hm] | [Hc Hm]]]];
    try lia.
  set (hm := magnitude (E * 2 ^ 23 + M)) in *.
  exists (hm - (E - 113) * 1024).
  assert (Hb : 1024 <= hm - (E - 113) * 1024 <= 2048) by lia.
  set (b := hm - (E - 113) * 1024) in *.
  assert (Hq : quantizeHalf v = s * 2 ^ 15 + hm).
  { rewrite (quantizeHalf_fields _ _ _ _ F). reflexivity. }
  destruct (half_decode_scaled s hm (f_s _ _ _ _ F)) as [Hg Hs]; [lia|].
  destruct (half_fields s hm (f_s _ _ _ _ F)) as (_ & Hexp & _); [lia|].
  destruct (decode_scaled v s E M F) as [Hgv Hsv]; [lia|].
  destruct (Z.eqb_spec E 0); [lia|].
  split; [exact Hb|]. split; [lia|]. split; [rewrite Hq; subst b; f_equal; lia|].
  rewrite Hq. split; [|split; [exact Hg|split; [|split; [exact Hgv | exact Hsv]]]].
  - unfold Half.is_normal. rewrite Hexp.
    assert (1 <= hm / 2 ^ 10 <= 30) by (Z.to_euclidean_division_equations; lia).
    destruct (Z.leb_spec 1 (hm / 2 ^ 10)); destruct (Z.leb_spec (hm / 2 ^ 10) 30);
      try reflexivity; lia.
  - rewrite Hs. f_equal.
    destruct (Z.eq_dec b 2048) as [Hb2 | Hb2].
    + assert (Hd : hm / 2 ^ 10 = E - 111) by (Z.to_euclidean_division_equations; lia).
      assert (Hmod : hm mod 2 ^ 10 = 0) by (Z.to_euclidean_division_equations; lia).
      rewrite Hd, Hmod, Hb2. destruct (Z.eqb_spec (E - 111) 0); [lia|].
      replace (E - 111 + 124) with (14 + (E - 1)) by lia.
      rewrite Z.pow_add_r by lia. lia.
    + assert (Hd : hm / 2 ^ 10 = E - 112) by (Z.to_euclidean_division_equations; lia).
      assert (Hmod : hm mod 2 ^ 10 = b - 1024) by (Z.to_euclidean_division_equations; lia).
      rewrite Hd, Hmod. destruct (Z.eqb_spec (E - 112) 0); [lia|].
      replace (E - 112 + 124) with (13 + (E - 1)) by lia.
      rewrite Z.pow_add_r by lia. lia.
Qed.

(** A finite half-precision value against the binade of exponent field
    [E] of binary32: it is below the binade or a multiple of the
    half-precision spacing there. *)
Lemma half_scaled_cases g E :
  0 <= g < 2 ^ 16 -> Half.is_finite g = true -> 113 <= E <= 142 ->
  in_grid (Half.decode g) /\
  exists sg G, (sg = 1 \/ sg = -1) /\ 0 <= G /\
    scaled (Half.decode g) = sg * G /\
    (G < 2 ^ 23 * 2 ^ (E - 1) \/ exists j, G = 8192 * j * 2 ^ (E - 1)).
Proof.
  intros Hg Hfin HE. destruct (half_pattern g Hg) as (s & hm & Hs & Hhm & ->).
  destruct (half_fields s hm Hs Hhm) as (_ & Hexp & _).
  unfold Half.is_finite in Hfin. rewrite Hexp in Hfin.
  apply negb_true_iff, Z.eqb_neq in Hfin.
  assert (Hh : 0 <= hm < 31744) by (Z.to_euclidean_division_equations; lia).
  destruct (half_decode_scaled s hm Hs Hh) as [Hgr Hsc].
  split; [exact Hgr|].
  assert (He : 0 <= hm / 2 ^ 10 <= 30) by (Z.to_euclidean_division_equations; lia).
  assert (Hm : 0 <= hm mod 2 ^ 10 < 2 ^ 10) by (apply Z.mod_pos_bound; lia).
  set (e := hm / 2 ^ 10) in *. set (m := hm mod 2 ^ 10) in *.
  assert (HP : 2 ^ 112 <= 2 ^ (E - 1)) by (apply Z.pow_le_mono_r; lia).
  exists (1 - 2 * s). eexists. split; [lia|]. split; [|split; [exact Hsc|]].
  - destruct (Z.eqb_spec e 0); [lia|].
    assert (0 < 2 ^ (e + 124)) by (apply Z.pow_pos_nonneg; lia). nia.
  - destruct (Z.eqb_spec e 0) as [He0 | He0].
    + left. change (2 ^ 125) with (2 ^ 13 * 2 ^ 112). nia.
    + destruct (Z_lt_le_dec (e + 112) E) as [Hlt | Hge].
      * left. assert (Hp : 2 ^ (e + 124) <= 2 ^ (12 + (E - 1))) by (apply Z.pow_le_mono_r; lia).
        rewrite (Z.pow_add_r 2 12 (E - 1)) in Hp by lia.
        assert (0 < 2 ^ (e + 124)) by (apply Z.pow_pos_nonneg; lia).
        change (2 ^ 12) with 4096 in Hp. change (2 ^ 23) with 8388608. change (2 ^ 10) with 1024 in *.
        nia.
      * right. exists ((2 ^ 10 + m) * 2 ^ (e + 112 - E)).
        replace (e + 124) with (13 + ((e + 112 - E) + (E - 1))) by lia.
        rewrite !Z.pow_add_r by lia. change (2 ^ 13) with 8192. ring.
Qed.

(** The arithmetic of the nearest multiple: [8192 * b] is a multiple of
    8192 nearest to [A], the upper one at a tie; every competitor [G] is
    below the binade or a multiple of 8192, all scaled by [P]. *)
Lemma nearest_multiple s sg A b G P :
  s = 0 \/ s = 1 -> sg = 1 \/ sg = -1 -> 0 < P ->
  2 ^ 23 <= A < 2 ^ 24 -> 1024 <= b <= 2048 -> -4096 < 8192 * b - A <= 4096 ->
  0 <= G -> (G < 2 ^ 23 * P \/ exists j, G = 8192 * j * P) ->
  let r := (1 - 2 * s) * (8192 * b * P) in
  let x := (1 - 2 * s) * (A * P) in
  Z.abs (r - x) <= Z.abs (sg * G - x) /\
  (Z.abs (sg * G - x) = Z.abs (r - x) -> Z.abs (sg * G) <= Z.abs r).
Proof.
  intros Hs Hsg HP HA Hb Hn HG Hcase r x.
  assert (Hsig : Z.abs (1 - 2 * s) = 1) by lia.
  assert (Hsig' : Z.abs sg = 1) by lia.
  set (D := 8192 * b - A).
  assert (HD : Z.abs D <= A - 2 ^ 23) by (subst D; lia).
  assert (Hrx : Z.abs (r - x) = Z.abs D * P).
  { subst r x D. replace ((1 - 2 * s) * (8192 * b * P) - (1 - 2 * s) * (A * P))
      with ((1 - 2 * s) * (8192 * b - A) * P) by ring.
    rewrite !Z.abs_mul, (Z.abs_eq P), Hsig by lia. lia. }
  assert (Hr : Z.abs r = 8192 * b * P).
  { subst r. rewrite Z.abs_mul, (Z.abs_eq (8192 * b * P)), Hsig by nia. lia. }
  assert (Hg : Z.abs (sg * G) = G).
  { rewrite Z.abs_mul, (Z.abs_eq G), Hsig' by lia. lia. }
  rewrite Hrx, Hr, Hg.
  assert (HDP : Z.abs D * P <= (A - 2 ^ 23) * P) by (apply Z.mul_le_mono_nonneg_r; lia).
  assert (HbP : 1024 * P <= b * P) by (apply Z.mul_le_mono_nonneg_r; lia).
  destruct Hcase as [Hlow | [j ->]].
  - split; [|lia].
    assert (Hx : Z.abs x = A * P).
    { subst x. rewrite Z.abs_mul, (Z.abs_eq (A * P)), Hsig by nia. lia. }
    assert (Z.abs x - G <= Z.abs (sg * G - x)) by lia.
    lia.
  - assert (Hj : 0 <= j) by nia.
    assert (Hgx : Z.abs (sg * (8192 * j * P) - x) = Z.abs (sg * 8192 * j - (1 - 2 * s) * A) * P).
    { subst x. replace (sg * (8192 * j * P) - (1 - 2 * s) * (A * P))
        with ((sg * 8192 * j - (1 - 2 * s) * A) * P) by ring.
      rewrite Z.abs_mul, (Z.abs_eq P) by lia. reflexivity. }
    rewrite Hgx.
    assert (Hle : Z.abs D <= Z.abs (sg * 8192 * j - (1 - 2 * s) * A))
      by (subst D; destruct Hs as [-> | ->]; destruct Hsg as [-> | ->]; lia).
    split.
    + apply Z.mul_le_mono_nonneg_r; lia.
    + intros Heq. apply Z.mul_reg_r in Heq; [|lia].
      assert (j <= b) by (subst D; destruct Hs as [-> | ->]; destruct Hsg as [-> | ->]; lia).
      assert (j * P <= b * P) by (apply Z.mul_le_mono_nonneg_r; lia). lia.
Qed.

Lemma nearest_error s A b P :
  s = 0 \/ s = 1 -> 0 < P -> 2 ^ 23 <= A -> -4096 < 8192 * b - A <= 4096 ->
  2048 * Z.abs ((1 - 2 * s) * (8192 * b * P) - (1 - 2 * s) * (A * P))
  <= Z.abs ((1 - 2 * s) * (A * P)).
Proof.
  intros Hs HP HA Hn.
  assert (Hsig : Z.abs (1 - 2 * s) = 1) by lia.
  replace ((1 - 2 * s) * (8192 * b * P) - (1 - 2 * s) * (A * P))
    with ((1 - 2 * s) * (8192 * b - A) * P) by ring.
  rewrite !Z.abs_mul, (Z.abs_eq P), (Z.abs_eq A), Hsig by lia.
  assert (2048 * Z.abs (8192 * b - A) * P <= A * P) by (apply Z.mul_le_mono_nonneg_r; lia).
  lia.
Qed.

(** Two 24-bit mantissas with their exponents denote the same number only
    when they agree. *)
Lemma normalized_unique A B a c :
  2 ^ 23 <= A < 2 ^ 24 -> 2 ^ 23 <= B < 2 ^ 24 -> 0 <= a -> 0 <= c ->
  A * 2 ^ a = B * 2 ^ c -> a = c /\ A = B.
Proof.
  intros HA HB Ha Hc H.
  assert (Hlt : forall A B a c, 2 ^ 23 <= A < 2 ^ 24 -> 2 ^ 23 <= B < 2 ^ 24 ->
            0 <= a < c -> A * 2 ^ a = B * 2 ^ c -> False).
  { clear. intros A B a c HA HB Hac H.
    replace c with ((c - a) + a) in H by lia. rewrite Z.pow_add_r in H by lia.
    assert (0 < 2 ^ a) by (apply Z.pow_pos_nonneg; lia).
    assert (2 ^ 1 <= 2 ^ (c - a)) by (apply Z.pow_le_mono_r; lia).
    assert (A = B * 2 ^ (c - a)) by nia. change (2 ^ 1) with 2 in *. nia. }
  destruct (Z.lt_trichotomy a c) as [Hac | [-> | Hac]].
  - exfalso. apply (Hlt A B a c); auto; lia.
  - split; [reflexivity|].
    assert (0 < 2 ^ c) by (apply Z.pow_pos_nonneg; lia). nia.
  - exfalso. apply (Hlt B A c a); auto; lia.
Qed.

Local Open Scope Q_scope.

(** X5: in the normal range, from [2^-14] up to 65520 excluded, the result
    is a normal half-precision number, and no finite half-precision value is
    nearer to the input than it. *)
Theorem quantizeHalf_nearest v g :
  wf v -> (0 <= g < 2 ^ 16)%Z -> Half.is_finite g = true ->
  le (pow2 (-14)) (SFabs (decode v)) = true ->
  lt (SFabs (decode v)) (of_int 65520) = true ->
  Half.is_normal (quantizeHalf v) = true /\
  Qabs (F2Q (Half.decode (quantizeHalf v)) - F2Q (decode v))
  <= Qabs (F2Q (Half.decode g) - F2Q (decode v)).
Proof.
  intros Hwf Hg Hfin Hlo Hhi. destruct (fields_of v Hwf) as (s & E & M & F).
  pose proof (normal_range_fields v s E M F Hlo Hhi) as Hr.
  pose proof (f_M _ _ _ _ F) as HM. pose proof (f_E _ _ _ _ F) as HE.
  destruct (quantizeHalf_scaled v s E M F Hr)
    as (b & Hb & Hn & _ & Hnorm & Hgr & Hsr & Hgv & Hsv).
  destruct (half_scaled_cases g E Hg Hfin) as (Hgg & sg & G & Hsg & HG & Hsc & Hcase); [lia|].
  split; [exact Hnorm|].
  rewrite (Qabs_scaled _ _ Hgr Hgv), (Qabs_scaled _ _ Hgg Hgv).
  apply scaled_le. rewrite Hsr, Hsv, Hsc.
  apply (nearest_multiple s sg (2 ^ 23 + M) b G (2 ^ (E - 1)));
    first [assumption | lia | exact (f_s _ _ _ _ F) | apply Z.pow_pos_nonneg; lia].
Qed.

Lemma quantizeHalf_nearest_witness :
  Qabs (F2Q (Half.decode (quantizeHalf 0x3f801000%Z)) - F2Q (decode 0x3f801000%Z))
  <= Qabs (F2Q (Half.decode 0x3c00%Z) - F2Q (decode 0x3f801000%Z)).
Proof.
  destruct (quantizeHalf_nearest 0x3f801000%Z 0x3c00%Z) as [_ H];
    [unfold wf; lia | lia | reflexivity | reflexivity | reflexivity | exact H].
Defined.

(** X6: when another finite half-precision value is as near to the input
    as the result, the result is the one of larger magnitude: ties are
    rounded away from zero, not to even. *)
Theorem quantizeHalf_ties_away v g :
  wf v -> (0 <= g < 2 ^ 16)%Z -> Half.is_finite g = true ->
  le (pow2 (-14)) (SFabs (decode v)) = true ->
  lt (SFabs (decode v)) (of_int 65520) = true ->
  Qabs (F2Q (Half.decode g) - F2Q (decode v))
    == Qabs (F2Q (Half.decode (quantizeHalf v)) - F2Q (decode v)) ->
  Qabs (F2Q (Half.decode g)) <= Qabs (F2Q (Half.decode (quantizeHalf v))).
Proof.
  intros Hwf Hg Hfin Hlo Hhi. destruct (fields_of v Hwf) as (s & E & M & F).
  pose proof (normal_range_fields v s E M F Hlo Hhi) as Hr.
  pose proof (f_M _ _ _ _ F) as HM. pose proof (f_E _ _ _ _ F) as HE.
  destruct (quantizeHalf_scaled v s E M F Hr)
    as (b & Hb & Hn & _ & Hnorm & Hgr & Hsr & Hgv & Hsv).
  destruct (half_scaled_cases g E Hg Hfin) as (Hgg & sg & G & Hsg & HG & Hsc & Hcase); [lia|].
  rewrite (Qabs_scaled _ _ Hgr Hgv), (Qabs_scaled _ _ Hgg Hgv).
  rewrite (Qabs_scaled1 _ Hgr), (Qabs_scaled1 _ Hgg).
  intros Heq. apply scaled_le.
  assert (Heq' : Z.abs (scaled (Half.decode g) - scaled (decode v))
                 = Z.abs (scaled (Half.decode (quantizeHalf v)) - scaled (decode v))).
  { apply Z.le_antisymm; apply scaled_le; rewrite Heq; apply Qle_refl. }
  revert Heq'. rewrite Hsr, Hsv, Hsc.
  apply (nearest_multiple s sg (2 ^ 23 + M) b G (2 ^ (E - 1)));
    first [assumption | lia | exact (f_s _ _ _ _ F) | apply Z.pow_pos_nonneg; lia].
Qed.

Lemma quantizeHalf_ties_away_witness :
  Qabs (F2Q (Half.decode 0x3c00%Z)) <= Qabs (F2Q (Half.decode (quantizeHalf 0x3f801000%Z))).
Proof.
  apply (quantizeHalf_ties_away 0x3f801000%Z 0x3c00%Z);
    [unfold wf; lia | lia | reflexivity | reflexivity | reflexivity | reflexivity].
Defined.

(** X7: in the normal range the result differs from the input by at most
    [2^-11] of the input's magnitude. *)
Theorem quantizeHalf_relative_error v :
  wf v ->
  le (pow2 (-14)) (SFabs (decode v)) = true ->
  lt (SFabs (decode v)) (of_int 65520) = true ->
  Qabs (F2Q (Half.decode (quantizeHalf v)) - F2Q (decode v))
  <= Qabs (F2Q (decode v)) * (1 # 2048).
Proof.
  intros Hwf Hlo Hhi. destruct (fields_of v Hwf) as (s & E & M & F).
  pose proof (normal_range_fields v s E M F Hlo Hhi) as Hr.
  pose proof (f_M _ _ _ _ F) as HM. pose proof (f_E _ _ _ _ F) as HE.
  destruct (quantizeHalf_scaled v s E M F Hr)
    as (b & Hb & Hn & _ & Hnorm & Hgr & Hsr & Hgv & Hsv).
  rewrite (Qabs_scaled _ _ Hgr Hgv), (Qabs_scaled1 _ Hgv), Hsr, Hsv.
  assert (HP : (0 < 2 ^ (E - 1))%Z) by (apply Z.pow_pos_nonneg; lia).
  assert (Hz : (2048 * Z.abs ((1 - 2 * s) * (8192 * b * 2 ^ (E - 1))
                               - (1 - 2 * s) * ((2 ^ 23 + M) * 2 ^ (E - 1)))
                <= Z.abs ((1 - 2 * s) * ((2 ^ 23 + M) * 2 ^ (E - 1))))%Z).
  { apply nearest_error; [exact (f_s _ _ _ _ F) | exact HP | lia | lia]. }
  apply scaled_le in Hz. rewrite inject_Z_mult in Hz.
  change (inject_Z 2048) with 2048 in Hz.
  set (a := inject_Z (Z.abs (_ - _))) in *. set (c := inject_Z (Z.abs _)) in *.
  set (u := 2 ^ (-149)) in *. lra.
Qed.

Lemma quantizeHalf_relative_error_witness :
  Qabs (F2Q (Half.decode (quantizeHalf 0x3f801000%Z)) - F2Q (decode 0x3f801000%Z))
  <= Qabs (F2Q (decode 0x3f801000%Z)) * (1 # 2048).
Proof.
  apply (quantizeHalf_relative_error 0x3f801000%Z);
    [unfold wf; lia | reflexivity | reflexivity].
Defined.

Local Close Scope Q_scope.

Lemma decode_in_grid v : wf v -> in_grid (decode v).
Proof.
  intros Hwf. destruct (fields_of v Hwf) as (s & E & M & F).
  pose proof (f_E _ _ _ _ F) as HE.
  destruct (decode_shape _ _ _ _ F); cbn [in_grid]; try exact I; lia.
Qed.

(** X8: an input whose value is a normal half-precision number is mapped
    to the pattern of that number: widening a normal half to binary32 and
    quantizing it gives the half back. *)
Theorem quantizeHalf_exact v h :
  wf v -> 0 <= h < 2 ^ 16 -> Half.is_normal h = true ->
  (F2Q (decode v) == F2Q (Half.decode h))%Q -> quantizeHalf v = h.
Proof.
  intros Hwf Hh Hnorm Heq.
  destruct (fields_of v Hwf) as (s & E & M & F).
  pose proof (f_M _ _ _ _ F) as HM. pose proof (f_E _ _ _ _ F) as HE.
  destruct (half_pattern h Hh) as (sh & hm & Hsh & Hhm & ->).
  destruct (half_fields sh hm Hsh Hhm) as (_ & Hexp & _).
  unfold Half.is_normal in Hnorm. rewrite Hexp in Hnorm.
  apply andb_true_iff in Hnorm as [Hn1 Hn2]. apply Z.leb_le in Hn1, Hn2.
  assert (Hh' : 0 <= hm < 31744) by (Z.to_euclidean_division_equations; lia).
  destruct (half_decode_scaled sh hm Hsh Hh') as [Hgh Hsc].
  assert (Hhm' : hm = 1024 * (hm / 2 ^ 10) + hm mod 2 ^ 10) by (apply Z.div_mod; lia).
  assert (Hmh : 0 <= hm mod 2 ^ 10 < 2 ^ 10) by (apply Z.mod_pos_bound; lia).
  set (eh := hm / 2 ^ 10) in *. set (mh := hm mod 2 ^ 10) in *.
  destruct (Z.eqb_spec eh 0); [lia|].
  pose proof (scaled_inj _ _ (decode_in_grid v Hwf) Hgh Heq) as Hs. rewrite Hsc in Hs.
  assert (HY : 2 ^ 10 * 2 ^ 125 <= (2 ^ 10 + mh) * 2 ^ (eh + 124)).
  { assert (2 ^ 125 <= 2 ^ (eh + 124)) by (apply Z.pow_le_mono_r; lia). nia. }
  set (Y := (2 ^ 10 + mh) * 2 ^ (eh + 124)) in *.
  destruct (Z_lt_le_dec E 255) as [HE' | HE'].
  2:{ exfalso. revert Hs.
      destruct (decode_shape _ _ _ _ F); try lia; cbn [scaled];
        destruct Hsh as [-> | ->]; lia. }
  destruct (decode_scaled v s E M F HE') as [_ Hsv]. rewrite Hsv in Hs.
  destruct (Z.eqb_spec E 0) as [HE0 | HE0].
  { exfalso. destruct (f_s _ _ _ _ F) as [-> | ->]; destruct Hsh as [-> | ->]; lia. }
  assert (HP : 0 < 2 ^ (E - 1)) by (apply Z.pow_pos_nonneg; lia).
  assert (HX : 0 < (2 ^ 23 + M) * 2 ^ (E - 1)) by nia.
  set (X := (2 ^ 23 + M) * 2 ^ (E - 1)) in *.
  assert (Hss : s = sh /\ X = Y)
    by (destruct (f_s _ _ _ _ F) as [-> | ->]; destruct Hsh as [-> | ->]; lia).
  destruct Hss as [-> HXY]. subst X Y.
  replace (eh + 124) with (13 + (eh + 111)) in HXY by lia.
  rewrite Z.pow_add_r, Z.mul_assoc in HXY by lia.
  apply normalized_unique in HXY; [| lia | lia | lia | lia].
  destruct HXY as [HEe HA].
  rewrite (quantizeHalf_fields _ _ _ _ F). change 0x8000 with (2 ^ 15). f_equal.
  rewrite Hhm'. unfold magnitude.
  destruct (Z.gtb_spec (E * 2 ^ 23 + M) (255 * 2 ^ 23)); [lia|].
  destruct (Z.geb_spec (E * 2 ^ 23 + M) (143 * 2 ^ 23)); [lia|].
  destruct (Z.ltb_spec (E * 2 ^ 23 + M) (113 * 2 ^ 23)); [lia|].
  Z.to_euclidean_division_equations; lia.
Qed.

Lemma quantizeHalf_exact_witness : quantizeHalf 0x477fe000 = 0x7BFF.
Proof.
  apply (quantizeHalf_exact 0x477fe000 0x7BFF); [unfold wf; lia | lia | reflexivity | reflexivity].
Defined.

(** ** [quantizeUnorm] and [quantizeSnorm]: every bit width and every input *)

Local Open Scope Q_scope.

Lemma pow2Q_30 : 2 ^ 30 == inject_Z (2 ^ 23) * 2 ^ 7.
Proof. reflexivity. Qed.

(** [float(n)] for [0 <= n <= 2^30] is at most [2^30]. *)
Lemma of_int_le_pow30 S :
  (0 <= S <= 2 ^ 30)%Z -> nonneg_finite (of_int S) /\ F2Q (of_int S) <= 2 ^ 30.
Proof.
  intros HS. unfold of_int, of_Z. destruct S as [|p|p]; try lia.
  - split; [exact I | discriminate].
  - cbn [binary_normalize].
    assert (Hd : (Zpos (digits2_pos p) <= 31)%Z) by (apply digits_le; lia).
    destruct (binary_round_between p 0 7) as (Hn & _ & Hhi);
      [rewrite fexp32; lia | lia | lia |].
    split; [exact Hn|]. rewrite pow2Q_30. apply Hhi.
    rewrite <- pow2Q_30. rewrite Qpower_0_r, Qmult_1_r.
    change (2 ^ 30) with (inject_Z (2 ^ 30)). now rewrite <- Zle_Qle.
Qed.

(** The conversion shared by both quantizers, at any scale up to [2^30]:
    the result is defined and is the floor of the rounded sum. *)
Lemma scale_round_defined c scale :
  nonneg_finite c -> F2Q c <= 1 -> nonneg_finite scale -> F2Q scale <= 2 ^ 30 ->
  let t := add (mul c scale) half in
  nonneg_finite t /\ to_int t = Some (Qfloor (F2Q t)) /\
  (0 <= Qfloor (F2Q t) <= 2 ^ 30 + 128)%Z.
Proof.
  intros Hc Hc1 Hs Hs30 t.
  pose proof (F2Q_nonneg c Hc) as Hc0. pose proof (F2Q_nonneg scale Hs) as Hs0.
  assert (H30 : (2 ^ 30 == 1073741824) /\ (2 ^ 31 == 2147483648)) by (split; reflexivity).
  destruct H30 as [H30 H31].
  assert (Hx : F2Q c * F2Q scale <= 2 ^ 30).
  { apply Qle_trans with (1 * F2Q scale); [apply Qmult_le_compat_r; assumption|].
    now rewrite Qmult_1_l. }
  assert (Hx' : F2Q c * F2Q scale < 2 ^ (7 + 24)).
  { change (2 ^ (7 + 24)) with (2 ^ 31). lra. }
  destruct (mul_keeps_grid c scale 7 ltac:(lia) Hc Hs Hx') as (Hpn & _ & Hphi).
  set (p := mul c scale) in *.
  assert (Hp30 : F2Q p <= 2 ^ 30) by (rewrite pow2Q_30; apply Hphi; rewrite <- pow2Q_30; exact Hx).
  assert (Hy' : F2Q p + (1 # 2) < 2 ^ (7 + 24)).
  { change (2 ^ (7 + 24)) with (2 ^ 31). lra. }
  destruct (add_half_keeps_grid p 7 ltac:(lia) Hpn Hy') as (Htn & _ & Hthi).
  fold t in Htn, Hthi.
  assert (Ht : F2Q t <= inject_Z (2 ^ 30 + 128)).
  { setoid_replace (inject_Z (2 ^ 30 + 128)) with (inject_Z (2 ^ 23 + 1) * 2 ^ 7) by reflexivity.
    apply Hthi.
    setoid_replace (inject_Z (2 ^ 23 + 1) * 2 ^ 7) with (2 ^ 30 + 128) by reflexivity. lra. }
  pose proof (F2Q_nonneg t Htn) as Ht0.
  assert (Hfl : (0 <= Qfloor (F2Q t) <= 2 ^ 30 + 128)%Z).
  { split.
    - change 0%Z with (Qfloor 0). apply Qfloor_resp_le. exact Ht0.
    - rewrite <- (Qfloor_Z (2 ^ 30 + 128)). apply Qfloor_resp_le. exact Ht. }
  split; [exact Htn|]. split; [|exact Hfl].
  apply to_int_floor; [exact Htn|]. unfold Int32.max_signed. lia.
Qed.

Local Close Scope Q_scope.

Lemma decode_decoded v : wf v -> decoded (decode v).
Proof.
  intros Hwf. destruct (fields_of v Hwf) as (s & E & M & F).
  pose proof (f_M _ _ _ _ F) as HM. pose proof (f_E _ _ _ _ F) as HE.
  destruct (decode_shape _ _ _ _ F); cbn [decoded]; try exact I; unfold canonical; lia.
Qed.

Lemma decode_not_nan v : wf v -> is_nan v = false -> decode v <> S754_nan.
Proof.
  intros Hwf Hn. destruct (fields_of v Hwf) as (s & E & M & F).
  rewrite (is_nan_fields _ _ _ _ F) in Hn.
  destruct (decode_shape _ _ _ _ F) as [He H0|He H0|He H0|p He Hp|p He Hp]; try discriminate.
  subst E. destruct (Z.eqb_spec M 0); [lia | discriminate Hn].
Qed.

(** Flipping bit 31 negates the value. *)
Lemma decode_flip v : wf v -> decode (Z.lxor v 0x80000000) = SFopp (decode v).
Proof.
  intros Hwf. destruct (fields_of v Hwf) as (s & E & M & F).
  pose proof (fields_flip _ _ _ _ F) as F'.
  assert (Hs : (1 - s =? 1) = negb (s =? 1)) by (destruct (f_s _ _ _ _ F) as [-> | ->]; reflexivity).
  pose proof (f_M _ _ _ _ F) as HM.
  destruct (decode_shape _ _ _ _ F) as [He H0|He H0|He H0|p He Hp|p He Hp];
    destruct (decode_shape _ _ _ _ F') as [He' H0'|He' H0'|He' H0'|p' He' Hp'|p' He' Hp'];
    try lia; cbn [SFopp]; rewrite ?Hs; try reflexivity;
    assert (p' = p) by lia; subst p'; reflexivity.
Qed.

(** The two quantizers on the widths whose shifts are defined. *)
Lemma unorm_unfold v bits :
  0 <= bits <= 30 ->
  quantizeUnorm v bits = fixed (clamp01 (decode v)) (of_int (2 ^ bits - 1)).
Proof.
  intros Hb.
  assert (0 < 2 ^ bits) by (apply Z.pow_pos_nonneg; lia).
  assert (2 ^ bits <= 2 ^ 30) by (apply Z.pow_le_mono_r; lia).
  unfold quantizeUnorm. rewrite shl_one by lia. cbn [bind].
  rewrite sub_small by lia. reflexivity.
Qed.

Lemma snorm_unfold v bits :
  1 <= bits <= 31 ->
  quantizeSnorm v bits =
    to_int (add (mul (clamp11 (decode v)) (of_int (2 ^ (bits - 1) - 1))) (round_of (decode v))).
Proof.
  intros Hb.
  assert (0 < 2 ^ (bits - 1)) by (apply Z.pow_pos_nonneg; lia).
  assert (2 ^ (bits - 1) <= 2 ^ 30) by (apply Z.pow_le_mono_r; lia).
  unfold quantizeSnorm. rewrite sub_small by lia. cbn [bind].
  rewrite shl_one by lia. cbn [bind]. rewrite sub_small by lia. reflexivity.
Qed.

Lemma shl_one_undefined b : ~ 0 <= b <= 30 -> Int32.shl 1 b = None.
Proof.
  intros Hb. unfold Int32.shl.
  destruct (Z.leb_spec 0 b); destruct (Z.ltb_spec b 32); cbn [andb Z.leb Z.compare];
    try reflexivity.
  assert (b = 31) by lia. subst b. reflexivity.
Qed.

Lemma unorm_undefined v bits : ~ 0 <= bits <= 30 -> quantizeUnorm v bits = None.
Proof.
  intros Hb. unfold quantizeUnorm. now rewrite shl_one_undefined.
Qed.

Lemma snorm_undefined v bits : ~ 1 <= bits <= 31 -> quantizeSnorm v bits = None.
Proof.
  intros Hb. unfold quantizeSnorm, Int32.sub, Int32.checked.
  destruct (Int32.fits (bits - 1)); [|reflexivity].
  cbn [bind]. rewrite shl_one_undefined by lia. reflexivity.
Qed.

(** The clamp of [quantizeUnorm] on every value. *)
Lemma clamp01_range d :
  decoded d -> nonneg_finite (clamp01 d) /\ (F2Q (clamp01 d) <= 1)%Q.
Proof.
  destruct d as [s|s| |s m e]; cbn [decoded]; intros Hd.
  - destruct s; split; try exact I; discriminate.
  - destruct s; split; try exact I; cbn; discriminate.
  - split; [exact I | discriminate].
  - destruct s.
    + split; [exact I | discriminate].
    + change (clamp01 (S754_finite false m e)) with (clamp_hi (S754_finite false m e)).
      destruct (clamp_hi_nonneg m e Hd) as (Hn & H1 & _). split; assumption.
Qed.

(** X9: [quantizeUnorm] has a defined result, on every input, exactly at
    the widths from 0 to 30: outside them the shift or the subtraction
    that builds the scale overflows. *)
Theorem quantizeUnorm_defined v bits :
  wf v -> ((exists q, quantizeUnorm v bits = Some q) <-> 0 <= bits <= 30).
Proof.
  intros Hwf. split.
  - intros [q Hq]. destruct (Z_le_dec 0 bits); [destruct (Z_le_dec bits 30)|]; try lia;
      rewrite unorm_undefined in Hq by lia; discriminate Hq.
  - intros Hb. rewrite unorm_unfold by exact Hb.
    destruct (clamp01_range (decode v) (decode_decoded v Hwf)) as [Hc Hc1].
    assert (0 < 2 ^ bits) by (apply Z.pow_pos_nonneg; lia).
    assert (2 ^ bits <= 2 ^ 30) by (apply Z.pow_le_mono_r; lia).
    destruct (of_int_le_pow30 (2 ^ bits - 1)) as [Hs Hs30]; [lia|].
    destruct (scale_round_defined _ _ Hc Hc1 Hs Hs30) as (_ & Ht & _).
    eexists. exact Ht.
Qed.

Lemma quantizeUnorm_defined_witness :
  (exists q, quantizeUnorm 0x7f800000 30 = Some q) /\ quantizeUnorm 0x3f000000 31 = None.
Proof.
  split.
  - apply (quantizeUnorm_defined 0x7f800000 30); [unfold wf; lia | lia].
  - destruct (quantizeUnorm 0x3f000000 31) as [q|] eqn:Hq; [|reflexivity].
    assert (H : 0 <= 31 <= 30); [|lia].
    apply (quantizeUnorm_defined 0x3f000000 31); [unfold wf; lia | exists q; exact Hq].
Defined.

Lemma fixed_zero s scale : nonneg_finite scale -> fixed (S754_zero s) scale = Some 0.
Proof.
  destruct scale as [ss|ss| |[|] ms es]; cbn [nonneg_finite]; try contradiction; intros _;
    reflexivity.
Qed.

(** The negative side of [quantizeSnorm] is the mirror image of the
    non-negative one. *)
Lemma fixed_opp c scale :
  nonneg_finite c -> (F2Q c <= 1)%Q -> nonneg_finite scale -> (F2Q scale <= 2 ^ 30)%Q ->
  to_int (add (mul (SFopp c) scale) neg_half) = option_map Z.opp (fixed c scale).
Proof.
  intros Hc Hc1 Hs Hs30.
  destruct (scale_round_defined c scale Hc Hc1 Hs Hs30) as (_ & Ht & Hr).
  assert (Hpn : nonneg_finite (mul c scale)).
  { apply (mul_keeps_grid c scale 7); [lia | exact Hc | exact Hs |].
    pose proof (F2Q_nonneg c Hc). pose proof (F2Q_nonneg scale Hs).
    apply Qle_lt_trans with (1 * F2Q scale)%Q; [apply Qmult_le_compat_r; assumption|].
    rewrite Qmult_1_l. eapply Qle_lt_trans; [exact Hs30 | reflexivity]. }
  rewrite mul_opp_l, add_opp_half by assumption.
  unfold fixed. rewrite Ht. cbn [option_map]. apply to_int_opp; [exact Ht | lia].
Qed.

(** The clamps and the rounding constant of [quantizeSnorm], by the sign
    of the input. *)
Lemma snorm_cases d :
  decoded d -> d <> S754_nan ->
  (ge d (of_int 0) = true /\ round_of d = half /\ clamp11 d = clamp01 d) \/
  (ge d (of_int 0) = false /\ round_of d = neg_half /\
   clamp11 d = SFopp (clamp01 (SFopp d)) /\ (0 < F2Q (clamp01 (SFopp d)))%Q).
Proof.
  destruct d as [s|s| |s m e]; cbn [decoded]; intros Hd Hn; try congruence.
  - left. repeat split.
  - destruct s; [right | left]; repeat split.
  - destruct s; [right | left].
    + split; [reflexivity|]. split; [reflexivity|].
      cbn [SFopp negb].
      change (clamp01 (S754_finite false m e)) with (clamp_hi (S754_finite false m e)).
      destruct (clamp_hi_nonneg m e Hd) as (_ & _ & H0 & _). split; [|exact H0].
      unfold clamp11. rewrite ge_minus_one. unfold clamp_hi.
      destruct (le (S754_finite false m e) (of_int 1)); reflexivity.
    + repeat split.
Qed.

Lemma snorm_as_fixed v bits :
  wf v -> 1 <= bits <= 31 ->
  let d := decode v in
  let scale := of_int (2 ^ (bits - 1) - 1) in
  (ge d (of_int 0) = true /\ quantizeSnorm v bits = fixed (clamp01 d) scale) \/
  (ge d (of_int 0) = false /\
   exists c, nonneg_finite c /\ (0 < F2Q c <= 1)%Q /\ (d <> S754_nan -> c = clamp01 (SFopp d)) /\
             quantizeSnorm v bits = option_map Z.opp (fixed c scale)).
Proof.
  intros Hwf Hb d scale. rewrite snorm_unfold by exact Hb. fold d scale.
  assert (0 < 2 ^ (bits - 1)) by (apply Z.pow_pos_nonneg; lia).
  assert (2 ^ (bits - 1) <= 2 ^ 30) by (apply Z.pow_le_mono_r; lia).
  destruct (of_int_le_pow30 (2 ^ (bits - 1) - 1)) as [Hs Hs30]; [lia|]. fold scale in Hs, Hs30.
  pose proof (decode_decoded v Hwf) as Hd. fold d in Hd.
  destruct d as [s|s| |s m e] eqn:Ed.
  1,2,4: destruct (snorm_cases d) as [(Hge & Hr & Hc) | (Hge & Hr & Hc & Hpos)];
    [rewrite Ed; exact Hd | rewrite Ed; discriminate | |]; rewrite Ed in *.
  1,3,5: left; split; [exact Hge|]; rewrite Hr, Hc; reflexivity.
  1,2,3: right; split; [exact Hge|];
    match type of Hpos with (0 < F2Q (clamp01 ?x))%Q =>
      assert (Hdx : decoded x) by exact Hd;
      destruct (clamp01_range x Hdx) as [Hcn Hc1];
      exists (clamp01 x); split; [exact Hcn|]; split; [split; assumption|];
      split; [reflexivity|]; rewrite Hr, Hc; apply fixed_opp; assumption
    end.
  right. split; [reflexivity|]. exists (of_int 1).
  split; [exact I|]. split; [split; [reflexivity | discriminate]|].
  split; [congruence|].
  change (round_of S754_nan) with neg_half. change (clamp11 S754_nan) with (SFopp (of_int 1)).
  apply fixed_opp; [exact I | discriminate | exact Hs | exact Hs30].
Qed.

(** X10: [quantizeSnorm] has a defined result, on every input, exactly at
    the widths from 1 to 31. *)
Theorem quantizeSnorm_defined v bits :
  wf v -> ((exists q, quantizeSnorm v bits = Some q) <-> 1 <= bits <= 31).
Proof.
  intros Hwf. split.
  - intros [q Hq]. destruct (Z_le_dec 1 bits); [destruct (Z_le_dec bits 31)|]; try lia;
      rewrite snorm_undefined in Hq by lia; discriminate Hq.
  - intros Hb.
    assert (0 < 2 ^ (bits - 1)) by (apply Z.pow_pos_nonneg; lia).
    assert (2 ^ (bits - 1) <= 2 ^ 30) by (apply Z.pow_le_mono_r; lia).
    destruct (of_int_le_pow30 (2 ^ (bits - 1) - 1)) as [Hs Hs30]; [lia|].
    destruct (snorm_as_fixed v bits Hwf Hb) as [[_ ->] | (_ & c & Hc & [_ Hc1] & _ & ->)].
    + destruct (clamp01_range (decode v) (decode_decoded v Hwf)) as [Hc Hc1].
      destruct (scale_round_defined _ _ Hc Hc1 Hs Hs30) as (_ & Ht & _).
      eexists. exact Ht.
    + destruct (scale_round_defined _ _ Hc Hc1 Hs Hs30) as (_ & Ht & _).
      unfold fixed. rewrite Ht. eexists. reflexivity.
Qed.

Lemma quantizeSnorm_defined_witness :
  (exists q, quantizeSnorm 0xff800000 31 = Some q) /\ quantizeSnorm 0x3f000000 0 = None.
Proof.
  split.
  - apply (quantizeSnorm_defined 0xff800000 31); [unfold wf; lia | lia].
  - destruct (quantizeSnorm 0x3f000000 0) as [q|] eqn:Hq; [|reflexivity].
    assert (H : 1 <= 0 <= 31); [|lia].
    apply (quantizeSnorm_defined 0x3f000000 0); [unfold wf; lia | exists q; exact Hq].
Defined.

(** X11: on a non-negative input, the negative zero and the positive
    infinity included, [quantizeSnorm] at a width is [quantizeUnorm] at one
    bit less, undefined widths included. *)
Theorem quantizeSnorm_nonneg v bits :
  wf v -> ge (decode v) (of_int 0) = true ->
  quantizeSnorm v bits = quantizeUnorm v (bits - 1).
Proof.
  intros Hwf Hge.
  destruct (Z_le_dec 1 bits) as [H1 | H1]; [destruct (Z_le_dec bits 31) as [H2 | H2]|].
  - rewrite unorm_unfold by lia.
    destruct (snorm_as_fixed v bits Hwf) as [[_ ->] | [Hge' _]]; [lia | reflexivity | congruence].
  - rewrite snorm_undefined, unorm_undefined by lia. reflexivity.
  - rewrite snorm_undefined, unorm_undefined by lia. reflexivity.
Qed.

Lemma quantizeSnorm_nonneg_witness :
  quantizeSnorm 0x3f000000 8 = quantizeUnorm 0x3f000000 (8 - 1).
Proof.
  apply (quantizeSnorm_nonneg 0x3f000000 8); [unfold wf; lia | reflexivity].
Defined.

Lemma wf_flip v : wf v -> wf (Z.lxor v 0x80000000).
Proof.
  intros Hwf. destruct (fields_of v Hwf) as (s & E & M & F).
  pose proof (fields_flip _ _ _ _ F) as F'.
  pose proof (f_ui _ _ _ _ F') as Hui. pose proof (f_E _ _ _ _ F'). pose proof (f_M _ _ _ _ F').
  unfold wf. rewrite Hui. destruct (f_s _ _ _ _ F) as [-> | ->]; lia.
Qed.

Lemma SFopp_involutive d : SFopp (SFopp d) = d.
Proof. destruct d as [s|s| |s m e]; cbn [SFopp]; rewrite ?negb_involutive; reflexivity. Qed.

Lemma decoded_opp d : decoded d -> decoded (SFopp d).
Proof. destruct d; exact (fun H => H). Qed.

Lemma ge_zero_opp d :
  d <> S754_nan ->
  (ge d (of_int 0) = true -> ge (SFopp d) (of_int 0) = true -> exists s, d = S754_zero s) /\
  (ge d (of_int 0) = false -> ge (SFopp d) (of_int 0) = true).
Proof.
  destruct d as [s|s| |s m e]; intros Hn; try congruence; split;
    try (intros; eexists; reflexivity); destruct s; try discriminate; try reflexivity.
Qed.

Lemma option_opp_involutive (x : option Z) : option_map Z.opp (option_map Z.opp x) = x.
Proof. destruct x as [q|]; cbn [option_map]; [now rewrite Z.opp_involutive | reflexivity]. Qed.

(** X12: [quantizeSnorm] is odd: on a non-NaN input, flipping the sign bit
    negates the result, at every width (where one side is undefined, so is
    the other). *)
Theorem quantizeSnorm_odd v bits :
  wf v -> is_nan v = false ->
  quantizeSnorm (Z.lxor v 0x80000000) bits = option_map Z.opp (quantizeSnorm v bits).
Proof.
  intros Hwf Hn.
  destruct (Z_le_dec 1 bits) as [H1 | H1]; [destruct (Z_le_dec bits 31) as [H2 | H2]|];
    try (rewrite !snorm_undefined by lia; reflexivity).
  pose proof (decode_not_nan v Hwf Hn) as Hnn.
  pose proof (wf_flip v Hwf) as Hwf'.
  assert (0 < 2 ^ (bits - 1)) by (apply Z.pow_pos_nonneg; lia).
  assert (2 ^ (bits - 1) <= 2 ^ 30) by (apply Z.pow_le_mono_r; lia).
  destruct (of_int_le_pow30 (2 ^ (bits - 1) - 1)) as [Hs Hs30]; [lia|].
  destruct (ge_zero_opp (decode v) Hnn) as [Hz Hneg].
  assert (Hnn' : SFopp (decode v) <> S754_nan).
  { intros Habs. apply Hnn. rewrite <- (SFopp_involutive (decode v)), Habs. reflexivity. }
  destruct (snorm_as_fixed v bits Hwf) as [[Hge Hq] | (Hge & c & _ & _ & Hc & Hq)]; [lia | |];
    destruct (snorm_as_fixed (Z.lxor v 0x80000000) bits Hwf')
      as [[Hge' Hq'] | (Hge' & c' & _ & _ & Hc' & Hq')]; try lia;
    rewrite (decode_flip v Hwf) in *.
  - destruct (Hz Hge Hge') as [s Hd]. rewrite Hq, Hq', Hd. cbn [SFopp].
    change (clamp01 (S754_zero (negb s))) with (S754_zero (negb s)).
    change (clamp01 (S754_zero s)) with (S754_zero s).
    rewrite !fixed_zero by exact Hs. reflexivity.
  - rewrite Hq, Hq', (Hc' Hnn'), SFopp_involutive. reflexivity.
  - rewrite Hq, Hq', (Hc Hnn), option_opp_involutive. reflexivity.
  - rewrite (Hneg Hge) in Hge'. discriminate Hge'.
Qed.

Lemma quantizeSnorm_odd_witness :
  quantizeSnorm (Z.lxor 0x3e99999a 0x80000000) 8 = option_map Z.opp (quantizeSnorm 0x3e99999a 8).
Proof.
  apply (quantizeSnorm_odd 0x3e99999a 8); [unfold wf; lia | reflexivity].
Defined.

(** The clamps at and beyond the ends of the range. *)
Lemma clamp01_low d :
  decoded d -> le d (of_int 0) = true -> exists s, clamp01 d = S754_zero s.
Proof.
  destruct d as [s|s| |s m e]; intros _ Hle; try discriminate Hle.
  - exists s. reflexivity.
  - destruct s; [exists false; reflexivity | discriminate Hle].
  - destruct s; [exists false; reflexivity | discriminate Hle].
Qed.

Lemma clamp01_high d : le (of_int 1) d = true -> clamp01 d = of_int 1.
Proof.
  destruct d as [s|s| |s m e]; intros Hle; try discriminate Hle.
  - destruct s; [discriminate Hle | reflexivity].
  - destruct s; [discriminate Hle|].
    change (clamp01 (S754_finite false m e)) with (clamp_hi (S754_finite false m e)).
    revert Hle. unfold clamp_hi. change (of_int 1) with (S754_finite false (2 ^ 23) (-23)).
    unfold le, SFleb. cbn [SFcompare]. rewrite !compare_cont_Eq.
    rewrite (Z.compare_antisym e (-23)), (Z.compare_antisym (Zpos m) (Zpos (2 ^ 23))).
    destruct (Z.compare_spec e (-23)) as [-> | He | He]; cbn [CompOpp]; try discriminate;
      try reflexivity.
    destruct (Z.compare_spec (Zpos m) (Zpos (2 ^ 23))) as [Hm | Hm | Hm]; cbn [CompOpp];
      try discriminate; try reflexivity.
    intros _. injection Hm as ->. reflexivity.
Qed.

(** [v <= -1] on a negative value is [1 <= |v|]. *)
Lemma le_minus_one m e :
  le (S754_finite true m e) (of_int (-1)) = le (of_int 1) (S754_finite false m e).
Proof.
  change (of_int (-1)) with (S754_finite true (2 ^ 23) (-23)).
  change (of_int 1) with (S754_finite false (2 ^ 23) (-23)).
  unfold le, SFleb. cbn [SFcompare]. rewrite !compare_cont_Eq.
  rewrite (Z.compare_antisym e (-23)), (Z.compare_antisym (Zpos m) (Zpos (2 ^ 23))).
  destruct (e ?= -23); cbn [CompOpp]; reflexivity.
Qed.

(** The top of the range at a scale that binary32 holds with its half. *)
Lemma fixed_one S : 0 <= S <= 2 ^ 23 - 1 -> fixed (of_int 1) (of_int S) = Some S.
Proof.
  intros HS. destruct (of_int_value S) as [Hsn Hsv]; [lia|].
  assert (H1n : nonneg_finite (of_int 1)) by exact I.
  assert (H11 : (F2Q (of_int 1) <= 1)%Q) by (rewrite F2Q_one; apply Qle_refl).
  destruct (scale_round_trunc (of_int 1) (of_int S) S H1n H11 Hsn Hsv HS)
    as (q & Hq & _ & Hr & Hex).
  unfold fixed. rewrite Hq. f_equal. rewrite Hex.
  - apply Qfloor_unique; rewrite F2Q_one; [|rewrite inject_Z_succ]; lra.
  - exists (2 * S). rewrite F2Q_one, even_half. ring.
Qed.

(** X13: [quantizeUnorm] saturates: an input of at most 0, the negative
    infinity included, gives 0 at every defined width, and an input of at
    least 1, the positive infinity included, gives the largest code
    [2^bits - 1] at every width up to 23. *)
Theorem quantizeUnorm_saturates v bits :
  wf v ->
  (le (decode v) (of_int 0) = true -> 0 <= bits <= 30 -> quantizeUnorm v bits = Some 0) /\
  (le (of_int 1) (decode v) = true -> 0 <= bits <= 23 ->
   quantizeUnorm v bits = Some (2 ^ bits - 1)).
Proof.
  intros Hwf. split; intros Hle Hb; rewrite unorm_unfold by lia.
  - destruct (clamp01_low _ (decode_decoded v Hwf) Hle) as [s ->].
    assert (0 < 2 ^ bits) by (apply Z.pow_pos_nonneg; lia).
    assert (2 ^ bits <= 2 ^ 30) by (apply Z.pow_le_mono_r; lia).
    apply fixed_zero. apply of_int_nonneg. lia.
  - rewrite (clamp01_high _ Hle).
    assert (0 < 2 ^ bits) by (apply Z.pow_pos_nonneg; lia).
    assert (2 ^ bits <= 2 ^ 23) by (apply Z.pow_le_mono_r; lia).
    apply fixed_one. lia.
Qed.

Lemma quantizeUnorm_saturates_witness :
  quantizeUnorm 0xff800000 16 = Some 0 /\ quantizeUnorm 0x7f800000 16 = Some 65535.
Proof.
  split.
  - apply (quantizeUnorm_saturates 0xff800000 16); [unfold wf; lia | reflexivity | lia].
  - apply (quantizeUnorm_saturates 0x7f800000 16); [unfold wf; lia | reflexivity | lia].
Defined.

(** X14: from 24 bits on the largest code is out of reach: an input of at
    least 1 gives [2^bits], one more than [2^bits - 1], because
    [scale + 0.5f], and from 25 bits on the scale itself, is rounded up. *)
Theorem quantizeUnorm_overshoot v bits :
  wf v -> le (of_int 1) (decode v) = true -> 24 <= bits <= 30 ->
  quantizeUnorm v bits = Some (2 ^ bits).
Proof.
  intros Hwf Hle Hb. rewrite unorm_unfold by lia. rewrite (clamp01_high _ Hle).
  assert (Hc : bits = 24 \/ bits = 25 \/ bits = 26 \/ bits = 27 \/ bits = 28 \/ bits = 29
               \/ bits = 30) by lia.
  destruct Hc as [-> | [-> | [-> | [-> | [-> | [-> | ->]]]]]]; vm_compute; reflexivity.
Qed.

Lemma quantizeUnorm_overshoot_witness : quantizeUnorm 0x3f800000 24 = Some 16777216.
Proof.
  apply (quantizeUnorm_overshoot 0x3f800000 24); [unfold wf; lia | reflexivity | lia].
Defined.

(** X15: [quantizeSnorm] saturates symmetrically: an input of at least 1
    gives [2^(bits-1) - 1] and an input of at most -1 gives its negation,
    the infinities included, at every width from 1 to 24; a zero of either
    sign gives 0 at every defined width. *)
Theorem quantizeSnorm_saturates v bits :
  wf v ->
  (le (of_int 1) (decode v) = true -> 1 <= bits <= 24 ->
   quantizeSnorm v bits = Some (2 ^ (bits - 1) - 1)) /\
  (le (decode v) (of_int (-1)) = true -> 1 <= bits <= 24 ->
   quantizeSnorm v bits = Some (- (2 ^ (bits - 1) - 1))) /\
  ((exists s, decode v = S754_zero s) -> 1 <= bits <= 31 -> quantizeSnorm v bits = Some 0).
Proof.
  intros Hwf.
  assert (Hscale : 1 <= bits <= 31 -> nonneg_finite (of_int (2 ^ (bits - 1) - 1))).
  { intros Hb. assert (0 < 2 ^ (bits - 1)) by (apply Z.pow_pos_nonneg; lia).
    assert (2 ^ (bits - 1) <= 2 ^ 30) by (apply Z.pow_le_mono_r; lia).
    apply of_int_nonneg. lia. }
  assert (Hone : 1 <= bits <= 24 ->
            fixed (of_int 1) (of_int (2 ^ (bits - 1) - 1)) = Some (2 ^ (bits - 1) - 1)).
  { intros Hb. assert (0 < 2 ^ (bits - 1)) by (apply Z.pow_pos_nonneg; lia).
    assert (2 ^ (bits - 1) <= 2 ^ 23) by (apply Z.pow_le_mono_r; lia).
    apply fixed_one. lia. }
  split; [|split].
  - intros Hle Hb.
    destruct (snorm_as_fixed v bits Hwf) as [[Hge ->] | (Hge & _)]; [lia | |].
    + rewrite (clamp01_high _ Hle). apply Hone. exact Hb.
    + exfalso. revert Hle Hge. destruct (decode v) as [s|s| |s m e]; try discriminate;
        destruct s; discriminate.
  - intros Hle Hb.
    assert (Hnn : decode v <> S754_nan) by (intros E; rewrite E in Hle; discriminate Hle).
    assert (Hup : le (of_int 1) (SFopp (decode v)) = true).
    { revert Hle. destruct (decode v) as [s|s| |s m e]; try discriminate;
        destruct s; try discriminate; try reflexivity.
      cbn [SFopp negb]. intros Hle. rewrite <- Hle. symmetry. apply le_minus_one. }
    destruct (snorm_as_fixed v bits Hwf) as [[Hge _] | (_ & c & _ & _ & Hc & ->)]; [lia | |].
    + exfalso. revert Hle Hge. destruct (decode v) as [s|s| |s m e]; try discriminate;
        destruct s; discriminate.
    + rewrite (Hc Hnn), (clamp01_high _ Hup), (Hone Hb). reflexivity.
  - intros [s Hd] Hb.
    destruct (snorm_as_fixed v bits Hwf) as [[Hge ->] | (Hge & _)]; [lia | |].
    + rewrite Hd. change (clamp01 (S754_zero s)) with (S754_zero s).
      apply fixed_zero. apply Hscale. exact Hb.
    + rewrite Hd in Hge. discriminate Hge.
Qed.

Lemma quantizeSnorm_saturates_witness :
  quantizeSnorm 0x7f800000 16 = Some 32767 /\ quantizeSnorm 0xff800000 16 = Some (-32767) /\
  quantizeSnorm 0x80000000 16 = Some 0.
Proof.
  split; [|split].
  - apply (quantizeSnorm_saturates 0x7f800000 16); [unfold wf; lia | reflexivity | lia].
  - apply (quantizeSnorm_saturates 0xff800000 16); [unfold wf; lia | reflexivity | lia].
  - apply (quantizeSnorm_saturates 0x80000000 16);
      [unfold wf; lia | exists true; reflexivity | lia].
Defined.

(** ** Rounding to nearest is monotone *)

Ltac bool_cases :=
  repeat match goal with
  | |- context [Z.leb ?a ?b] => destruct (Z.leb_spec a b)
  | |- context [Z.eqb ?a ?b] => destruct (Z.eqb_spec a b)
  end; cbn [orb negb andb]; try reflexivity; try lia.

Lemma shr_1_located M k mrs :
  0 <= M -> 0 <= k -> located M k mrs -> located M (k + 1) (shr_1 mrs).
Proof.
  intros HM Hk (Hm & Hr & Hs). destruct mrs as [m r s]. cbn [shr_m shr_r shr_s] in *.
  assert (Hp : 0 < 2 ^ k) by (apply Z.pow_pos_nonneg; lia).
  assert (Hpk : 2 ^ (k + 1) = 2 ^ k * 2) by (rewrite Z.pow_add_r by lia; lia).
  assert (Hdiv : M / 2 ^ (k + 1) = m / 2) by (rewrite Hpk, Hm, Z.div_div by lia; reflexivity).
  assert (Hmod : M mod 2 ^ (k + 1) = M mod 2 ^ k + 2 ^ k * (m mod 2))
    by (rewrite Hpk, Z.rem_mul_r, Hm by lia; reflexivity).
  pose proof (Z.mod_pos_bound M (2 ^ k) Hp) as Hrho.
  assert (Hm0 : 0 <= m) by (rewrite Hm; apply Z.div_pos; lia).
  unfold located. rewrite Hdiv, Hmod, Hpk. clear Hdiv Hmod Hpk Hm.
  set (rho := M mod 2 ^ k) in *. set (P := 2 ^ k) in *. subst r s.
  destruct m as [|[p|p|]|p]; cbn [shr_1 shr_m shr_r shr_s]; try lia.
  - change (0 mod 2) with 0. change (0 / 2) with 0. rewrite Z.mul_0_r, Z.add_0_r.
    split; [reflexivity|]. split; bool_cases.
  - replace (Z.pos p~1 mod 2) with 1 by (rewrite Pos2Z.inj_xI; Z.to_euclidean_division_equations; lia).
    replace (Z.pos p~1 / 2) with (Z.pos p) by (rewrite Pos2Z.inj_xI; Z.to_euclidean_division_equations; lia).
    rewrite Z.mul_1_r. split; [reflexivity|]. split; bool_cases.
  - replace (Z.pos p~0 mod 2) with 0 by (rewrite Pos2Z.inj_xO; Z.to_euclidean_division_equations; lia).
    replace (Z.pos p~0 / 2) with (Z.pos p) by (rewrite Pos2Z.inj_xO; Z.to_euclidean_division_equations; lia).
    rewrite Z.mul_0_r, Z.add_0_r. split; [reflexivity|]. split; bool_cases.
  - change (1 mod 2) with 1. change (1 / 2) with 0. rewrite Z.mul_1_r.
    split; [reflexivity|]. split; bool_cases.
Qed.

Lemma shr_located M e n :
  0 <= M -> 0 < n ->
  exists mrs, shr (Build_shr_record M false false) e n = (mrs, e + n) /\ located M n mrs.
Proof.
  intros HM Hn. destruct n as [|p|p]; try lia.
  cbn [shr]. eexists. split; [reflexivity|].
  change (Zpos p) with (0 + Zpos p).
  apply (iter_pos_invariant shr_1 (located M)).
  - intros k x Hk Hx. now apply shr_1_located.
  - lia.
  - unfold located. cbn [shr_m shr_r shr_s]. change (2 ^ 0) with 1.
    rewrite Z.div_1_r, Z.mod_1_r. repeat split.
Qed.

Lemma round_nearest_even_located M k mrs :
  0 <= k -> located M k mrs ->
  round_nearest_even (shr_m mrs) (loc_of_shr_record mrs) = rne M k.
Proof.
  intros Hk (Hm & Hr & Hs). destruct mrs as [m r s]. cbn [shr_m shr_r shr_s] in *.
  assert (Hp : 0 < 2 ^ k) by (apply Z.pow_pos_nonneg; lia).
  pose proof (Z.mod_pos_bound M (2 ^ k) Hp) as Hrho.
  unfold rne. subst m r s.
  set (rho := M mod 2 ^ k) in *. set (P := 2 ^ k) in *.
  destruct (Z.compare_spec (2 * rho) P);
    destruct (Z.leb_spec P (2 * rho)); try lia;
    destruct (Z.eqb_spec rho 0); try lia;
    destruct (Z.eqb_spec (2 * rho) P); try lia; reflexivity.
Qed.

Lemma rne_bounds M k :
  0 <= k -> M / 2 ^ k <= rne M k <= M / 2 ^ k + 1 /\ (M mod 2 ^ k = 0 -> rne M k = M / 2 ^ k).
Proof.
  intros Hk. assert (Hp : 0 < 2 ^ k) by (apply Z.pow_pos_nonneg; lia).
  unfold rne. split.
  - destruct (2 * (M mod 2 ^ k) ?= 2 ^ k); [destruct (Z.even (M / 2 ^ k))| |]; lia.
  - intros ->. change (2 * 0) with 0. destruct (Z.compare_spec 0 (2 ^ k)); lia.
Qed.

(** A mantissa that is too long is rounded to nearest, ties to even, at
    the exponent the format gives. *)
Lemma binary_round_aux_rne s m e :
  let e1 := fexp prec emax (Zpos (digits2_pos m) + e) in
  e < e1 -> e1 <= 103 ->
  rne (Zpos m) (e1 - e) <= 2 ^ 24 /\
  binary_round_aux prec emax s (Zpos m) e loc_Exact =
    match rne (Zpos m) (e1 - e) with
    | Zpos p => if Zpos p <? 2 ^ 24 then S754_finite s p e1
                else S754_finite s (2 ^ 23)%positive (e1 + 1)
    | _ => S754_zero s
    end.
Proof.
  intros e1 Hlt Hmax.
  pose proof (digits2_pos_bounds m) as Hd.
  set (d := Zpos (digits2_pos m)) in *.
  assert (He1 : e1 = Z.max (d + e - 24) (-149)) by reflexivity.
  destruct (shr_located (Zpos m) e (e1 - e)) as (mrs & Hshr & Hsh); [lia | lia |].
  assert (Hrne : round_nearest_even (shr_m mrs) (loc_of_shr_record mrs) = rne (Zpos m) (e1 - e))
    by (apply round_nearest_even_located; [lia | exact Hsh]).
  destruct (rne_bounds (Zpos m) (e1 - e)) as [Hm1 Hex]; [lia|].
  set (q := Zpos m / 2 ^ (e1 - e)) in *.
  set (m1 := rne (Zpos m) (e1 - e)) in *.
  assert (Hq : 0 <= q < 2 ^ 24).
  { subst q. split; [apply Z.div_pos; [lia | apply Z.pow_pos_nonneg; lia]|].
    apply Z.div_lt_upper_bound; [apply Z.pow_pos_nonneg; lia|].
    rewrite <- Z.pow_add_r by lia.
    assert (2 ^ d <= 2 ^ (e1 - e + 24)) by (apply Z.pow_le_mono_r; lia). lia. }
  assert (Hsub : e1 = -149 -> d + e - 24 < -149 -> q < 2 ^ 23).
  { intros E1 E2. subst q. apply Z.div_lt_upper_bound; [apply Z.pow_pos_nonneg; lia|].
    rewrite <- Z.pow_add_r by lia.
    assert (2 ^ d <= 2 ^ (e1 - e + 23)) by (apply Z.pow_le_mono_r; lia). lia. }
  split; [lia|].
  unfold binary_round_aux.
  replace (shr_fexp prec emax (Zpos m) e loc_Exact) with (mrs, e1).
  2:{ unfold shr_fexp. cbn [shr_record_of_loc Zdigits2]. fold d. fold e1.
      rewrite Hshr. f_equal. lia. }
  rewrite Hrne.
  destruct m1 as [|p|p] eqn:Em1; [| |lia].
  - rewrite shr_fexp_nop; [reflexivity | lia | cbn [Zdigits2]; rewrite fexp32; lia].
  - destruct (Z.ltb_spec (Zpos p) (2 ^ 24)) as [Hp | Hp].
    + assert (Hdp : Zpos (digits2_pos p) <= 24) by (apply digits_le; lia).
      assert (Hdp' : e1 = -149 -> d + e - 24 < -149 -> Zpos (digits2_pos p) <= 24) by lia.
      rewrite shr_fexp_nop; [| lia | cbn [Zdigits2]; rewrite fexp32; lia].
      cbn [shr_m]. change (emax - prec) with 104.
      destruct (Z.leb_spec e1 104); [reflexivity | lia].
    + assert (Hp24 : Zpos p = 2 ^ 24) by lia.
      assert (Hnorm : e1 = d + e - 24) by lia.
      assert (Hdp : Zpos (digits2_pos p) = 25).
      { apply digits2_pos_unique. rewrite Hp24. cbn. lia. }
      unfold shr_fexp. cbn [Zdigits2 shr_record_of_loc]. rewrite Hdp, fexp32.
      replace (Z.max (25 + e1 - 24) (-149) - e1) with 1 by lia.
      injection Hp24 as ->. cbn [shr iter_pos shr_1 shr_m].
      change (emax - prec) with 104.
      destruct (Z.leb_spec (e1 + 1) 104); [reflexivity | lia].
Qed.

Lemma rne_scale M k j : 0 <= k -> 0 <= j -> rne (M * 2 ^ j) (k + j) = rne M k.
Proof.
  intros Hk Hj.
  assert (Hp : 0 < 2 ^ k) by (apply Z.pow_pos_nonneg; lia).
  assert (Hq : 0 < 2 ^ j) by (apply Z.pow_pos_nonneg; lia).
  unfold rne. rewrite Z.pow_add_r by lia.
  rewrite Z.div_mul_cancel_r, Z.mul_mod_distr_r by lia.
  rewrite Z.mul_assoc, <- Zmult_compare_compat_r by lia. reflexivity.
Qed.

Lemma rne_mono M1 M2 k : 0 <= k -> M1 <= M2 -> rne M1 k <= rne M2 k.
Proof.
  intros Hk HM.
  assert (Hp : 0 < 2 ^ k) by (apply Z.pow_pos_nonneg; lia).
  destruct (rne_bounds M1 k Hk) as [H1 _]. destruct (rne_bounds M2 k Hk) as [H2 _].
  pose proof (Z.div_le_mono M1 M2 (2 ^ k) Hp HM) as Hq.
  destruct (Z.eq_dec (M1 / 2 ^ k) (M2 / 2 ^ k)) as [Heq | Hne]; [|lia].
  pose proof (Z.div_mod M1 (2 ^ k) ltac:(lia)) as D1.
  pose proof (Z.div_mod M2 (2 ^ k) ltac:(lia)) as D2.
  unfold rne in *. rewrite <- Heq in *.
  set (q := M1 / 2 ^ k) in *. set (P := 2 ^ k) in *.
  set (r1 := M1 mod P) in *. set (r2 := M2 mod P) in *.
  assert (Hr : r1 <= r2) by lia.
  destruct (Z.compare_spec (2 * r1) P); destruct (Z.compare_spec (2 * r2) P);
    destruct (Z.even q); lia.
Qed.

Local Open Scope Q_scope.

Lemma rounded_value m e :
  let e1 := fexp prec emax (Zpos (digits2_pos m) + e) in
  (e < e1)%Z -> (e1 <= 103)%Z ->
  let r := binary_round_aux prec emax false (Zpos m) e loc_Exact in
  nonneg_finite r /\ F2Q r == inject_Z (rne (Zpos m) (e1 - e)) * 2 ^ e1.
Proof.
  intros e1 Hlt Hmax r.
  destruct (binary_round_aux_rne false m e Hlt Hmax) as [H24 Hr]. fold e1 r in Hr.
  fold e1 in H24.
  destruct (rne_bounds (Zpos m) (e1 - e)) as [Hb _]; [lia|].
  assert (0 <= Zpos m / 2 ^ (e1 - e))%Z by (apply Z.div_pos; [lia | apply Z.pow_pos_nonneg; lia]).
  rewrite Hr. clear Hr. remember (rne (Zpos m) (e1 - e)) as m1 eqn:Em1. clear Em1.
  destruct m1 as [|p|p]; [cbn; split; [exact I | ring] | | lia].
  destruct (Z.ltb_spec (Zpos p) (2 ^ 24)); cbn [F2Q nonneg_finite]; split; try exact I;
    try reflexivity.
  assert (Hp : Zpos p = (2 ^ 24)%Z) by lia. rewrite Hp.
  rewrite pow2Q_add. change (inject_Z (2 ^ 24)) with (inject_Z (Zpos (2 ^ 23)) * 2 ^ 1). ring.
Qed.

Lemma value_lt_digits m e : inject_Z (Zpos m) * 2 ^ e < 2 ^ (Zpos (digits2_pos m) + e).
Proof.
  pose proof (digits2_pos_bounds m) as [_ Hhi].
  rewrite pow2Q_add. apply Qmult_lt_r; [apply pow2Q_pos|].
  rewrite pow2Q_Z by lia. now rewrite <- Zlt_Qlt.
Qed.

Lemma value_ge_digits m e : 2 ^ (Zpos (digits2_pos m) - 1 + e) <= inject_Z (Zpos m) * 2 ^ e.
Proof.
  pose proof (digits2_pos_bounds m) as [Hlo _].
  rewrite pow2Q_add. apply Qmult_le_r; [apply pow2Q_pos|].
  rewrite pow2Q_Z by lia. now rewrite <- Zle_Qle.
Qed.

(** Rounding to nearest preserves the order. *)
Lemma round_mono m1 e1 m2 e2 :
  inject_Z (Zpos m1) * 2 ^ e1 <= inject_Z (Zpos m2) * 2 ^ e2 ->
  inject_Z (Zpos m2) * 2 ^ e2 < 2 ^ 104 ->
  F2Q (binary_round_aux prec emax false (Zpos m1) e1 loc_Exact)
  <= F2Q (binary_round_aux prec emax false (Zpos m2) e2 loc_Exact).
Proof.
  intros Hle Hmax.
  pose proof (digits_of_bound _ _ _ Hmax) as Hd2.
  assert (Hd12 : (Zpos (digits2_pos m1) + e1 <= Zpos (digits2_pos m2) + e2)%Z).
  { apply digits_of_bound. eapply Qle_lt_trans; [exact Hle | apply value_lt_digits]. }
  set (d1 := Zpos (digits2_pos m1)) in *. set (d2 := Zpos (digits2_pos m2)) in *.
  assert (Hd1p : (0 < d1)%Z) by (subst d1; lia).
  assert (Hd2p : (0 < d2)%Z) by (subst d2; lia).
  pose proof (fexp32 (d1 + e1)) as HE1. pose proof (fexp32 (d2 + e2)) as HE2.
  set (E1 := fexp prec emax (d1 + e1)) in *. set (E2 := fexp prec emax (d2 + e2)) in *.
  destruct (Z_lt_le_dec E1 E2) as [Hlt | Hge].
  - (* a power of two lies between the two numbers *)
    set (g := (d2 + e2 - 1)%Z).
    assert (Hx1 : inject_Z (Zpos m1) * 2 ^ e1 <= inject_Z 1 * 2 ^ g).
    { rewrite Qmult_1_l. apply Qlt_le_weak. eapply Qlt_le_trans; [apply value_lt_digits|].
      fold d1. apply Qpower_le_compat_l; [subst g; lia | discriminate]. }
    assert (Hx2 : inject_Z 1 * 2 ^ g <= inject_Z (Zpos m2) * 2 ^ e2).
    { rewrite Qmult_1_l. subst g. replace (d2 + e2 - 1)%Z with (d2 - 1 + e2)%Z by lia.
      apply value_ge_digits. }
    destruct (round_between m1 e1 g) as (_ & _ & Hhi); [fold d1 E1; subst g; lia | subst g; lia | lia |].
    destruct (round_between m2 e2 g) as (_ & Hlo & _); [fold d2 E2; subst g; lia | subst g; lia | lia |].
    eapply Qle_trans; [apply Hhi; exact Hx1 | apply Hlo; exact Hx2].
  - assert (HE : E1 = E2) by lia.
    destruct (Z_le_gt_dec E1 e1) as [Hex1 | Hin1].
    { (* the first number is representable *)
      set (K := (Zpos m1 * 2 ^ (e1 - E1))%Z).
      assert (HK : inject_Z (Zpos m1) * 2 ^ e1 == inject_Z K * 2 ^ E1)
        by (apply dyadic_lower; lia).
      destruct (round_between m1 e1 E1) as (_ & _ & Hhi); [fold d1 E1; lia | lia | lia |].
      destruct (round_between m2 e2 E1) as (_ & Hlo & _); [fold d2 E2; lia | lia | lia |].
      eapply Qle_trans; [apply (Hhi K) | apply (Hlo K)]; rewrite <- HK;
        [apply Qle_refl | exact Hle]. }
    destruct (Z_le_gt_dec E2 e2) as [Hex2 | Hin2].
    { set (K := (Zpos m2 * 2 ^ (e2 - E2))%Z).
      assert (HK : inject_Z (Zpos m2) * 2 ^ e2 == inject_Z K * 2 ^ E2)
        by (apply dyadic_lower; lia).
      destruct (round_between m1 e1 E2) as (_ & _ & Hhi); [fold d1 E1; lia | lia | lia |].
      destruct (round_between m2 e2 E2) as (_ & Hlo & _); [fold d2 E2; lia | lia | lia |].
      eapply Qle_trans; [apply (Hhi K) | apply (Hlo K)]; rewrite <- HK;
        [exact Hle | apply Qle_refl]. }
    (* both are rounded at the same exponent *)
    destruct (rounded_value m1 e1) as [_ Hv1]; [fold d1 E1; lia | fold d1 E1; lia |].
    destruct (rounded_value m2 e2) as [_ Hv2]; [fold d2 E2; lia | fold d2 E2; lia |].
    fold d1 E1 in Hv1. fold d2 E2 in Hv2. rewrite Hv1, Hv2, HE.
    apply Qmult_le_r; [apply pow2Q_pos|]. rewrite <- Zle_Qle.
    set (e0 := Z.min e1 e2).
    rewrite <- (rne_scale (Zpos m1) (E2 - e1) (e1 - e0)) by (subst e0; lia).
    rewrite <- (rne_scale (Zpos m2) (E2 - e2) (e2 - e0)) by (subst e0; lia).
    replace (E2 - e1 + (e1 - e0))%Z with (E2 - e0)%Z by lia.
    replace (E2 - e2 + (e2 - e0))%Z with (E2 - e0)%Z by lia.
    apply rne_mono; [subst e0; lia|].
    apply (dyadic_le _ _ _ _ e0) in Hle; [exact Hle | subst e0; lia | subst e0; lia].
Qed.

Lemma binary_round_as_aux m e :
  exists mz ez,
    binary_round prec emax false m e = binary_round_aux prec emax false (Zpos mz) ez loc_Exact /\
    inject_Z (Zpos mz) * 2 ^ ez == inject_Z (Zpos m) * 2 ^ e.
Proof.
  unfold binary_round.
  set (e1 := fexp prec emax (Zpos (digits2_pos m) + e)).
  destruct (Z_le_gt_dec e e1) as [Hle | Hgt].
  - rewrite shl_align_keep by assumption. exists m, e. split; reflexivity.
  - rewrite shl_align_spec by lia.
    assert (Hp : (0 < 2 ^ (e - e1))%Z) by (apply Z.pow_pos_nonneg; lia).
    eexists. eexists. split; [reflexivity|].
    rewrite Z2Pos.id by lia. symmetry. apply dyadic_lower. lia.
Qed.

Lemma binary_round_mono m1 e1 m2 e2 :
  inject_Z (Zpos m1) * 2 ^ e1 <= inject_Z (Zpos m2) * 2 ^ e2 ->
  inject_Z (Zpos m2) * 2 ^ e2 < 2 ^ 104 ->
  F2Q (binary_round prec emax false m1 e1) <= F2Q (binary_round prec emax false m2 e2).
Proof.
  intros Hle Hmax.
  destruct (binary_round_as_aux m1 e1) as (mz1 & ez1 & -> & E1).
  destruct (binary_round_as_aux m2 e2) as (mz2 & ez2 & -> & E2).
  apply round_mono; rewrite ?E1, ?E2; assumption.
Qed.

Local Close Scope Q_scope.

(** ** [quantizeUnorm] and [quantizeSnorm] preserve the order *)

Local Open Scope Q_scope.

Lemma finite_pos m e : 0 < inject_Z (Zpos m) * 2 ^ e.
Proof. apply Qmult_lt_0_compat; [now rewrite <- (Zlt_Qlt 0) | apply pow2Q_pos]. Qed.

Lemma mul_mono c1 c2 s :
  nonneg_finite c1 -> nonneg_finite c2 -> nonneg_finite s ->
  F2Q c1 <= F2Q c2 -> F2Q c2 * F2Q s < 2 ^ 104 ->
  F2Q (mul c1 s) <= F2Q (mul c2 s).
Proof.
  intros H1 H2 Hs Hle Hmax.
  assert (Hn2 : nonneg_finite (mul c2 s)).
  { apply (mul_keeps_grid c2 s 80); [lia | assumption | assumption | exact Hmax]. }
  destruct c1 as [s1|s1| |[|] m1 e1]; cbn [nonneg_finite] in H1; try contradiction.
  { (* a zero times anything is a zero *)
    apply Qle_trans with 0; [|apply F2Q_nonneg; exact Hn2].
    destruct s as [ss|ss| |[|] ms es]; cbn [nonneg_finite] in Hs; try contradiction;
      cbn; discriminate. }
  destruct c2 as [s2|s2| |[|] m2 e2]; cbn [nonneg_finite] in H2; try contradiction.
  { exfalso. cbn [F2Q] in Hle. pose proof (finite_pos m1 e1). lra. }
  destruct s as [ss|ss| |[|] ms es]; cbn [nonneg_finite] in Hs; try contradiction.
  { cbn. discriminate. }
  unfold mul. cbn [SFmul xorb]. cbn [F2Q] in Hle, Hmax.
  assert (E : forall m e, inject_Z (Zpos (m * ms)) * 2 ^ (e + es)
              == inject_Z (Zpos m) * 2 ^ e * (inject_Z (Zpos ms) * 2 ^ es)).
  { intros m e. rewrite Pos2Z.inj_mul, inject_Z_mult, pow2Q_add. ring. }
  apply round_mono; rewrite !E.
  - apply Qmult_le_compat_r; [exact Hle | apply Qlt_le_weak, finite_pos].
  - exact Hmax.
Qed.

Lemma add_half_mono p1 p2 :
  nonneg_finite p1 -> nonneg_finite p2 -> F2Q p1 <= F2Q p2 -> F2Q p2 + (1 # 2) < 2 ^ 104 ->
  F2Q (add p1 half) <= F2Q (add p2 half).
Proof.
  intros H1 H2 Hle Hmax.
  destruct (add_half_as_round p1 H1) as (m1 & e1 & -> & E1).
  destruct (add_half_as_round p2 H2) as (m2 & e2 & -> & E2).
  apply binary_round_mono; rewrite ?E1, ?E2; [lra | exact Hmax].
Qed.

(** The conversion is monotone in the clamped value. *)
Lemma fixed_mono c1 c2 scale :
  nonneg_finite c1 -> nonneg_finite c2 -> F2Q c1 <= F2Q c2 -> F2Q c2 <= 1 ->
  nonneg_finite scale -> F2Q scale <= 2 ^ 30 ->
  exists q1 q2, fixed c1 scale = Some q1 /\ fixed c2 scale = Some q2 /\ (0 <= q1 <= q2)%Z.
Proof.
  intros H1 H2 Hle Hc2 Hs Hs30.
  assert (Hc1 : F2Q c1 <= 1) by lra.
  destruct (scale_round_defined c1 scale H1 Hc1 Hs Hs30) as (_ & Ht1 & Hr1).
  destruct (scale_round_defined c2 scale H2 Hc2 Hs Hs30) as (_ & Ht2 & Hr2).
  pose proof (F2Q_nonneg c2 H2) as Hc0. pose proof (F2Q_nonneg scale Hs) as Hs0.
  assert (H30 : 2 ^ 30 == 1073741824) by reflexivity.
  assert (H104 : 2 ^ 31 <= 2 ^ 104) by (apply Qpower_le_compat_l; [lia | discriminate]).
  assert (H31 : 2 ^ 31 == 2147483648) by reflexivity.
  assert (Hx : F2Q c2 * F2Q scale <= 2 ^ 30).
  { apply Qle_trans with (1 * F2Q scale); [apply Qmult_le_compat_r; assumption|].
    now rewrite Qmult_1_l. }
  assert (Hx' : F2Q c2 * F2Q scale < 2 ^ (7 + 24))
    by (change (2 ^ (7 + 24)) with (2 ^ 31); lra).
  destruct (mul_keeps_grid c2 scale 7 ltac:(lia) H2 Hs Hx') as (Hpn2 & _ & Hphi).
  assert (Hx1' : F2Q c1 * F2Q scale < 2 ^ (7 + 24)).
  { eapply Qle_lt_trans; [|exact Hx']. apply Qmult_le_compat_r; assumption. }
  destruct (mul_keeps_grid c1 scale 7 ltac:(lia) H1 Hs Hx1') as (Hpn1 & _ & _).
  assert (Hp30 : F2Q (mul c2 scale) <= 2 ^ 30)
    by (rewrite pow2Q_30; apply Hphi; rewrite <- pow2Q_30; exact Hx).
  assert (Hm : F2Q (mul c1 scale) <= F2Q (mul c2 scale)) by (apply mul_mono; try assumption; lra).
  assert (Ha : F2Q (add (mul c1 scale) half) <= F2Q (add (mul c2 scale) half))
    by (apply add_half_mono; try assumption; lra).
  exists (Qfloor (F2Q (add (mul c1 scale) half))), (Qfloor (F2Q (add (mul c2 scale) half))).
  split; [exact Ht1|]. split; [exact Ht2|].
  split; [lia | apply Qfloor_resp_le; exact Ha].
Qed.

(** The order of two non-negative values of the format is the order of
    the numbers they denote. *)
Lemma le_canonical m1 e1 m2 e2 :
  canonical m1 e1 -> canonical m2 e2 ->
  le (S754_finite false m1 e1) (S754_finite false m2 e2) = true ->
  inject_Z (Zpos m1) * 2 ^ e1 <= inject_Z (Zpos m2) * 2 ^ e2.
Proof.
  intros (Hm1 & He1 & Hn1) (Hm2 & He2 & Hn2).
  unfold le, SFleb. cbn [SFcompare]. rewrite compare_cont_Eq. intros Hcmp.
  destruct (Z.compare_spec e1 e2) as [-> | Hlt | Hgt]; try discriminate.
  - apply (dyadic_le _ _ _ _ e2); [lia | lia |]. rewrite Z.sub_diag, !Z.mul_1_r.
    destruct (Z.compare_spec (Zpos m1) (Zpos m2)); try discriminate; lia.
  - apply (dyadic_le _ _ _ _ e1); [lia | lia |].
    rewrite Z.sub_diag, Z.mul_1_r.
    assert (2 ^ 1 <= 2 ^ (e2 - e1))%Z by (apply Z.pow_le_mono_r; lia).
    change (2 ^ 1)%Z with 2%Z in *. nia.
Qed.

Lemma clamp_hi_mono m1 e1 m2 e2 :
  canonical m1 e1 -> canonical m2 e2 ->
  inject_Z (Zpos m1) * 2 ^ e1 <= inject_Z (Zpos m2) * 2 ^ e2 ->
  F2Q (clamp_hi (S754_finite false m1 e1)) <= F2Q (clamp_hi (S754_finite false m2 e2)).
Proof.
  intros H1 H2 Hle.
  destruct (clamp_hi_nonneg m1 e1 H1) as (_ & Hc1 & _ & E1).
  destruct (clamp_hi_nonneg m2 e2 H2) as (_ & Hc2 & _ & E2).
  rewrite E2. cbn [F2Q] in *.
  destruct (Qle_bool 1 (inject_Z (Zpos m2) * 2 ^ e2)) eqn:B2; [exact Hc1|].
  rewrite E1.
  destruct (Qle_bool 1 (inject_Z (Zpos m1) * 2 ^ e1)) eqn:B1; [|exact Hle].
  apply Qle_bool_iff in B1.
  assert (B : Qle_bool 1 (inject_Z (Zpos m2) * 2 ^ e2) = true) by (apply Qle_bool_iff; lra).
  congruence.
Qed.

(** The clamp of [quantizeUnorm] preserves the order of non-NaN values. *)
Lemma clamp01_mono d1 d2 :
  decoded d1 -> decoded d2 -> le d1 d2 = true ->
  F2Q (clamp01 d1) <= F2Q (clamp01 d2).
Proof.
  intros H1 H2 Hle.
  destruct (clamp01_range d2 H2) as [Hc2 _]. pose proof (F2Q_nonneg _ Hc2) as H0.
  destruct (clamp01_range d1 H1) as [_ Hc1].
  destruct d1 as [s1|s1| |s1 m1 e1]; try discriminate Hle.
  - exact H0.
  - destruct s1; [exact H0|].
    destruct d2 as [s2|s2| |s2 m2 e2]; try discriminate Hle.
    destruct s2; [discriminate Hle | apply Qle_refl].
  - destruct s1; [exact H0|].
    destruct d2 as [s2|s2| |s2 m2 e2]; try discriminate Hle.
    + destruct s2; [discriminate Hle|].
      change (clamp01 (S754_infinity false)) with (of_int 1). rewrite F2Q_one. exact Hc1.
    + destruct s2; [discriminate Hle|].
      change (clamp01 (S754_finite false m1 e1)) with (clamp_hi (S754_finite false m1 e1)).
      change (clamp01 (S754_finite false m2 e2)) with (clamp_hi (S754_finite false m2 e2)).
      apply clamp_hi_mono; [exact H1 | exact H2 | now apply le_canonical].
Qed.

Local Close Scope Q_scope.

(** X16: [quantizeUnorm] preserves the order: for inputs [v <= w] (a
    comparison that holds for no NaN), infinities included, and every
    defined width, the code of [v] is at most the code of [w], and both are
    non-negative. *)
Theorem quantizeUnorm_monotone v w bits :
  wf v -> wf w -> le (decode v) (decode w) = true -> 0 <= bits <= 30 ->
  exists qv qw,
    quantizeUnorm v bits = Some qv /\ quantizeUnorm w bits = Some qw /\ 0 <= qv <= qw.
Proof.
  intros Hv Hw Hle Hb. rewrite !unorm_unfold by exact Hb.
  assert (0 < 2 ^ bits) by (apply Z.pow_pos_nonneg; lia).
  assert (2 ^ bits <= 2 ^ 30) by (apply Z.pow_le_mono_r; lia).
  destruct (of_int_le_pow30 (2 ^ bits - 1)) as [Hs Hs30]; [lia|].
  destruct (clamp01_range _ (decode_decoded v Hv)) as [Hc1 _].
  destruct (clamp01_range _ (decode_decoded w Hw)) as [Hc2 Hc21].
  apply fixed_mono; try assumption.
  apply clamp01_mono; [apply decode_decoded | apply decode_decoded |]; assumption.
Qed.

Lemma quantizeUnorm_monotone_witness :
  exists qv qw,
    quantizeUnorm 0x3e99999a 10 = Some qv /\ quantizeUnorm 0x3e99999b 10 = Some qw /\
    0 <= qv <= qw.
Proof.
  apply (quantizeUnorm_monotone 0x3e99999a 0x3e99999b 10);
    [unfold wf; lia | unfold wf; lia | reflexivity | lia].
Defined.

Lemma le_opp d1 d2 : le d1 d2 = true -> le (SFopp d2) (SFopp d1) = true.
Proof.
  destruct d1 as [s1|s1| |s1 m1 e1]; destruct d2 as [s2|s2| |s2 m2 e2];
    cbn [SFopp]; unfold le, SFleb; cbn [SFcompare]; try discriminate; try reflexivity;
    destruct s1; destruct s2; cbn [negb]; try discriminate; try reflexivity;
    rewrite !compare_cont_Eq;
    destruct (Z.compare_spec e1 e2); destruct (Z.compare_spec e2 e1); try lia;
    try discriminate; try reflexivity;
    destruct (Z.compare_spec (Zpos m1) (Zpos m2));
    destruct (Z.compare_spec (Zpos m2) (Zpos m1)); try lia;
    cbn [CompOpp]; try discriminate; reflexivity.
Qed.

Lemma ge_zero_trans d1 d2 :
  le d1 d2 = true -> ge d1 (of_int 0) = true -> ge d2 (of_int 0) = true.
Proof.
  destruct d1 as [s1|s1| |s1 m1 e1]; destruct d2 as [s2|s2| |s2 m2 e2];
    try discriminate; try reflexivity;
    destruct s1; destruct s2; try discriminate; reflexivity.
Qed.

(** X17: [quantizeSnorm] preserves the order: for inputs [v <= w],
    infinities included, and every defined width, the code of [v] is at most
    the code of [w]. *)
Theorem quantizeSnorm_monotone v w bits :
  wf v -> wf w -> le (decode v) (decode w) = true -> 1 <= bits <= 31 ->
  exists qv qw, quantizeSnorm v bits = Some qv /\ quantizeSnorm w bits = Some qw /\ qv <= qw.
Proof.
  intros Hv Hw Hle Hb.
  assert (0 < 2 ^ (bits - 1)) by (apply Z.pow_pos_nonneg; lia).
  assert (2 ^ (bits - 1) <= 2 ^ 30) by (apply Z.pow_le_mono_r; lia).
  destruct (of_int_le_pow30 (2 ^ (bits - 1) - 1)) as [Hs Hs30]; [lia|].
  pose proof (decode_decoded v Hv) as Hdv. pose proof (decode_decoded w Hw) as Hdw.
  assert (Hnv : decode v <> S754_nan) by (intros E; rewrite E in Hle; discriminate Hle).
  assert (Hnw : decode w <> S754_nan).
  { intros E; rewrite E in Hle. destruct (decode v) as [?|?| |? ? ?]; discriminate Hle. }
  destruct (clamp01_range _ Hdv) as [Hcv Hcv1]. destruct (clamp01_range _ Hdw) as [Hcw Hcw1].
  destruct (clamp01_range _ (decoded_opp _ Hdv)) as [Hnv' Hnv1].
  destruct (clamp01_range _ (decoded_opp _ Hdw)) as [Hnw' Hnw1].
  destruct (snorm_as_fixed v bits Hv Hb) as [[Hgv ->] | (Hgv & cv & _ & _ & Ecv & ->)];
    destruct (snorm_as_fixed w bits Hw Hb) as [[Hgw ->] | (Hgw & cw & _ & _ & Ecw & ->)].
  - destruct (fixed_mono (clamp01 (decode v)) (clamp01 (decode w)) _ Hcv Hcw
                (clamp01_mono _ _ Hdv Hdw Hle) Hcw1 Hs Hs30) as (q1 & q2 & H1 & H2 & Hq).
    exists q1, q2. split; [exact H1|]. split; [exact H2 | lia].
  - rewrite (ge_zero_trans _ _ Hle Hgv) in Hgw. discriminate Hgw.
  - rewrite (Ecv Hnv).
    destruct (fixed_mono _ _ _ Hnv' Hnv' (Qle_refl _) Hnv1 Hs Hs30) as (q1 & q1' & H1 & _ & Hq1).
    destruct (fixed_mono _ _ _ Hcw Hcw (Qle_refl _) Hcw1 Hs Hs30) as (q2 & q2' & H2 & _ & Hq2).
    rewrite H1, H2. exists (- q1), q2. split; [reflexivity|]. split; [reflexivity | lia].
  - rewrite (Ecv Hnv), (Ecw Hnw).
    destruct (fixed_mono (clamp01 (SFopp (decode w))) (clamp01 (SFopp (decode v))) _ Hnw' Hnv'
                (clamp01_mono _ _ (decoded_opp _ Hdw) (decoded_opp _ Hdv) (le_opp _ _ Hle))
                Hnv1 Hs Hs30) as (q1 & q2 & H1 & H2 & Hq).
    rewrite H1, H2. exists (- q2), (- q1). split; [reflexivity|]. split; [reflexivity | lia].
Qed.

Lemma quantizeSnorm_monotone_witness :
  exists qv qw,
    quantizeSnorm 0xbe99999a 10 = Some qv /\ quantizeSnorm 0x3e99999b 10 = Some qw /\ qv <= qw.
Proof.
  apply (quantizeSnorm_monotone 0xbe99999a 0x3e99999b 10);
    [unfold wf; lia | unfold wf; lia | reflexivity | lia].
Defined.

(** ** The range of the codes, on every input *)

Lemma fixed_one_high b : 24 <= b <= 30 -> fixed (of_int 1) (of_int (2 ^ b - 1)) = Some (2 ^ b).
Proof.
  intros Hb.
  assert (Hc : b = 24 \/ b = 25 \/ b = 26 \/ b = 27 \/ b = 28 \/ b = 29 \/ b = 30) by lia.
  destruct Hc as [-> | [-> | [-> | [-> | [-> | [-> | ->]]]]]]; vm_compute; reflexivity.
Qed.

(** The largest code at a width: [2^b - 1] up to 23 bits of scale, [2^b]
    beyond. *)
Lemma fixed_bound c b :
  nonneg_finite c -> (F2Q c <= 1)%Q -> 0 <= b <= 30 ->
  exists q, fixed c (of_int (2 ^ b - 1)) = Some q /\
            0 <= q <= (if b <=? 23 then 2 ^ b - 1 else 2 ^ b).
Proof.
  intros Hc Hc1 Hb.
  assert (0 < 2 ^ b) by (apply Z.pow_pos_nonneg; lia).
  assert (2 ^ b <= 2 ^ 30) by (apply Z.pow_le_mono_r; lia).
  destruct (of_int_le_pow30 (2 ^ b - 1)) as [Hs Hs30]; [lia|].
  destruct (fixed_mono c (of_int 1) (of_int (2 ^ b - 1)) Hc I) as (q & qm & Hq & Hqm & Hle);
    try assumption; try (rewrite F2Q_one; first [exact Hc1 | apply Qle_refl]).
  exists q. split; [exact Hq|].
  destruct (Z.leb_spec b 23) as [Hlo | Hhi].
  - assert (2 ^ b <= 2 ^ 23) by (apply Z.pow_le_mono_r; lia).
    rewrite fixed_one in Hqm by lia. injection Hqm as <-. lia.
  - rewrite fixed_one_high in Hqm by lia. injection Hqm as <-. lia.
Qed.

(** X18: on every input, NaN and the infinities included, the code of
    [quantizeUnorm] lies in [0, 2^bits - 1] for widths up to 23 and in
    [0, 2^bits] for widths from 24 to 30. *)
Theorem quantizeUnorm_range v bits :
  wf v -> 0 <= bits <= 30 ->
  exists q, quantizeUnorm v bits = Some q /\
            0 <= q <= (if bits <=? 23 then 2 ^ bits - 1 else 2 ^ bits).
Proof.
  intros Hwf Hb. rewrite unorm_unfold by exact Hb.
  destruct (clamp01_range _ (decode_decoded v Hwf)) as [Hc Hc1].
  apply fixed_bound; [exact Hc | exact Hc1 | exact Hb].
Qed.

Lemma quantizeUnorm_range_witness :
  exists q, quantizeUnorm 0x7fc00000 8 = Some q /\ 0 <= q <= 2 ^ 8 - 1.
Proof.
  apply (quantizeUnorm_range 0x7fc00000 8); [unfold wf; lia | lia].
Defined.

(** X19: on every input, NaN and the infinities included, the code of
    [quantizeSnorm] lies in the symmetric range of magnitude
    [2^(bits-1) - 1] for widths up to 24 and of magnitude [2^(bits-1)] for
    widths from 25 to 31: the most negative [bits]-bit value is produced at
    no width up to 24. *)
Theorem quantizeSnorm_range v bits :
  wf v -> 1 <= bits <= 31 ->
  exists q, quantizeSnorm v bits = Some q /\
            Z.abs q <= (if bits <=? 24 then 2 ^ (bits - 1) - 1 else 2 ^ (bits - 1)).
Proof.
  intros Hwf Hb.
  assert (Hif : (if bits <=? 24 then 2 ^ (bits - 1) - 1 else 2 ^ (bits - 1))
                = (if bits - 1 <=? 23 then 2 ^ (bits - 1) - 1 else 2 ^ (bits - 1))).
  { destruct (Z.leb_spec bits 24); destruct (Z.leb_spec (bits - 1) 23); try reflexivity; lia. }
  rewrite Hif.
  destruct (snorm_as_fixed v bits Hwf Hb) as [[_ ->] | (_ & c & Hc & [_ Hc1] & _ & ->)].
  - destruct (clamp01_range _ (decode_decoded v Hwf)) as [Hc Hc1].
    destruct (fixed_bound _ (bits - 1) Hc Hc1) as (q & Hq & Hr); [lia|].
    exists q. split; [exact Hq | lia].
  - destruct (fixed_bound _ (bits - 1) Hc Hc1) as (q & Hq & Hr); [lia|].
    rewrite Hq. exists (- q). split; [reflexivity | lia].
Qed.

Lemma quantizeSnorm_range_witness :
  exists q, quantizeSnorm 0xff800000 8 = Some q /\ Z.abs q <= 2 ^ (8 - 1) - 1.
Proof.
  apply (quantizeSnorm_range 0xff800000 8); [unfold wf; lia | lia].
Defined.

(** ** The distance of the code from the scaled input *)

Local Open Scope Q_scope.

(** The code never exceeds an integer that bounds the exact product. *)
Lemma scale_round_ceil c scale S j :
  nonneg_finite c -> F2Q c <= 1 ->
  nonneg_finite scale -> F2Q scale == inject_Z S -> (0 <= S <= 2 ^ 23 - 1)%Z ->
  F2Q c * inject_Z S <= inject_Z j ->
  forall q, fixed c scale = Some q -> (q <= j)%Z.
Proof.
  intros Hc Hc1 Hs HS HSr Hj q Hq.
  pose proof (F2Q_nonneg c Hc) as Hc0.
  assert (HS0 : 0 <= inject_Z S) by (rewrite <- (Zle_Qle 0); lia).
  assert (HS23 : inject_Z S <= inject_Z (2 ^ 23) - 1).
  { rewrite <- inject_Z_pred, <- Zle_Qle. lia. }
  set (x := F2Q c * F2Q scale).
  assert (Hx : x == F2Q c * inject_Z S) by (subst x; rewrite HS; reflexivity).
  assert (HxS : x <= inject_Z S).
  { rewrite Hx. rewrite <- (Qmult_1_l (inject_Z S)) at 2. apply Qmult_le_compat_r; assumption. }
  assert (Hx23 : x < 2 ^ 23) by (rewrite pow2Q_23; lra).
  pose proof (mul_keeps_halves c scale Hc Hs Hx23) as Hp. fold x in Hp.
  set (p := mul c scale) in *.
  assert (Hp_j : F2Q p <= inject_Z j) by (apply (kh_hi_int _ _ Hp); rewrite Hx; exact Hj).
  assert (Hp_S : F2Q p <= inject_Z S) by (apply (kh_hi_int _ _ Hp); exact HxS).
  assert (Hy23 : F2Q p + (1 # 2) < 2 ^ 23) by (rewrite pow2Q_23; lra).
  pose proof Hp as [Hpn _].
  pose proof (add_half_keeps_halves p Hpn Hy23) as Ht.
  set (t := add p half) in *.
  assert (Ht_j : F2Q t <= inject_Z j + (1 # 2)) by (apply (kh_hi_half _ _ Ht); lra).
  assert (Ht_S : F2Q t <= inject_Z S + (1 # 2)) by (apply (kh_hi_half _ _ Ht); lra).
  pose proof Ht as [Htn _].
  assert (HfS : (Qfloor (F2Q t) <= S)%Z).
  { destruct (Z_le_gt_dec (Qfloor (F2Q t)) S) as [|Hgt]; [assumption|].
    exfalso. pose proof (Qfloor_le (F2Q t)) as Hfl.
    assert (inject_Z (S + 1) <= inject_Z (Qfloor (F2Q t))) by (rewrite <- Zle_Qle; lia).
    rewrite inject_Z_succ in *. lra. }
  unfold fixed in Hq. fold p t in Hq.
  rewrite to_int_floor in Hq; [|exact Htn | unfold Int32.max_signed; lia].
  injection Hq as <-.
  destruct (Z_le_gt_dec (Qfloor (F2Q t)) j) as [|Hgt]; [assumption|].
  exfalso. pose proof (Qfloor_le (F2Q t)) as Hfl.
  assert (inject_Z (j + 1) <= inject_Z (Qfloor (F2Q t))) by (rewrite <- Zle_Qle; lia).
  rewrite inject_Z_succ in *. lra.
Qed.

(** X20: for a finite input and a width up to 23, the code of
    [quantizeUnorm] is less than one step away from the exact scaled value
    [x = clamp(v, 0, 1) * (2^bits - 1)]: [x - 1/2 < q < x + 1], and [q = x]
    when [x] is an integer. *)
Theorem quantizeUnorm_error v bits :
  wf v -> is_finite v = true -> (0 <= bits <= 23)%Z ->
  let x := clampQ 0 1 (F2Q (decode v)) * inject_Z (2 ^ bits - 1) in
  exists q, quantizeUnorm v bits = Some q /\
            x - (1 # 2) < inject_Z q /\ inject_Z q < x + 1 /\
            (forall j, x == inject_Z j -> q = j).
Proof.
  intros Hwf Hfin Hb x.
  assert (HS : (0 <= 2 ^ bits - 1 <= 2 ^ 23 - 1)%Z).
  { assert (0 < 2 ^ bits)%Z by (apply Z.pow_pos_nonneg; lia).
    assert (2 ^ bits <= 2 ^ 23)%Z by (apply Z.pow_le_mono_r; lia). lia. }
  rewrite unorm_unfold by lia.
  destruct (unorm_clamp v Hwf Hfin) as (Hn & [H0 H1] & E).
  change (clamp_hi (if ge (decode v) (of_int 0) then decode v else of_int 0))
    with (clamp01 (decode v)) in *.
  destruct (of_int_value (2 ^ bits - 1)) as [Hsn Hsv]; [lia|].
  destruct (scale_round_trunc _ _ _ Hn H1 Hsn Hsv HS) as (q & Hq & Hk & Hr & Hex).
  assert (Hxe : x == F2Q (clamp01 (decode v)) * inject_Z (2 ^ bits - 1))
    by (subst x; rewrite E; reflexivity).
  pose proof (Qlt_floor (F2Q (clamp01 (decode v)) * inject_Z (2 ^ bits - 1) + (1 # 2))) as Hfl.
  rewrite inject_Z_succ in Hfl.
  set (k := Qfloor _) in *.
  assert (Hqk : inject_Z k <= inject_Z q) by (rewrite <- Zle_Qle; lia).
  pose proof (Qle_ceiling x) as Hceil.
  assert (Hqc : (q <= Qceiling x)%Z).
  { apply (scale_round_ceil _ _ _ (Qceiling x) Hn H1 Hsn Hsv HS); [rewrite <- Hxe; exact Hceil|].
    exact Hq. }
  pose proof (Qceiling_lt x) as Hcl.
  assert (Hqc' : inject_Z q <= inject_Z (Qceiling x)) by (rewrite <- Zle_Qle; exact Hqc).
  rewrite inject_Z_pred in Hcl.
  exists q. split; [exact Hq|]. split; [lra|]. split; [lra|].
  intros j Hj.
  assert (Hcj : Qceiling x = j) by (rewrite Hj; apply Qceiling_Z).
  assert (Hkj : k = j).
  { subst k. apply Qfloor_unique; rewrite <- Hxe, Hj; [|rewrite inject_Z_succ]; lra. }
  lia.
Qed.

Lemma quantizeUnorm_error_witness :
  exists q, quantizeUnorm 0x3b008080%Z 8%Z = Some q /\
            clampQ 0 1 (F2Q (decode 0x3b008080%Z)) * inject_Z (2 ^ 8 - 1) - (1 # 2) < inject_Z q /\
            inject_Z q < clampQ 0 1 (F2Q (decode 0x3b008080%Z)) * inject_Z (2 ^ 8 - 1) + 1.
Proof.
  destruct (quantizeUnorm_error 0x3b008080%Z 8%Z) as (q & Hq & Hlo & Hhi & _);
    [unfold wf; lia | reflexivity | lia |].
  exists q. split; [exact Hq | split; [exact Hlo | exact Hhi]].
Defined.

Local Close Scope Q_scope.
